(** * lime.scheduleManager (src/lime/src/schedulemanager.js)

    A shallow embedding of the scheduler and of the [goog.array] helpers it
    relies on, followed by the properties of the specification.

    Modelling conventions
    - JavaScript numbers that carry times (timestamps, deltas, [maxdelta],
      [delta], [limit]) are integers of milliseconds, [Z].  [displayRate_]
      is only stored, as a rational.
    - Objects are identified by a reference ([ref]).  [Task] objects live in
      a store ([heap]) addressed by reference; [taskStack_] holds references,
      so that a task passed to [schedule] twice is the same task.
    - The three-element arrays [[1, f, context]] kept in a task's
      [functionStack_] carry their own identity ([e_ref]): [goog.array]
      compares with [===], which on arrays is identity.
    - Callbacks and contexts are objects, compared by identity; a callback
      may be something [goog.isFunction] rejects.  A callback is known by
      the calls it makes to the public interface when it is invoked
      ([body]); [goog.now()] is a parameter of every operation that can
      read the clock.
    - A read of a property of [undefined] raises a [TypeError]; operations
      return a [completion]. *)

From Stdlib Require Import ZArith QArith Lia.
From stdpp Require Import base numbers list.

Set Default Proof Using "Type".

(** ** Values *)

Abbreviation ref := nat (only parsing).

(** The value stored as [f[1]]: a function, or something that
    [goog.isFunction] rejects. *)
Inductive callback :=
| Callable (id : ref)
| NonCallable (id : ref).

Definition isFunction (f : callback) : bool :=
  match f with Callable _ => true | NonCallable _ => false end.

#[global] Instance callback_eq_dec : EqDecision callback.
Proof. solve_decision. Defined.

(** The array [[f0, f1, f2]] pushed by [schedule]. *)
Record entry := Entry {
  e_ref : ref;          (* identity of the array object *)
  e_active : bool;      (* f[0] *)
  e_fn : callback;      (* f[1] *)
  e_ctx : ref           (* f[2] *)
}.

#[global] Instance entry_eq_dec : EqDecision entry.
Proof. solve_decision. Defined.

(** Objects that can be handed to [goog.array] on [taskStack_]: a Task, or
    the [functionStack_] array owned by a Task. *)
Inductive object :=
| TaskObj (r : ref)
| ArrayObj (r : ref).

#[global] Instance object_eq_dec : EqDecision object.
Proof. solve_decision. Defined.

(** [===] on entries and on objects. *)
Definition same_entry (a b : entry) : bool := bool_decide (e_ref a = e_ref b).
Definition same_object (a b : object) : bool := bool_decide (a = b).

(** ** goog.array *)

Section goog_array.
Context {A : Type} (same : A → A → bool).

Fixpoint goog_array_indexOf (arr : list A) (obj : A) : option nat :=
  match arr with
  | [] => None
  | x :: arr' =>
      if same x obj then Some 0 else S <$> goog_array_indexOf arr' obj
  end.

Definition goog_array_contains (arr : list A) (obj : A) : bool :=
  match goog_array_indexOf arr obj with Some _ => true | None => false end.

(** Pushes an item into an array, if it's not already in the array. *)
Definition goog_array_insert (arr : list A) (obj : A) : list A :=
  if goog_array_contains arr obj then arr else arr ++ [obj].

Definition goog_array_removeAt (arr : list A) (i : nat) : list A :=
  delete i arr.

(** Removes the first occurrence of a particular value from an array. *)
Definition goog_array_remove (arr : list A) (obj : A) : list A :=
  match goog_array_indexOf arr obj with
  | Some i => goog_array_removeAt arr i
  | None => arr
  end.
End goog_array.

(** ** Task and scheduler state *)

Record Task := mkTask {
  maxdelta : Z;
  delta : Z;
  limit : Z;
  functionStack_ : list entry
}.

(** [new lime.scheduleManager.Task(maxdelta, opt_limit)] *)
Definition Task_new (maxdelta : Z) (opt_limit : option Z) : Task :=
  {| maxdelta := maxdelta;
     delta := maxdelta;
     limit := match opt_limit with Some l => l | None => -1 end;
     functionStack_ := [] |}.

(** What the host has armed for the scheduler: the [MozBeforePaint]
    listener with a frame requested, a frame requested from
    [mozRequestAnimationFrame] with no listener attached, a frame requested
    from [webkitRequestAnimationFrame] with the handler as its callback, or
    an interval timer. *)
Inductive subscription :=
| MozBeforePaint
| MozFrameRequest
| WebkitAnimationFrame
| Interval (id : nat) (ms : Q).

Inductive frame_api := Moz | Webkit.

#[global] Instance frame_api_eq_dec : EqDecision frame_api.
Proof. solve_decision. Defined.

(** One invocation [(f[1]).call(f[2], delta)]. *)
Record call := Call {
  call_entry : ref;
  call_fn : callback;
  call_this : ref;
  call_arg : Z
}.

#[global] Instance call_eq_dec : EqDecision call.
Proof. solve_decision. Defined.

Record Scheduler := mkScheduler {
  heap : list Task;            (* Task objects, by reference *)
  next_entry : ref;            (* next fresh array identity *)
  taskStack_ : list object;
  active_ : bool;
  intervalID_ : nat;
  displayRate_ : Q;
  lastRunTime_ : Z;
  host : option subscription;  (* the armed clock source *)
  log : list call              (* invocations made so far, oldest first *)
}.

Definition set_heap (h : list Task) (s : Scheduler) : Scheduler :=
  mkScheduler h (next_entry s) (taskStack_ s) (active_ s) (intervalID_ s)
    (displayRate_ s) (lastRunTime_ s) (host s) (log s).
Definition set_next_entry (n : ref) (s : Scheduler) : Scheduler :=
  mkScheduler (heap s) n (taskStack_ s) (active_ s) (intervalID_ s)
    (displayRate_ s) (lastRunTime_ s) (host s) (log s).
Definition set_taskStack_ (l : list object) (s : Scheduler) : Scheduler :=
  mkScheduler (heap s) (next_entry s) l (active_ s) (intervalID_ s)
    (displayRate_ s) (lastRunTime_ s) (host s) (log s).
Definition set_active_ (b : bool) (s : Scheduler) : Scheduler :=
  mkScheduler (heap s) (next_entry s) (taskStack_ s) b (intervalID_ s)
    (displayRate_ s) (lastRunTime_ s) (host s) (log s).
Definition set_intervalID_ (n : nat) (s : Scheduler) : Scheduler :=
  mkScheduler (heap s) (next_entry s) (taskStack_ s) (active_ s) n
    (displayRate_ s) (lastRunTime_ s) (host s) (log s).
Definition set_displayRate_ (q : Q) (s : Scheduler) : Scheduler :=
  mkScheduler (heap s) (next_entry s) (taskStack_ s) (active_ s)
    (intervalID_ s) q (lastRunTime_ s) (host s) (log s).
Definition set_lastRunTime_ (t : Z) (s : Scheduler) : Scheduler :=
  mkScheduler (heap s) (next_entry s) (taskStack_ s) (active_ s)
    (intervalID_ s) (displayRate_ s) t (host s) (log s).
Definition set_host (h : option subscription) (s : Scheduler) : Scheduler :=
  mkScheduler (heap s) (next_entry s) (taskStack_ s) (active_ s)
    (intervalID_ s) (displayRate_ s) (lastRunTime_ s) h (log s).
Definition set_log (l : list call) (s : Scheduler) : Scheduler :=
  mkScheduler (heap s) (next_entry s) (taskStack_ s) (active_ s)
    (intervalID_ s) (displayRate_ s) (lastRunTime_ s) (host s) l.

Definition set_delta (d : Z) (t : Task) : Task :=
  mkTask (maxdelta t) d (limit t) (functionStack_ t).
Definition set_limit (l : Z) (t : Task) : Task :=
  mkTask (maxdelta t) (delta t) l (functionStack_ t).
Definition set_functionStack_ (fs : list entry) (t : Task) : Task :=
  mkTask (maxdelta t) (delta t) (limit t) fs.
Definition set_e_active (b : bool) (e : entry) : entry :=
  Entry (e_ref e) b (e_fn e) (e_ctx e).

(** The shared instance, after
    [lime.scheduleManager.taskStack_.push(new lime.scheduleManager.Task(0))]. *)
Definition scheduleManager : Scheduler :=
  {| heap := [Task_new 0 None];
     next_entry := 0;
     taskStack_ := [TaskObj 0];
     active_ := false;
     intervalID_ := 0;
     displayRate_ := (1000 # 30)%Q;
     lastRunTime_ := 0;
     host := None;
     log := [] |}.

(** ** Completions *)

Inductive completion (A : Type) :=
| Normal (a : A) (s : Scheduler)
| TypeError (s : Scheduler).
Arguments Normal {A} a s.
Arguments TypeError {A} s.

Definition M (A : Type) : Type := Scheduler → completion A.

#[global] Instance M_ret : MRet M := λ A a s, Normal a s.
#[global] Instance M_bind : MBind M := λ A B k m s,
  match m s with
  | Normal a s' => k a s'
  | TypeError s' => TypeError s'
  end.

Definition throw {A} : M A := λ s, TypeError s.
Definition gets {A} (f : Scheduler → A) : M A := λ s, Normal (f s) s.
Definition modify (f : Scheduler → Scheduler) : M unit := λ s, Normal tt (f s).
Definition ret {A} (a : A) : M A := mret a.

(** The state a completion ends in, and whether it is normal. *)
Definition final {A} (c : completion A) : Scheduler :=
  match c with Normal _ s => s | TypeError s => s end.
Definition threw {A} (c : completion A) : bool :=
  match c with Normal _ _ => false | TypeError _ => true end.

(** Dereference a Task; a dangling reference reads [undefined]. *)
Definition deref (r : ref) : M Task :=
  λ s, match heap s !! r with
       | Some t => Normal t s
       | None => TypeError s
       end.

Definition update_task (r : ref) (f : Task → Task) : M unit :=
  modify (λ s, set_heap (alter f r (heap s)) s).

(** [this.taskStack_[j]] used as a Task. *)
Definition task_at (j : nat) : M (ref * Task) :=
  λ s, match taskStack_ s !! j with
       | Some (TaskObj r) =>
           match heap s !! r with
           | Some t => Normal (r, t) s
           | None => TypeError s
           end
       | _ => TypeError s
       end.

(** ** What a callback may call *)

Inductive action :=
| Schedule (f : callback) (context : ref) (opt_task : option ref)
| Unschedule (f : callback) (context : ref)
| ScheduleWithDelay (f : callback) (context : ref) (delay : Z)
    (opt_limit : option Z)
| CallAfter (f : callback) (context : ref) (delay : Z)
| ChangeDirectorActivity (director : ref) (value : bool)
| SetDisplayRate (value : Q)
| NewTask (maxdelta : Z) (opt_limit : option Z).

(** ** The host and the application

    What the scheduler finds around it: whether the window offers animation
    frames, the directors of the contexts, and the callbacks. *)

Class Host := {
  (** [lime.scheduleManager.USE_ANIMATION_FRAME], as the window sets it:
      [Some Moz] in a window that offers [mozRequestAnimationFrame],
      [Some Webkit] in one that offers [webkitRequestAnimationFrame] only,
      [None] in a window that offers neither.  A function the window does
      not offer is [undefined] there. *)
  USE_ANIMATION_FRAME : option frame_api;
  (** [context.getDirector]: [None] when the context has no such function,
      otherwise the director it returns *)
  getDirector : ref → option ref;
  (** the calls a callback makes when invoked as [f.call(context, delta)] *)
  body : callback → ref → Z → list action
}.

(** ** The scheduler *)

Section ScheduleManager.

Context {host_env : Host}.

(** *** activate_ / disable_ *)

Definition activate_ (now : Z) : M unit :=
  active ← gets active_;
  if (active : bool) then ret tt else
  modify (set_lastRunTime_ now);;
  match USE_ANIMATION_FRAME with
  | Some Moz => modify (set_host (Some MozBeforePaint))
  | Some Webkit => modify (set_host (Some WebkitAnimationFrame))
  | None =>
      modify (λ s,
        let id := S (intervalID_ s) in
        set_host (Some (Interval id (displayRate_ s))) (set_intervalID_ id s))
  end;;
  modify (set_active_ true).

Definition disable_ : M unit :=
  active ← gets active_;
  if negb (active : bool) then ret tt else
  modify (set_host None);;
  modify (set_active_ false).

(** *** getDisplayRate / setDisplayRate *)

Definition getDisplayRate : M Q := gets displayRate_.

Definition setDisplayRate (now : Z) (value : Q) : M unit :=
  modify (set_displayRate_ value);;
  active ← gets active_;
  if (active : bool) then disable_;; activate_ now else ret tt.

(** *** schedule *)

Definition schedule (now : Z) (f : callback) (context : ref)
    (opt_task : option ref) : M unit :=
  task ← match opt_task with
         | Some r => ret (Some (TaskObj r))
         | None => gets (λ s, taskStack_ s !! 0)
         end;
  match task with
  | Some (TaskObj r) =>
      t ← deref r;
      id ← gets next_entry;
      modify (set_next_entry (S id));;
      update_task r (set_functionStack_
        (goog_array_insert same_entry (functionStack_ t)
           (Entry id true f context)));;
      modify (λ s, set_taskStack_
        (goog_array_insert same_object (taskStack_ s) (TaskObj r)) s);;
      active ← gets active_;
      if negb (active : bool) then activate_ now else ret tt
  | _ => throw
  end.

(** *** unschedule *)

Definition same_pair (f : callback) (context : ref) (fi : entry) : bool :=
  bool_decide (e_fn fi = f) && bool_decide (e_ctx fi = context).

(** The inner [while (--i >= 0)] over one [functionStack_]; [None] when
    [fi] is read as [undefined]. *)
Fixpoint unschedule_scan (f : callback) (context : ref) (i : nat)
    (functionStack_ : list entry) : option (list entry) :=
  match i with
  | 0 => Some functionStack_
  | S i =>
      match functionStack_ !! i with
      | None => None
      | Some fi =>
          unschedule_scan f context i
            (if same_pair f context fi
             then goog_array_remove same_entry functionStack_ fi
             else functionStack_)
      end
  end.

(** The outer [while (--j >= 0)]. *)
Fixpoint unschedule_tasks (f : callback) (context : ref) (j : nat)
    : M unit :=
  match j with
  | 0 => ret tt
  | S j =>
      rt ← task_at j;
      match unschedule_scan f context
              (length (functionStack_ rt.2)) (functionStack_ rt.2) with
      | None => throw
      | Some fs =>
          update_task rt.1 (set_functionStack_ fs);;
          (if (length fs =? 0) && negb (j =? 0)
           then modify (λ s, set_taskStack_
                  (goog_array_remove same_object (taskStack_ s)
                     (ArrayObj rt.1)) s)
           else ret tt);;
          unschedule_tasks f context j
      end
  end.

Definition unschedule (f : callback) (context : ref) : M unit :=
  j ← gets (λ s, length (taskStack_ s));
  unschedule_tasks f context j;;
  n ← gets (λ s, length (taskStack_ s));
  if n =? 1 then
    rt ← task_at 0;
    if length (functionStack_ rt.2) =? 0 then disable_ else ret tt
  else ret tt.

(** *** scheduleWithDelay / callAfter *)

Definition new_Task (maxdelta : Z) (opt_limit : option Z) : M ref :=
  r ← gets (λ s, length (heap s));
  modify (λ s, set_heap (heap s ++ [Task_new maxdelta opt_limit]) s);;
  ret r.

Definition scheduleWithDelay (now : Z) (f : callback) (context : ref)
    (delay : Z) (opt_limit : option Z) : M unit :=
  task ← new_Task delay opt_limit;
  schedule now f context (Some task).

Definition callAfter (now : Z) (f : callback) (context : ref)
    (delay : Z) : M unit :=
  scheduleWithDelay now f context delay (Some 1%Z).

(** *** changeDirectorActivity *)

Fixpoint changeDirectorActivity_scan (director : ref) (value : bool)
    (i : nat) (functionStack_ : list entry) : option (list entry) :=
  match i with
  | 0 => Some functionStack_
  | S i =>
      match functionStack_ !! i with
      | None => None
      | Some f =>
          let context := e_ctx f in
          changeDirectorActivity_scan director value i
            (match getDirector context with
             | Some d =>
                 if bool_decide (d = director)
                 then <[i := set_e_active value f]> functionStack_
                 else functionStack_
             | None => functionStack_
             end)
      end
  end.

Fixpoint changeDirectorActivity_tasks (director : ref) (value : bool)
    (j : nat) : M unit :=
  match j with
  | 0 => ret tt
  | S j =>
      rt ← task_at j;
      match changeDirectorActivity_scan director value
              (length (functionStack_ rt.2)) (functionStack_ rt.2) with
      | None => throw
      | Some fs =>
          update_task rt.1 (set_functionStack_ fs);;
          changeDirectorActivity_tasks director value j
      end
  end.

Definition changeDirectorActivity (director : ref) (value : bool)
    : M unit :=
  j ← gets (λ s, length (taskStack_ s));
  changeDirectorActivity_tasks director value j.

(** *** Calls made by callbacks *)

Definition perform (now : Z) (a : action) : M unit :=
  match a with
  | Schedule f context opt_task => schedule now f context opt_task
  | Unschedule f context => unschedule f context
  | ScheduleWithDelay f context delay opt_limit =>
      scheduleWithDelay now f context delay opt_limit
  | CallAfter f context delay => callAfter now f context delay
  | ChangeDirectorActivity director value =>
      changeDirectorActivity director value
  | SetDisplayRate value => setDisplayRate now value
  | NewTask maxdelta opt_limit => new_Task maxdelta opt_limit;; ret tt
  end.

Fixpoint perform_all (now : Z) (l : list action) : M unit :=
  match l with
  | [] => ret tt
  | a :: l => perform now a;; perform_all now l
  end.

(** [(f[1]).call(f[2], delta)] *)
Definition invoke (now : Z) (f : entry) (delta : Z) : M unit :=
  modify (λ s, set_log
    (log s ++ [Call (e_ref f) (e_fn f) (e_ctx f) delta]) s);;
  perform_all now (body (e_fn f) (e_ctx f) delta).

(** *** Task.prototype.step_ *)

(** The [while (--i >= 0)] of [step_]; the result is the variable [f]
    after the loop. *)
Fixpoint step_loop (now : Z) (this : ref) (delta : Z) (i : nat)
    (f : option entry) : M (option entry) :=
  match i with
  | 0 => ret f
  | S i =>
      t ← deref this;
      let f := functionStack_ t !! i in
      match f with
      | Some e =>
          if e_active e && isFunction (e_fn e)
          then invoke now e delta else ret tt
      | None => ret tt
      end;;
      step_loop now this delta i f
  end.

Definition step_ (now : Z) (this : ref) (dt : Z) : M unit :=
  t ← deref this;
  if length (functionStack_ t) =? 0 then ret tt else
  if (delta t >? dt)%Z then
    update_task this (set_delta (delta t - dt))
  else
    let delta' := (maxdelta t + dt - delta t)%Z in
    let d := (maxdelta t - (dt - delta t))%Z in
    update_task this (set_delta (if (d <? 0)%Z then 0%Z else d));;
    f ← step_loop now this delta' (length (functionStack_ t)) None;
    t ← deref this;
    if negb (limit t =? -1)%Z then
      update_task this (set_limit (limit t - 1));;
      if (limit t - 1 =? 0)%Z then
        match f with
        | Some e => unschedule (e_fn e) (e_ctx e)
        | None => throw
        end
      else ret tt
    else ret tt.

(** *** dispatch_ and the tick handlers *)

Fixpoint dispatch_loop (now : Z) (delta : Z) (i : nat) : M unit :=
  match i with
  | 0 => ret tt
  | S i =>
      o ← gets (λ s, taskStack_ s !! i);
      match o with
      | Some (TaskObj r) => step_ now r delta
      | _ => throw
      end;;
      dispatch_loop now delta i
  end.

Definition dispatch_ (now : Z) (delta : Z) : M unit :=
  i ← gets (λ s, length (taskStack_ s));
  dispatch_loop now delta i.

(** The delta [stepTimer_] hands to [dispatch_]. *)
Definition stepTimer_delta (curTime : Z) (s : Scheduler) : Z :=
  let delta := (curTime - lastRunTime_ s)%Z in
  if (delta <? 0)%Z then 1%Z else delta.

Definition stepTimer_ (curTime : Z) : M unit :=
  delta ← gets (stepTimer_delta curTime);
  dispatch_ curTime delta;;
  modify (set_lastRunTime_ curTime).

(** [window.mozRequestAnimationFrame()].  A frame is requested: while the
    [MozBeforePaint] listener is attached the subscription is what it was;
    once the listener is removed the request is pending with nothing
    listening. *)
Definition moz_frame_requested (s : Scheduler) : Scheduler :=
  match host s with
  | None => set_host (Some MozFrameRequest) s
  | Some _ => s
  end.

(** In a window without the function the call raises a TypeError. *)
Definition mozRequestAnimationFrame : M unit :=
  match USE_ANIMATION_FRAME with
  | Some Moz => modify moz_frame_requested
  | _ => throw
  end.

(** [window.webkitRequestAnimationFrame(this.animationFrameHandlerBinded_)] *)
Definition webkitRequestAnimationFrame : M unit :=
  match USE_ANIMATION_FRAME with
  | Some Webkit => modify (set_host (Some WebkitAnimationFrame))
  | _ => throw
  end.

Definition animationFrameHandler_ (now : Z) (time : Z) : M unit :=
  delta ← gets (λ s, (time - lastRunTime_ s)%Z);
  dispatch_ now delta;;
  modify (set_lastRunTime_ time);;
  webkitRequestAnimationFrame.

Definition beforePaintHandler_ (now : Z) (timeStamp : Z) : M unit :=
  delta ← gets (λ s, (timeStamp - lastRunTime_ s)%Z);
  dispatch_ now delta;;
  modify (set_lastRunTime_ timeStamp);;
  mozRequestAnimationFrame.

(** * Derived notions

    Well-formed states, the states the operations leave on them written as
    plain functions, and the predicates the properties are stated with. *)

(** ** Well-formed states

    What every state built by the interface satisfies: [taskStack_] holds
    live Task references with the default task in slot 0, the arrays of a
    [functionStack_] are pairwise distinct objects allocated before
    [next_entry], and a task that holds an entry is on [taskStack_]. *)

Definition is_task (h : list Task) (o : object) : Prop :=
  match o with TaskObj r => r < length h | ArrayObj _ => False end.

#[global] Instance is_task_dec h o : Decision (is_task h o).
Proof. destruct o; simpl; apply _. Defined.

Definition listed_at (s : Scheduler) (r : ref) : Prop :=
  TaskObj r ∈ taskStack_ s ∨
  match heap s !! r with Some t => functionStack_ t = [] | None => True end.

#[global] Instance listed_at_dec s r : Decision (listed_at s r).
Proof. unfold listed_at. destruct (heap s !! r); apply _. Defined.

Definition wf (s : Scheduler) : Prop :=
  Forall (is_task (heap s)) (taskStack_ s) ∧
  taskStack_ s !! 0 = Some (TaskObj 0) ∧
  Forall (λ t, NoDup (e_ref <$> functionStack_ t)) (heap s) ∧
  Forall (λ t, Forall (λ e, e_ref e < next_entry s) (functionStack_ t))
    (heap s) ∧
  Forall (listed_at s) (seq 0 (length (heap s))).

#[global] Instance wf_dec s : Decision (wf s).
Proof. unfold wf. apply _. Defined.

(** The registrations of a state: every entry of every task. *)
Definition registrations (s : Scheduler) : list entry :=
  concat (functionStack_ <$> heap s).

(** ** The state unschedule leaves *)

Definition keeps (f : callback) (context : ref) (e : entry) : Prop :=
  same_pair f context e = false.

#[global] Instance keeps_dec f context e : Decision (keeps f context e).
Proof. unfold keeps. apply _. Defined.

Definition remove_pair (f : callback) (context : ref) (t : Task) : Task :=
  set_functionStack_ (filter (keeps f context) (functionStack_ t)) t.

(** The state [unschedule] leaves, on a well-formed state. *)
Definition stops (s : Scheduler) : bool :=
  (length (taskStack_ s) =? 1) &&
  match heap s !! 0 with
  | Some t => length (functionStack_ t) =? 0
  | None => false
  end && active_ s.

Definition unscheduled (f : callback) (context : ref) (s : Scheduler)
    : Scheduler :=
  let s1 := set_heap (remove_pair f context <$> heap s) s in
  if stops s1 then set_active_ false (set_host None s1) else s1.

(** Apply [g] to the task an object of [taskStack_] refers to. *)
Definition apply_listed (g : Task → Task) (o : object) (h : list Task)
    : list Task :=
  match o with TaskObj r => alter g r h | ArrayObj _ => h end.

(** ** The states activate_, disable_ and schedule leave *)

Definition armed (s : Scheduler) : Scheduler :=
  match USE_ANIMATION_FRAME with
  | Some Moz => set_host (Some MozBeforePaint) s
  | Some Webkit => set_host (Some WebkitAnimationFrame) s
  | None =>
      set_host (Some (Interval (S (intervalID_ s)) (displayRate_ s)))
        (set_intervalID_ (S (intervalID_ s)) s)
  end.

Definition activated (now : Z) (s : Scheduler) : Scheduler :=
  if active_ s then s
  else set_active_ true (armed (set_lastRunTime_ now s)).

Definition disabled (s : Scheduler) : Scheduler :=
  if active_ s then set_active_ false (set_host None s) else s.

Definition push_entry (e : entry) (t : Task) : Task :=
  set_functionStack_ (functionStack_ t ++ [e]) t.

(** The task [schedule] registers on. *)
Definition target (opt_task : option ref) : ref :=
  match opt_task with Some r => r | None => 0 end.

Definition scheduled (now : Z) (f : callback) (context : ref) (r : ref)
    (s : Scheduler) : Scheduler :=
  activated now
    (set_taskStack_ (goog_array_insert same_object (taskStack_ s) (TaskObj r))
       (set_heap
          (alter (push_entry (Entry (next_entry s) true f context)) r (heap s))
          (set_next_entry (S (next_entry s)) s))).

(** [t'] holds no array that [t] does not hold. *)
Definition shrinks (t t' : Task) : Prop :=
  (e_ref <$> functionStack_ t') `sublist_of` (e_ref <$> functionStack_ t).

(** ** The state a step leaves when its callbacks leave the scheduler alone *)

(** An entry is invoked when [f && f[0] && goog.isFunction(f[1])]. *)
Definition fires (e : entry) : bool := e_active e && isFunction (e_fn e).

Definition call_of (d : Z) (e : entry) : call :=
  Call (e_ref e) (e_fn e) (e_ctx e) d.

(** The invocations a firing task makes: last registered first. *)
Definition calls_of (fs : list entry) (d : Z) : list call :=
  call_of d <$> reverse (filter (λ e, fires e) fs).

(** The callbacks of [fs] make no call to the scheduler when invoked with
    [d]. *)
Definition quiet (fs : list entry) (d : Z) : Prop :=
  ∀ e, e ∈ fs → fires e → body (e_fn e) (e_ctx e) d = [].

(** [unschedule(f[1], f[2])] for the last-iterated entry of [fs]. *)
Definition torn_down (fs : list entry) (s : Scheduler) : Scheduler :=
  match fs !! 0 with
  | Some e => unscheduled (e_fn e) (e_ctx e) s
  | None => s
  end.

(** The state [step_] leaves. *)
Definition stepped (r : ref) (dt : Z) (s : Scheduler) : Scheduler :=
  match heap s !! r with
  | None => s
  | Some t =>
      if length (functionStack_ t) =? 0 then s
      else if (delta t >? dt)%Z then
        set_heap (alter (set_delta (delta t - dt)) r (heap s)) s
      else
        let s1 :=
          set_log
            (log s ++ calls_of (functionStack_ t) (maxdelta t + dt - delta t))
            (set_heap
               (alter (set_delta (Z.max 0 (maxdelta t - (dt - delta t)))) r
                  (heap s)) s) in
        if (limit t =? -1)%Z then s1
        else
          let s2 := set_heap (alter (set_limit (limit t - 1)) r (heap s1)) s1 in
          if (limit t - 1 =? 0)%Z then torn_down (functionStack_ t) s2 else s2
  end.

(** ** The state a tick leaves when no callback re-enters the scheduler *)

(** No callback calls the scheduler when invoked. *)
Definition inert : Prop := ∀ f c d, body f c d = [].

Definition step_object (dt : Z) (o : object) (s : Scheduler) : Scheduler :=
  match o with TaskObj r => stepped r dt s | ArrayObj _ => s end.

(** The state [dispatch_] leaves: the tasks are stepped last first. *)
Definition dispatched (dt : Z) (s : Scheduler) : Scheduler :=
  foldr (step_object dt) s (taskStack_ s).

(** A run of ticks: one [dispatch_] per delta. *)
Fixpoint ticks (now : Z) (dts : list Z) : M unit :=
  match dts with
  | [] => ret tt
  | dt :: dts => dispatch_ now dt;; ticks now dts
  end.

Definition ticked (dts : list Z) (s : Scheduler) : Scheduler :=
  foldl (λ s dt, dispatched dt s) s dts.

(** ** Registrations and calls of one array *)

(** The invocations of the array [x]. *)
Definition calls_to (x : ref) (l : list call) : list call :=
  filter (λ c, call_entry c = x) l.

(** The tasks other than [n] hold no array [x], and those with a fire limit
    hold no registration of [(f, c)]. *)
Definition apart (x : ref) (f : callback) (c : ref) (n : ref)
    (s : Scheduler) : Prop :=
  ∀ r t, heap s !! r = Some t → r ≠ n →
    Forall (λ e, e_ref e ≠ x) (functionStack_ t)
    ∧ (limit t ≠ (-1)%Z → Forall (keeps f c) (functionStack_ t)).

(** No task holds a registration of [(f, c)]. *)
Definition gone (f : callback) (c : ref) (s : Scheduler) : Prop :=
  ∀ r t, heap s !! r = Some t → Forall (keeps f c) (functionStack_ t).

(** ** A one-shot task

    [n] is a task of limit 1 whose only registration is the array [x],
    holding [(f, c)]; [a] is what is left of its delay. *)

Definition pending (x : ref) (f : callback) (c : ref) (n : ref)
    (delay a : Z) (base : list call) (s : Scheduler) : Prop :=
  heap s !! n = Some (mkTask delay a 1 [Entry x true f c])
  ∧ apart x f c n s
  ∧ calls_to x (log s) = base.

Definition finished (x : ref) (f : callback) (c : ref) (n : ref)
    (v : Z) (base : list call) (s : Scheduler) : Prop :=
  (∃ Tn, heap s !! n = Some Tn ∧ functionStack_ Tn = [])
  ∧ apart x f c n s
  ∧ gone f c s
  ∧ calls_to x (log s) = base ++ [Call x f c v].

(** The time accumulated over the ticks [dts]. *)
Definition elapsed (dts : list Z) : Z := foldr Z.add 0%Z dts.

(** No tick of [dts] reaches [a]: at every tick the deltas so far add up to
    less than [a]. *)
Definition waits (a : Z) (dts : list Z) : Prop :=
  ∀ k, 0 < k ≤ length dts → (elapsed (take k dts) < a)%Z.

(** ** The state scheduleWithDelay leaves *)

Definition delayed (now : Z) (f : callback) (c : ref) (delay : Z)
    (opt_limit : option Z) (s : Scheduler) : Scheduler :=
  scheduled now f c (length (heap s))
    (set_heap (heap s ++ [Task_new delay opt_limit]) s).

(** The calls logged after state [s] on the way to [s']. *)
Definition since (s s' : Scheduler) : list call :=
  drop (length (log s)) (log s').

(** ** The state changeDirectorActivity leaves *)

(** The registration belongs to [director]: its context has a
    [getDirector] function that returns it. *)
Definition directed_by (director : ref) (e : entry) : Prop :=
  getDirector (e_ctx e) = Some director.

#[global] Instance directed_by_dec director e :
  Decision (directed_by director e).
Proof. unfold directed_by. apply _. Defined.

Definition toggle (director : ref) (value : bool) (e : entry) : entry :=
  if decide (directed_by director e) then set_e_active value e else e.

Definition toggle_task (director : ref) (value : bool) (t : Task) : Task :=
  set_functionStack_ (toggle director value <$> functionStack_ t) t.

Definition toggled (director : ref) (value : bool) (s : Scheduler)
    : Scheduler :=
  set_heap (toggle_task director value <$> heap s) s.

(** ** A paused director *)

(** The call is not on a context of [director]. *)
Definition outside (director : ref) (k : call) : Prop :=
  getDirector (call_this k) ≠ Some director.

#[global] Instance outside_dec director k : Decision (outside director k).
Proof. unfold outside. apply _. Defined.

(** [s] with the registrations of [director] switched off, and with the
    calls on its contexts taken out of the log from position [m] on. *)
Definition paused_from (director : ref) (m : nat) (s : Scheduler)
    : Scheduler :=
  set_log
    (take m (log s) ++ filter (outside director) (drop m (log s)))
    (toggled director false s).

(** ** Callbacks that unschedule themselves *)

Definition pair_of (e : entry) : callback * ref := (e_fn e, e_ctx e).

(** Each callback of [fs] either leaves the scheduler alone or
    unschedules itself. *)
Definition leaving (fs : list entry) (d : Z) : Prop :=
  ∀ e, e ∈ fs → fires e →
    body (e_fn e) (e_ctx e) d = []
    ∨ body (e_fn e) (e_ctx e) d = [Unschedule (e_fn e) (e_ctx e)].

(** ** Cadences and elapsed times *)

(** No task has a negative cadence. *)
Definition cadences_ok (s : Scheduler) : Prop :=
  Forall (λ t, (0 ≤ maxdelta t)%Z) (heap s).

Definition nonneg_args (L : list call) : Prop :=
  Forall (λ k, (0 ≤ call_arg k)%Z) L.

(** ** Runs

    What enters the scheduler from outside: a call to the interface, or the
    clock source calling one of the three handlers.  A run is a sequence of
    entries, each at its own time. *)

Inductive entry_point :=
| Interface (a : action)
| TimerTick                     (* the interval timer calls [stepTimer_] *)
| WebkitFrame (time : Z)        (* [animationFrameHandler_(time)] *)
| MozFrame (timeStamp : Z).     (* [beforePaintHandler_(event)] *)

Definition enter (now : Z) (e : entry_point) : M unit :=
  match e with
  | Interface a => perform now a
  | TimerTick => stepTimer_ now
  | WebkitFrame time => animationFrameHandler_ now time
  | MozFrame timeStamp => beforePaintHandler_ now timeStamp
  end.

Fixpoint run (l : list (Z * entry_point)) : M unit :=
  match l with
  | [] => ret tt
  | (now, e) :: l => enter now e;; run l
  end.

(** The window offers the frame interface of the handler that is called:
    the browser calls [animationFrameHandler_] for a frame requested from
    [webkitRequestAnimationFrame] and [beforePaintHandler_] on
    [MozBeforePaint]. *)
Definition served (e : entry_point) : Prop :=
  match e with
  | WebkitFrame _ => USE_ANIMATION_FRAME = Some Webkit
  | MozFrame _ => USE_ANIMATION_FRAME = Some Moz
  | _ => True
  end.

Definition served_run (l : list (Z * entry_point)) : Prop :=
  Forall (λ ne, served ne.2) l.

(** The Task objects an entry creates, when no callback creates any. *)
Definition allocates (e : entry_point) : nat :=
  match e with
  | Interface (ScheduleWithDelay _ _ _ _) | Interface (CallAfter _ _ _)
  | Interface (NewTask _ _) => 1
  | _ => 0
  end.

(** Every Task handed to [schedule] has been created before; [n] Tasks
    exist when the run starts. *)
Fixpoint live_run (n : nat) (l : list (Z * entry_point)) : Prop :=
  match l with
  | [] => True
  | (_, e) :: l =>
      match e with
      | Interface (Schedule _ _ (Some r)) => r < n
      | _ => True
      end
      ∧ live_run (n + allocates e) l
  end.

(** Calls that create no Task and register on the default task only. *)
Definition on_default (a : action) : Prop :=
  match a with
  | Schedule _ _ None | Unschedule _ _ | ChangeDirectorActivity _ _
  | SetDisplayRate _ => True
  | _ => False
  end.

#[global] Instance on_default_dec a : Decision (on_default a).
Proof. destruct a as [? ? []| | | | | |]; simpl; apply _. Defined.

Definition default_entry (e : entry_point) : Prop :=
  match e with Interface a => on_default a | _ => True end.

#[global] Instance default_entry_dec e : Decision (default_entry e).
Proof. destruct e; simpl; apply _. Defined.

(** Every callback makes calls on the default task only. *)
Definition default_bodies : Prop :=
  ∀ f c d, Forall on_default (body f c d).

(** Only the default task exists, it has no fire limit, and the scheduler
    is active exactly when the task holds a registration. *)
Definition default_only (s : Scheduler) : Prop :=
  wf s ∧ taskStack_ s = [TaskObj 0]
  ∧ ∃ t0, heap s = [t0] ∧ limit t0 = (-1)%Z
          ∧ (active_ s = true ↔ functionStack_ t0 ≠ []).

(** ** Tasks without a fire limit *)

Definition unlimited (s : Scheduler) : Prop :=
  Forall (λ t, limit t = (-1)%Z) (heap s).

#[global] Instance unlimited_dec s : Decision (unlimited s).
Proof. unfold unlimited. apply _. Defined.

(** [t'] is [t] but for its accumulator. *)
Definition same_setup (t t' : Task) : Prop :=
  functionStack_ t' = functionStack_ t
  ∧ maxdelta t' = maxdelta t ∧ limit t' = limit t.

(** What a step by [dt] makes of a task without a fire limit, and the
    invocations it makes (when its callbacks leave the scheduler alone). *)
Definition advance (dt : Z) (t : Task) : Task :=
  if length (functionStack_ t) =? 0 then t
  else if (delta t >? dt)%Z then set_delta (delta t - dt) t
  else set_delta (Z.max 0 (maxdelta t - (dt - delta t))) t.

Definition fired (dt : Z) (t : Task) : list call :=
  if length (functionStack_ t) =? 0 then []
  else if (delta t >? dt)%Z then []
  else calls_of (functionStack_ t) (maxdelta t + dt - delta t).

(** The invocations of one dispatch by [dt] in a state of tasks without
    fire limits: those of the tasks of [taskStack_], last task first. *)
Definition fired_by (dt : Z) (s : Scheduler) (o : object) : list call :=
  match o with
  | TaskObj r =>
      match heap s !! r with Some t => fired dt t | None => [] end
  | ArrayObj _ => []
  end.

Definition tick_calls (dt : Z) (s : Scheduler) : list call :=
  concat (fired_by dt s <$> reverse (taskStack_ s)).

(** No Task is twice on [taskStack_] and no array is registered twice. *)
Definition distinct (s : Scheduler) : Prop :=
  NoDup (taskStack_ s) ∧ NoDup (e_ref <$> registrations s).

#[global] Instance distinct_dec s : Decision (distinct s).
Proof. unfold distinct. apply _. Defined.

(** A well-formed state of tasks without fire limits, in which no Task is
    twice on [taskStack_] and no array is registered twice. *)
Definition steady (s : Scheduler) : Prop :=
  wf s ∧ unlimited s ∧ NoDup (taskStack_ s)
  ∧ NoDup (e_ref <$> registrations s).

#[global] Instance steady_dec s : Decision (steady s).
Proof. unfold steady. apply _. Defined.

(** ** Clock readings *)

(** The readings [times] follow [a] without going back. *)
Fixpoint increasing (a : Z) (times : list Z) : Prop :=
  match times with
  | [] => True
  | t :: times => (a ≤ t)%Z ∧ increasing t times
  end.

(** The time between consecutive readings, starting from [a]. *)
Fixpoint gaps (a : Z) (times : list Z) : list Z :=
  match times with
  | [] => []
  | t :: times => (t - a)%Z :: gaps t times
  end.

(** The interval timer firing at each of [times]. *)
Definition timer_ticks (times : list Z) : list (Z * entry_point) :=
  (λ t, (t, TimerTick)) <$> times.

(** ** A task with a fire limit

    [n] is a task of fire limit [k] whose only registration is the array
    [x], holding [(f, c)]; [a] is its accumulator; [x] has been invoked [m]
    times. *)

Definition counting (x : ref) (f : callback) (c : ref) (n : ref)
    (delay a k : Z) (m : nat) (s : Scheduler) : Prop :=
  heap s !! n = Some (mkTask delay a k [Entry x true f c])
  ∧ apart x f c n s
  ∧ length (calls_to x (log s)) = m.

(** The task [n] is empty, no task holds [(f, c)], and [x] has been
    invoked [m] times. *)
Definition spent (x : ref) (f : callback) (c : ref) (n : ref) (m : nat)
    (s : Scheduler) : Prop :=
  (∃ Tn, heap s !! n = Some Tn ∧ functionStack_ Tn = [])
  ∧ apart x f c n s
  ∧ gone f c s
  ∧ length (calls_to x (log s)) = m.

(** What a firing step makes of a fire limit that is not 1. *)
Definition count_down (k : Z) : Z := if (k =? -1)%Z then (-1)%Z else (k - 1)%Z.

End ScheduleManager.

(** * Concrete hosts and states

    A window without animation frames (the interval timer is used), and a
    few callbacks and contexts. *)

Definition no_director : ref → option ref := λ _, None.
Definition inert_body : callback → ref → Z → list action := λ _ _ _, [].

Definition f1 : callback := Callable 1.
Definition f2 : callback := Callable 2.
Definition f3 : callback := Callable 3.
Definition ctx : ref := 7.

(** A callback [f2] that unschedules [f1] and itself. *)
Definition f2_clears : callback → ref → Z → list action :=
  λ f c _, if decide (f = f2) then [Unschedule f1 c; Unschedule f2 c] else [].

(** A callback [f1] that unschedules itself. *)
Definition f1_leaves : callback → ref → Z → list action :=
  λ f c _, if decide (f = f1) then [Unschedule f1 c] else [].

(** Contexts 7 and 9 belong to director 100; the others have no
    [getDirector]. *)
Definition director_of : ref → option ref :=
  λ c, if decide (c = 7 ∨ c = 9) then Some 100 else None.

Definition quiet_host : Host :=
  {| USE_ANIMATION_FRAME := None;
     getDirector := no_director;
     body := inert_body |}.

Definition clearing_host : Host :=
  {| USE_ANIMATION_FRAME := None;
     getDirector := no_director;
     body := f2_clears |}.

Definition leaving_host : Host :=
  {| USE_ANIMATION_FRAME := None;
     getDirector := no_director;
     body := f1_leaves |}.

Definition directed_host : Host :=
  {| USE_ANIMATION_FRAME := None;
     getDirector := director_of;
     body := inert_body |}.

(** The default task holding [(f1, ctx)], registered at time 1000. *)
Definition one_registration : Scheduler :=
  Eval vm_compute in
    final (schedule (host_env := quiet_host) 1000 f1 ctx None scheduleManager).

Definition default_task_one : Task :=
  Eval vm_compute in default (Task_new 0 None) (heap one_registration !! 0).

(** [(f1, 7)] and [(f2, 8)] on the default task. *)
Definition two_groups : Scheduler :=
  Eval vm_compute in
    final ((schedule (host_env := directed_host) 1000 f1 7 None ≫= λ _,
            schedule (host_env := directed_host) 1000 f2 8 None)
             scheduleManager).

(** [(f1, ctx)] on the default task and [(f2, ctx)] on a task of cadence
    100 without fire limit. *)
Definition with_repeating : Scheduler :=
  Eval vm_compute in
    final ((schedule (host_env := quiet_host) 1000 f1 ctx None ≫= λ _,
            scheduleWithDelay (host_env := quiet_host) 1000 f2 ctx 100 None)
             scheduleManager).

Definition repeating_task : Task :=
  Eval vm_compute in default (Task_new 0 None) (heap with_repeating !! 1).

(** [(f1, ctx)] on the default task and [(f2, ctx)] on a task of cadence 40
    and fire limit 3. *)
Definition with_limited : Scheduler :=
  Eval vm_compute in
    final ((schedule (host_env := quiet_host) 1000 f1 ctx None ≫= λ _,
            scheduleWithDelay (host_env := quiet_host) 1000 f2 ctx 40
              (Some 3%Z))
             scheduleManager).

Definition limited_task : Task :=
  Eval vm_compute in default (Task_new 0 None) (heap with_limited !! 1).

(** [(f1, ctx)] and [(f2, ctx)] on the default task, where [f1]
    unschedules itself. *)
Definition two_leaving : Scheduler :=
  Eval vm_compute in
    final ((schedule (host_env := leaving_host) 1000 f1 ctx None ≫= λ _,
            schedule (host_env := leaving_host) 1000 f2 ctx None)
             scheduleManager).

Definition two_leaving_task : Task :=
  Eval vm_compute in default (Task_new 0 None) (heap two_leaving !! 0).

(** A window with WebKit animation frames, where [f1] unschedules
    itself. *)
Definition webkit_leaving_host : Host :=
  {| USE_ANIMATION_FRAME := Some Webkit;
     getDirector := no_director;
     body := f1_leaves |}.

(** [(f1, ctx)] alone on the default task, in that window. *)
Definition one_leaving : Scheduler :=
  Eval vm_compute in
    final (schedule (host_env := webkit_leaving_host) 1000 f1 ctx None
             scheduleManager).

Definition one_leaving_task : Task :=
  Eval vm_compute in default (Task_new 0 None) (heap one_leaving !! 0).

(** [callAfter(f1, 7, 40)], then director 100 (that of context 7)
    paused. *)
Definition paused_one_shot : Scheduler :=
  Eval vm_compute in
    final ((callAfter (host_env := directed_host) 1000 f1 7 40 ≫= λ _,
            changeDirectorActivity (host_env := directed_host) 100 false)
             scheduleManager).

Definition paused_task : Task :=
  Eval vm_compute in default (Task_new 0 None) (heap paused_one_shot !! 1).

(** A window with Mozilla animation frames. *)
Definition moz_host : Host :=
  {| USE_ANIMATION_FRAME := Some Moz;
     getDirector := no_director;
     body := inert_body |}.

(** [(f1, ctx)] on the default task, registered at time 1000 in that
    window. *)
Definition moz_one_registration : Scheduler :=
  Eval vm_compute in
    final (schedule (host_env := moz_host) 1000 f1 ctx None scheduleManager).

(** A callback [f3] that unschedules [f1]. *)
Definition f3_drops_f1 : callback → ref → Z → list action :=
  λ f c _, if decide (f = f3) then [Unschedule f1 c] else [].

Definition dropping_host : Host :=
  {| USE_ANIMATION_FRAME := None;
     getDirector := no_director;
     body := f3_drops_f1 |}.

(** [(f1, ctx)], [(f2, ctx)] and [(f3, ctx)] on the default task, in that
    order. *)
Definition three_registered : Scheduler :=
  Eval vm_compute in
    final ((schedule (host_env := dropping_host) 1000 f1 ctx None ≫= λ _,
            schedule (host_env := dropping_host) 1000 f2 ctx None ≫= λ _,
            schedule (host_env := dropping_host) 1000 f3 ctx None)
             scheduleManager).

(** A callback [f1] that sets the display rate. *)
Definition f1_restarts : callback → ref → Z → list action :=
  λ f _ _, if decide (f = f1) then [SetDisplayRate (1000 # 60)] else [].

(** A window with WebKit animation frames, where [f1] sets the display
    rate. *)
Definition restarting_host : Host :=
  {| USE_ANIMATION_FRAME := Some Webkit;
     getDirector := no_director;
     body := f1_restarts |}.

(** [(f1, ctx)] on the default task, registered at time 1000 in that
    window. *)
Definition one_restarting : Scheduler :=
  Eval vm_compute in
    final (schedule (host_env := restarting_host) 1000 f1 ctx None
             scheduleManager).

(** A callback [f2] that resumes director 100. *)
Definition f2_resumes : callback → ref → Z → list action :=
  λ f _ _,
    if decide (f = f2) then [ChangeDirectorActivity 100 true] else [].

Definition resuming_host : Host :=
  {| USE_ANIMATION_FRAME := None;
     getDirector := director_of;
     body := f2_resumes |}.

(** * Properties *)

Section Properties.

Context {host_env : Host}.

#[local] Arguments activate_ : simpl never.
#[local] Arguments disable_ : simpl never.
#[local] Arguments schedule : simpl never.
#[local] Arguments unschedule : simpl never.
#[local] Arguments scheduleWithDelay : simpl never.
#[local] Arguments changeDirectorActivity : simpl never.
#[local] Arguments setDisplayRate : simpl never.
#[local] Arguments step_ : simpl never.
#[local] Arguments dispatch_ : simpl never.
#[local] Arguments perform_all : simpl never.

(** ** Completions *)

Lemma bind_Normal {A B} (m : M A) (k : A → M B) s a s' :
  m s = Normal a s' → (m ≫= k) s = k a s'.
Proof. unfold mbind, M_bind. by intros ->. Qed.

Lemma bind_TypeError {A B} (m : M A) (k : A → M B) s s' :
  m s = TypeError s' → (m ≫= k) s = TypeError s'.
Proof. unfold mbind, M_bind. by intros ->. Qed.

Ltac munfold :=
  unfold mbind, M_bind, ret, mret, M_ret, gets, modify, throw, deref,
    task_at, update_task; simpl.

(** ** goog.array on distinct objects *)

Lemma indexOf_lookup (fs : list entry) (i : nat) (fi : entry) :
  NoDup (e_ref <$> fs) → fs !! i = Some fi →
  goog_array_indexOf same_entry fs fi = Some i.
Proof.
  revert i. induction fs as [|x fs IH]; intros i Hnd Hi; [done|].
  rewrite fmap_cons in Hnd. apply NoDup_cons in Hnd as [Hx Hnd].
  destruct i as [|i]; simpl in *.
  - simplify_eq.
    assert (same_entry fi fi = true) as -> by by apply bool_decide_eq_true_2.
    done.
  - assert (same_entry x fi = false) as ->.
    { apply bool_decide_eq_false_2. intros Heq. apply Hx. rewrite Heq.
      apply list_elem_of_fmap. exists fi. split; [done|].
      by eapply list_elem_of_lookup_2. }
    by rewrite (IH i).
Qed.

Lemma remove_lookup (fs : list entry) (i : nat) (fi : entry) :
  NoDup (e_ref <$> fs) → fs !! i = Some fi →
  goog_array_remove same_entry fs fi = delete i fs.
Proof.
  intros Hnd Hi. unfold goog_array_remove. by rewrite (indexOf_lookup _ i).
Qed.

Lemma indexOf_fresh (fs : list entry) (e : entry) :
  e_ref e ∉ e_ref <$> fs → goog_array_indexOf same_entry fs e = None.
Proof.
  induction fs as [|x fs IH]; intros Hin; [done|]. simpl.
  rewrite fmap_cons in Hin. apply not_elem_of_cons in Hin as [Hne Hin].
  assert (same_entry x e = false) as ->.
  { apply bool_decide_eq_false_2. congruence. }
  by rewrite IH.
Qed.

Lemma insert_fresh (fs : list entry) (e : entry) :
  e_ref e ∉ e_ref <$> fs → goog_array_insert same_entry fs e = fs ++ [e].
Proof.
  intros Hin. unfold goog_array_insert, goog_array_contains.
  by rewrite indexOf_fresh.
Qed.

(** An array is never found among Task objects. *)
Lemma indexOf_array (h : list Task) (l : list object) (r : ref) :
  Forall (is_task h) l → goog_array_indexOf same_object l (ArrayObj r) = None.
Proof.
  induction 1 as [|o l Ho _ IH]; [done|]. simpl.
  destruct o as [r'|r']; [|done].
  assert (same_object (TaskObj r') (ArrayObj r) = false) as ->.
  { by apply bool_decide_eq_false_2. }
  by rewrite IH.
Qed.

Lemma remove_array (h : list Task) (l : list object) (r : ref) :
  Forall (is_task h) l → goog_array_remove same_object l (ArrayObj r) = l.
Proof.
  intros Hl. unfold goog_array_remove. by rewrite (indexOf_array h).
Qed.

Lemma insert_present (l : list object) (o : object) :
  o ∈ l → goog_array_insert same_object l o = l.
Proof.
  intros Hin. unfold goog_array_insert, goog_array_contains.
  assert (is_Some (goog_array_indexOf same_object l o)) as [i ->]; [|done].
  induction l as [|x l IH]; [by apply elem_of_nil in Hin|]. simpl.
  destruct (same_object x o) eqn:Hx; [eauto|].
  apply elem_of_cons in Hin as [->|Hin].
  - apply bool_decide_eq_false_1 in Hx. done.
  - destruct (IH Hin) as [i ->]. eauto.
Qed.

Lemma insert_absent (l : list object) (o : object) :
  o ∉ l → goog_array_insert same_object l o = l ++ [o].
Proof.
  intros Hin. unfold goog_array_insert, goog_array_contains.
  assert (goog_array_indexOf same_object l o = None) as ->; [|done].
  induction l as [|x l IH]; [done|]. simpl.
  apply not_elem_of_cons in Hin as [Hne Hin].
  assert (same_object x o = false) as ->.
  { apply bool_decide_eq_false_2. congruence. }
  by rewrite IH.
Qed.

(** ** unschedule as a filter *)

Lemma NoDup_refs_delete (fs : list entry) (i : nat) :
  NoDup (e_ref <$> fs) → NoDup (e_ref <$> delete i fs).
Proof.
  intros Hnd. eapply sublist_NoDup; [done|].
  apply fmap_sublist, sublist_delete.
Qed.

Lemma take_delete_self {A} (l : list A) (i : nat) :
  i ≤ length l → take i (delete i l) = take i l.
Proof.
  intros Hi. rewrite delete_take_drop.
  apply take_app_length'. rewrite length_take. lia.
Qed.

Lemma drop_delete_self {A} (l : list A) (i : nat) :
  i ≤ length l → drop i (delete i l) = drop (S i) l.
Proof.
  intros Hi. rewrite delete_take_drop.
  apply drop_app_length'. rewrite length_take. lia.
Qed.

Lemma NoDup_refs_filter (P : entry → Prop) `{!∀ e, Decision (P e)}
    (fs : list entry) :
  NoDup (e_ref <$> fs) → NoDup (e_ref <$> filter P fs).
Proof.
  intros Hnd. eapply sublist_NoDup; [done|].
  apply fmap_sublist, sublist_filter.
Qed.

Lemma unschedule_scan_take f c (i : nat) (fs : list entry) :
  NoDup (e_ref <$> fs) → i ≤ length fs →
  unschedule_scan f c i fs
  = Some (filter (keeps f c) (take i fs) ++ drop i fs).
Proof.
  revert fs. induction i as [|i IH]; intros fs Hnd Hi; [done|].
  destruct (lookup_lt_is_Some_2 fs i) as [fi Hfi]; [lia|].
  simpl. rewrite Hfi.
  rewrite (take_S_r _ _ _ Hfi), filter_app, filter_cons, filter_nil.
  destruct (same_pair f c fi) eqn:Hp.
  - rewrite (remove_lookup _ i) by done.
    rewrite IH.
    + rewrite take_delete_self by lia. rewrite drop_delete_self by lia.
      rewrite decide_False by (unfold keeps; congruence).
      by rewrite app_nil_r.
    + by apply NoDup_refs_delete.
    + rewrite length_delete by eauto. lia.
  - rewrite IH by (done || lia).
    rewrite decide_True by done.
    rewrite <- (assoc_L (++)). simpl.
    by rewrite (drop_S _ _ _ Hfi).
Qed.

Lemma unschedule_scan_filter f c (fs : list entry) :
  NoDup (e_ref <$> fs) →
  unschedule_scan f c (length fs) fs = Some (filter (keeps f c) fs).
Proof.
  intros Hnd. rewrite unschedule_scan_take by done.
  by rewrite take_ge, drop_all, app_nil_r.
Qed.

Lemma length_foldr_listed g (l : list object) (h : list Task) :
  length (foldr (apply_listed g) h l) = length h.
Proof.
  induction l as [|o l IH]; [done|]. simpl.
  destruct o; simpl; [by rewrite length_alter|done].
Qed.

Lemma lookup_foldr_listed g (l : list object) (h : list Task) (r : ref) :
  (∀ t, g (g t) = g t) →
  foldr (apply_listed g) h l !! r
  = if decide (TaskObj r ∈ l) then g <$> h !! r else h !! r.
Proof.
  intros Hg. induction l as [|o l IH]; cbn [foldr].
  - destruct (decide (TaskObj r ∈ [])) as [H|_]; [|done].
    by apply elem_of_nil in H.
  - destruct o as [r'|r']; cbn [apply_listed].
    + destruct (decide (r' = r)) as [->|Hne].
      * rewrite list_lookup_alter_eq, IH.
        rewrite (decide_True (P := TaskObj r ∈ TaskObj r :: l))
          by apply list_elem_of_here.
        destruct (decide (TaskObj r ∈ l)); [|done].
        destruct (h !! r); simpl; by rewrite ?Hg.
      * rewrite list_lookup_alter_ne, IH by done.
        destruct (decide (TaskObj r ∈ l)) as [Hl|Hl].
        -- rewrite decide_True; [done|]. by apply list_elem_of_further.
        -- rewrite decide_False; [done|].
           apply not_elem_of_cons. split; [congruence|done].
    + rewrite IH. destruct (decide (TaskObj r ∈ l)) as [Hl|Hl].
      * rewrite decide_True; [done|]. by apply list_elem_of_further.
      * rewrite decide_False; [done|]. by apply not_elem_of_cons.
Qed.

Lemma foldr_listed_fmap g (s : Scheduler) :
  (∀ t, g (g t) = g t) →
  (∀ t, functionStack_ t = [] → g t = t) →
  Forall (listed_at s) (seq 0 (length (heap s))) →
  foldr (apply_listed g) (heap s) (taskStack_ s) = g <$> heap s.
Proof.
  intros Hg Hnil Hl. apply list_eq. intros r.
  rewrite lookup_foldr_listed, list_lookup_fmap by done.
  case_decide as Hin; [done|].
  destruct (heap s !! r) as [t|] eqn:Ht; [|done]. simpl.
  rewrite Forall_seq in Hl. destruct (Hl r) as [?|Hr]; [|done|].
  { apply lookup_lt_Some in Ht. lia. }
  rewrite Ht in Hr. by rewrite Hnil.
Qed.

Lemma modify_remove_array (b : bool) (r : ref) (s : Scheduler) :
  Forall (is_task (heap s)) (taskStack_ s) →
  (if b
   then modify (λ s, set_taskStack_
          (goog_array_remove same_object (taskStack_ s) (ArrayObj r)) s)
   else ret tt) s = Normal tt s.
Proof.
  intros Hst. destruct b; [|done]. unfold modify.
  rewrite (remove_array (heap s)) by done. by destruct s.
Qed.

Lemma task_at_Normal (j : nat) (s : Scheduler) (r : ref) (t : Task) :
  taskStack_ s !! j = Some (TaskObj r) → heap s !! r = Some t →
  task_at j s = Normal (r, t) s.
Proof. unfold task_at. by intros -> ->. Qed.

Lemma unschedule_tasks_foldr f c (j : nat) (s : Scheduler) :
  Forall (is_task (heap s)) (taskStack_ s) →
  Forall (λ t, NoDup (e_ref <$> functionStack_ t)) (heap s) →
  j ≤ length (taskStack_ s) →
  unschedule_tasks f c j s
  = Normal tt (set_heap (foldr (apply_listed (remove_pair f c)) (heap s)
                           (take j (taskStack_ s))) s).
Proof.
  revert s. induction j as [|j IH]; intros s Hst Hnd Hj.
  { simpl. munfold. by destruct s. }
  destruct (lookup_lt_is_Some_2 (taskStack_ s) j) as [o Ho]; [lia|].
  pose proof (Forall_lookup_1 _ _ _ _ Hst Ho) as Hio.
  destruct o as [r|r]; [|done]. simpl in Hio.
  destruct (lookup_lt_is_Some_2 (heap s) r) as [t Ht]; [done|].
  pose proof (Forall_lookup_1 _ _ _ _ Hnd Ht) as Hndt. simpl in Hndt.
  cbn [unschedule_tasks].
  rewrite (bind_Normal _ _ _ _ _ (task_at_Normal _ _ _ _ Ho Ht)).
  cbn [fst snd]. rewrite unschedule_scan_filter by done.
  set (s1 := set_heap (alter (remove_pair f c) r (heap s)) s).
  assert (Forall (is_task (heap s1)) (taskStack_ s1)) as Hst1.
  { simpl. eapply Forall_impl; [done|].
    intros [r'|r']; simpl; [by rewrite length_alter|done]. }
  rewrite (bind_Normal _ _ s tt s1).
  2:{ unfold update_task, modify, s1. do 2 f_equal.
      apply list_alter_ext; [|done]. intros t' Ht'. by simplify_eq. }
  rewrite (bind_Normal _ _ s1 tt s1) by by apply modify_remove_array.
  rewrite IH; [|done| |simpl; lia].
  - f_equal. unfold s1, set_heap. simpl. f_equal.
    by rewrite (take_S_r _ _ _ Ho), foldr_app.
  - simpl. apply Forall_alter; [done|].
    intros t' Ht'. simplify_eq. simpl. by apply NoDup_refs_filter.
Qed.

Lemma wf_stack s : wf s → Forall (is_task (heap s)) (taskStack_ s).
Proof. by intros (?&?&?&?&?). Qed.
Lemma wf_default s : wf s → taskStack_ s !! 0 = Some (TaskObj 0).
Proof. by intros (?&?&?&?&?). Qed.
Lemma wf_NoDup s :
  wf s → Forall (λ t, NoDup (e_ref <$> functionStack_ t)) (heap s).
Proof. by intros (?&?&?&?&?). Qed.
Lemma wf_fresh s :
  wf s →
  Forall (λ t, Forall (λ e, e_ref e < next_entry s) (functionStack_ t))
    (heap s).
Proof. by intros (?&?&?&?&?). Qed.
Lemma wf_listed s : wf s → Forall (listed_at s) (seq 0 (length (heap s))).
Proof. by intros (?&?&?&?&?). Qed.

Lemma wf_lookup_default s : wf s → is_Some (heap s !! 0).
Proof.
  intros Hwf. apply lookup_lt_is_Some.
  pose proof (Forall_lookup_1 _ _ _ _ (wf_stack s Hwf) (wf_default s Hwf)).
  done.
Qed.

Lemma remove_pair_idemp f c t :
  remove_pair f c (remove_pair f c t) = remove_pair f c t.
Proof.
  unfold remove_pair, set_functionStack_. simpl. f_equal.
  apply list_filter_filter_l. done.
Qed.

Lemma remove_pair_nil f c t :
  functionStack_ t = [] → remove_pair f c t = t.
Proof. destruct t. simpl. intros ->. done. Qed.

Lemma unschedule_spec f c (s : Scheduler) :
  wf s → unschedule f c s = Normal tt (unscheduled f c s).
Proof.
  intros Hwf. unfold unschedule.
  rewrite (bind_Normal _ _ s (length (taskStack_ s)) s) by done.
  erewrite bind_Normal;
    [|apply unschedule_tasks_foldr; eauto using wf_stack, wf_NoDup].
  rewrite take_ge by done.
  rewrite foldr_listed_fmap;
    eauto using wf_listed, remove_pair_idemp, remove_pair_nil.
  set (s1 := set_heap (remove_pair f c <$> heap s) s).
  destruct (wf_lookup_default s Hwf) as [t0 Ht0].
  assert (heap s1 !! 0 = Some (remove_pair f c t0)) as Hh.
  { simpl. by rewrite list_lookup_fmap, Ht0. }
  assert (taskStack_ s1 !! 0 = Some (TaskObj 0)) as Hs by (simpl; by apply wf_default).
  unfold unscheduled, stops. fold s1. rewrite Hh.
  rewrite (bind_Normal _ _ s1 (length (taskStack_ s1)) s1) by done.
  destruct (length (taskStack_ s1) =? 1); [|done].
  rewrite (bind_Normal _ _ _ _ _ (task_at_Normal _ _ _ _ Hs Hh)).
  cbn [fst snd andb].
  destruct (length (functionStack_ (remove_pair f c t0)) =? 0); [|done].
  unfold disable_. munfold. by destruct (active_ s).
Qed.

(** ** activate_, disable_ and schedule as state transformers *)

Lemma activate__spec now s : activate_ now s = Normal tt (activated now s).
Proof.
  unfold activate_, activated, armed. munfold.
  destruct (active_ s); [done|]. by destruct USE_ANIMATION_FRAME as [[]|].
Qed.

Lemma disable__spec s : disable_ s = Normal tt (disabled s).
Proof. unfold disable_, disabled. munfold. by destruct (active_ s). Qed.

Lemma activated_active now s : active_ (activated now s) = true.
Proof.
  unfold activated, armed. destruct (active_ s) eqn:Ha; [done|].
  by destruct USE_ANIMATION_FRAME as [[]|].
Qed.

Lemma activated_heap now s : heap (activated now s) = heap s.
Proof.
  unfold activated, armed. destruct (active_ s); [done|].
  by destruct USE_ANIMATION_FRAME as [[]|].
Qed.

Lemma activated_taskStack_ now s :
  taskStack_ (activated now s) = taskStack_ s.
Proof.
  unfold activated, armed. destruct (active_ s); [done|].
  by destruct USE_ANIMATION_FRAME as [[]|].
Qed.

Lemma activated_next_entry now s :
  next_entry (activated now s) = next_entry s.
Proof.
  unfold activated, armed. destruct (active_ s); [done|].
  by destruct USE_ANIMATION_FRAME as [[]|].
Qed.

Lemma activated_log now s : log (activated now s) = log s.
Proof.
  unfold activated, armed. destruct (active_ s); [done|].
  by destruct USE_ANIMATION_FRAME as [[]|].
Qed.

(** [wf] looks at the store, the stack and the allocator only. *)
Lemma wf_congr s s' :
  heap s' = heap s → taskStack_ s' = taskStack_ s →
  next_entry s' = next_entry s → wf s → wf s'.
Proof.
  unfold wf, listed_at. intros -> -> ->. done.
Qed.

Lemma fresh_not_in_refs (s : Scheduler) (r : ref) (t : Task) :
  wf s → heap s !! r = Some t → next_entry s ∉ e_ref <$> functionStack_ t.
Proof.
  intros Hwf Ht Hin. apply list_elem_of_fmap in Hin as (e & He & Hin).
  pose proof (Forall_lookup_1 _ _ _ _ (wf_fresh s Hwf) Ht) as Hf.
  simpl in Hf. rewrite Forall_forall in Hf. specialize (Hf e Hin). lia.
Qed.

Lemma schedule_spec now f c (opt_task : option ref) (s : Scheduler) :
  wf s → target opt_task < length (heap s) →
  schedule now f c opt_task s
  = Normal tt (scheduled now f c (target opt_task) s).
Proof.
  intros Hwf Hr. set (r := target opt_task) in *.
  destruct (lookup_lt_is_Some_2 (heap s) r) as [t Ht]; [done|].
  unfold schedule.
  rewrite (bind_Normal _ _ s (Some (TaskObj r)) s).
  2:{ destruct opt_task; [done|]. unfold gets. by rewrite wf_default. }
  rewrite (bind_Normal _ _ s t s) by (unfold deref; by rewrite Ht).
  munfold. rewrite (insert_fresh (functionStack_ t)).
  2:{ simpl. by eapply fresh_not_in_refs. }
  assert (alter (set_functionStack_
                   (functionStack_ t ++ [Entry (next_entry s) true f c]))
            r (heap s)
          = alter (push_entry (Entry (next_entry s) true f c)) r (heap s))
    as ->.
  { apply list_alter_ext; [|done]. intros t' Ht'. by simplify_eq. }
  unfold scheduled, activated. simpl.
  destruct (active_ s) eqn:Ha; simpl; [done|].
  rewrite activate__spec. unfold activated. simpl. by rewrite Ha.
Qed.

(** ** Preservation of well-formedness *)

Lemma wf_shrink (s s' : Scheduler) :
  wf s → taskStack_ s' = taskStack_ s → next_entry s' = next_entry s →
  Forall2 shrinks (heap s) (heap s') → wf s'.
Proof.
  intros (Hst & Hd & Hnd & Hfr & Hl) Hs Hn Hh.
  pose proof (Forall2_length _ _ _ Hh) as Hlen.
  unfold wf. rewrite Hs, Hn, <- Hlen. repeat split.
  - eapply Forall_impl; [done|]. intros [r|r]; simpl; [lia|done].
  - done.
  - apply Forall_lookup_2. intros r t' Ht'.
    destruct (Forall2_lookup_r _ _ _ _ _ Hh Ht') as (t & Ht & Hsub).
    eapply sublist_NoDup; [|exact Hsub].
    by apply (Forall_lookup_1 _ _ _ _ Hnd Ht).
  - apply Forall_lookup_2. intros r t' Ht'.
    destruct (Forall2_lookup_r _ _ _ _ _ Hh Ht') as (t & Ht & Hsub).
    pose proof (Forall_lookup_1 _ _ _ _ Hfr Ht) as Hf. simpl in Hf.
    apply (Forall_fmap e_ref (λ x, x < next_entry s)).
    apply (Forall_fmap e_ref (λ x, x < next_entry s)) in Hf.
    rewrite Forall_forall in *. intros x Hx. apply Hf.
    by eapply elem_of_sublist.
  - rewrite Forall_seq in *. intros r Hr.
    destruct (Hl r Hr) as [Hin|Hnil]; unfold listed_at.
    + left. by rewrite Hs.
    + right. destruct (heap s' !! r) as [t'|] eqn:Ht'; [|done].
      destruct (Forall2_lookup_r _ _ _ _ _ Hh Ht') as (t & Ht & Hsub).
      rewrite Ht in Hnil. unfold shrinks in Hsub. rewrite Hnil in Hsub.
      apply sublist_nil_r in Hsub. by apply fmap_nil_inv in Hsub.
Qed.

Lemma shrinks_refl (h : list Task) : Forall2 shrinks h h.
Proof.
  apply Forall_Forall2_diag, Forall_forall. intros t _.
  unfold shrinks. reflexivity.
Qed.

Lemma wf_alter (g : Task → Task) (r : ref) (s : Scheduler) :
  (∀ t, shrinks t (g t)) → wf s → wf (set_heap (alter g r (heap s)) s).
Proof.
  intros Hg Hwf. eapply wf_shrink; [done..|]. simpl.
  apply Forall2_alter_r; [apply shrinks_refl|]. intros t t' _ _ Ht.
  unfold shrinks in *. by etrans; [apply Hg|].
Qed.

Lemma wf_fmap (g : Task → Task) (s : Scheduler) :
  (∀ t, shrinks t (g t)) → wf s → wf (set_heap (g <$> heap s) s).
Proof.
  intros Hg Hwf. eapply wf_shrink; [done..|]. simpl.
  apply Forall2_fmap_r, Forall_Forall2_diag, Forall_forall. intros t _.
  apply Hg.
Qed.

Lemma shrinks_remove_pair f c t : shrinks t (remove_pair f c t).
Proof. unfold shrinks. simpl. apply fmap_sublist, sublist_filter. Qed.

Lemma shrinks_set_delta d t : shrinks t (set_delta d t).
Proof. unfold shrinks. reflexivity. Qed.

Lemma shrinks_set_limit l t : shrinks t (set_limit l t).
Proof. unfold shrinks. reflexivity. Qed.

Lemma wf_unscheduled f c s : wf s → wf (unscheduled f c s).
Proof.
  intros Hwf. unfold unscheduled.
  pose proof (wf_fmap _ s (shrinks_remove_pair f c) Hwf) as Hwf1.
  destruct (stops _); [|done]. by eapply wf_congr; [..|exact Hwf1].
Qed.

Lemma wf_new_Task maxdelta opt_limit s :
  wf s → wf (set_heap (heap s ++ [Task_new maxdelta opt_limit]) s).
Proof.
  intros (Hst & Hd & Hnd & Hfr & Hl). unfold wf. simpl. repeat split.
  - eapply Forall_impl; [done|]. intros [r|r]; simpl; [|done].
    rewrite length_app. lia.
  - done.
  - apply Forall_app. split; [done|]. repeat constructor.
  - apply Forall_app. split; [done|]. repeat constructor.
  - rewrite Forall_seq in *. intros r Hr. rewrite length_app in Hr.
    simpl in Hr. unfold listed_at in *. simpl.
    destruct (decide (r < length (heap s))) as [Hlt|Hge].
    + rewrite lookup_app_l by done. apply Hl. lia.
    + right. assert (r = length (heap s)) as -> by lia.
      by rewrite list_lookup_middle.
Qed.

Lemma wf_scheduled now f c (r : ref) (s : Scheduler) :
  wf s → r < length (heap s) → wf (scheduled now f c r s).
Proof.
  intros Hwf Hr. unfold scheduled.
  eapply wf_congr;
    [apply activated_heap|apply activated_taskStack_
    |apply activated_next_entry|].
  destruct Hwf as (Hst & Hd & Hnd & Hfr & Hl). unfold wf. simpl.
  assert (∀ o, o ∈ taskStack_ s →
    o ∈ goog_array_insert same_object (taskStack_ s) (TaskObj r)) as Hsub.
  { intros o Ho. unfold goog_array_insert.
    destruct (goog_array_contains _ _ _); [done|].
    apply elem_of_app. by left. }
  repeat split.
  - unfold goog_array_insert. destruct (goog_array_contains _ _ _).
    + eapply Forall_impl; [done|]. intros [r'|r']; simpl; [|done].
      by rewrite length_alter.
    + apply Forall_app. split.
      * eapply Forall_impl; [done|]. intros [r'|r']; simpl; [|done].
        by rewrite length_alter.
      * repeat constructor. simpl. by rewrite length_alter.
  - unfold goog_array_insert. destruct (goog_array_contains _ _ _); [done|].
    rewrite lookup_app_l; [done|]. by eapply lookup_lt_Some.
  - apply Forall_alter; [done|]. intros t Ht Hndt. simpl.
    rewrite fmap_app. simpl. apply NoDup_app. split_and!.
    + done.
    + intros x Hx ->%list_elem_of_singleton.
      apply list_elem_of_fmap in Hx as (e & He & Hin).
      pose proof (Forall_lookup_1 _ _ _ _ Hfr Ht) as Hf. simpl in Hf.
      rewrite Forall_forall in Hf. specialize (Hf e Hin). lia.
    + apply NoDup_singleton.
  - apply Forall_lookup_2. intros r' t' Ht'.
    rewrite list_lookup_alter in Ht'.
    assert (∀ t, heap s !! r' = Some t →
      Forall (λ e, e_ref e < S (next_entry s)) (functionStack_ t)) as Hlt.
    { intros t Ht. pose proof (Forall_lookup_1 _ _ _ _ Hfr Ht) as Hf.
      eapply Forall_impl; [exact Hf|]. simpl. lia. }
    case_decide; subst.
    + destruct (heap s !! r') as [t|] eqn:Ht; simplify_eq/=.
      apply Forall_app. split; [by apply Hlt|]. repeat constructor.
    + by apply Hlt.
  - rewrite length_alter. rewrite Forall_seq in *. intros r' Hr'.
    unfold listed_at in *. simpl.
    destruct (decide (r' = r)) as [->|Hne].
    + left. destruct (decide (TaskObj r ∈ taskStack_ s)) as [Hi|Hni].
      * by rewrite insert_present.
      * rewrite insert_absent by done.
        apply elem_of_app. right. by apply list_elem_of_singleton.
    + rewrite list_lookup_alter_ne by done.
      destruct (Hl r' Hr') as [Hin|Hnil]; [left; by apply Hsub|by right].
Qed.

(** ** One step of a task whose callbacks leave the scheduler alone *)

Lemma calls_of_snoc fs e d :
  calls_of (fs ++ [e]) d
  = (if fires e then [call_of d e] else []) ++ calls_of fs d.
Proof.
  unfold calls_of. rewrite filter_app, filter_cons, filter_nil.
  destruct (fires e) eqn:He.
  - rewrite decide_True by done.
    by rewrite reverse_app.
  - rewrite decide_False by (by intros []).
    by rewrite app_nil_r.
Qed.

Lemma step_loop_quiet now (r : ref) (d : Z) (t : Task) (i : nat)
    (f0 : option entry) (s : Scheduler) :
  heap s !! r = Some t → i ≤ length (functionStack_ t) →
  quiet (take i (functionStack_ t)) d →
  step_loop now r d i f0 s
  = Normal (match i with 0 => f0 | S _ => functionStack_ t !! 0 end)
      (set_log (log s ++ calls_of (take i (functionStack_ t)) d) s).
Proof.
  revert f0 s. induction i as [|i IH]; intros f0 s Ht Hi Hq.
  { simpl. munfold. rewrite app_nil_r. by destruct s. }
  destruct (lookup_lt_is_Some_2 (functionStack_ t) i) as [e He]; [lia|].
  cbn [step_loop].
  rewrite (bind_Normal _ _ s t s) by (unfold deref; by rewrite Ht).
  rewrite He. rewrite (take_S_r _ _ _ He) in *.
  rewrite calls_of_snoc.
  assert (quiet (take i (functionStack_ t)) d) as Hq'.
  { intros e' He'. apply Hq, elem_of_app. by left. }
  destruct (fires e) eqn:Hf.
  - unfold fires in Hf. rewrite Hf.
    set (s1 := set_log (log s ++ [call_of d e]) s).
    rewrite (bind_Normal _ _ s tt s1).
    2:{ unfold invoke. rewrite (Hq e).
        - by munfold.
        - apply elem_of_app. right. by apply list_elem_of_singleton.
        - unfold fires. by rewrite Hf. }
    rewrite IH by (done || lia). unfold s1. simpl.
    rewrite <- (assoc_L (++)). f_equal.
    destruct i; [|done]. done.
  - unfold fires in Hf. rewrite Hf.
    rewrite (bind_Normal _ _ s tt s) by done.
    rewrite IH by (done || lia). simpl. f_equal.
    destruct i; [|done]. done.
Qed.

Lemma wf_set_log l s : wf s → wf (set_log l s).
Proof. by apply wf_congr. Qed.

Lemma step__quiet now (r : ref) (dt : Z) (t : Task) (s : Scheduler) :
  wf s → heap s !! r = Some t →
  quiet (functionStack_ t) (maxdelta t + dt - delta t) →
  step_ now r dt s = Normal tt (stepped r dt s).
Proof.
  intros Hwf Ht Hq. unfold step_, stepped. rewrite Ht.
  rewrite (bind_Normal _ _ s t s) by (unfold deref; by rewrite Ht).
  destruct (length (functionStack_ t) =? 0) eqn:Hlen; [done|].
  apply Nat.eqb_neq in Hlen.
  destruct (delta t >? dt)%Z eqn:Hd; [done|].
  set (d' := (if (maxdelta t - (dt - delta t) <? 0)%Z then 0%Z
              else (maxdelta t - (dt - delta t))%Z)).
  assert (d' = Z.max 0 (maxdelta t - (dt - delta t))) as Hd'.
  { unfold d'. destruct (Z.ltb_spec (maxdelta t - (dt - delta t)) 0); lia. }
  set (s0 := set_heap (alter (set_delta d') r (heap s)) s).
  rewrite (bind_Normal _ _ s tt s0) by done.
  assert (heap s0 !! r = Some (set_delta d' t)) as Ht0.
  { simpl. by rewrite list_lookup_alter_eq, Ht. }
  erewrite bind_Normal.
  2:{ apply (step_loop_quiet now r _ (set_delta d' t)); [exact Ht0|done|].
      simpl. by rewrite take_ge. }
  simpl functionStack_. rewrite take_ge by done.
  set (s1 := set_log _ s0).
  rewrite (bind_Normal _ _ s1 (set_delta d' t) s1).
  2:{ unfold deref. change (heap s1) with (heap s0). by rewrite Ht0. }
  simpl limit.
  destruct (length (functionStack_ t)) as [|n] eqn:Hn; [done|].
  rewrite <- Hd'. fold s0.
  change (limit (set_delta d' t)) with (limit t).
  change (log s) with (log s0). fold s1.
  destruct (limit t =? -1)%Z; [done|]. cbn [negb].
  set (s2 := set_heap (alter (set_limit (limit t - 1)) r (heap s1)) s1).
  rewrite (bind_Normal _ _ s1 tt s2) by done.
  destruct (limit t - 1 =? 0)%Z; [|done].
  unfold torn_down.
  destruct (functionStack_ t !! 0) as [e|] eqn:He.
  - apply unschedule_spec. unfold s2.
    apply wf_alter; [apply shrinks_set_limit|]. unfold s1.
    apply wf_set_log. unfold s0.
    by apply wf_alter; [apply shrinks_set_delta|].
  - apply lookup_ge_None in He. lia.
Qed.

Lemma unscheduled_heap f c s :
  heap (unscheduled f c s) = remove_pair f c <$> heap s.
Proof. unfold unscheduled. by destruct (stops _). Qed.

Lemma unscheduled_taskStack_ f c s :
  taskStack_ (unscheduled f c s) = taskStack_ s.
Proof. unfold unscheduled. by destruct (stops _). Qed.

Lemma unscheduled_log f c s : log (unscheduled f c s) = log s.
Proof. unfold unscheduled. by destruct (stops _). Qed.

Lemma unscheduled_next_entry f c s :
  next_entry (unscheduled f c s) = next_entry s.
Proof. unfold unscheduled. by destruct (stops _). Qed.

Lemma torn_down_taskStack_ fs s : taskStack_ (torn_down fs s) = taskStack_ s.
Proof.
  unfold torn_down. destruct (fs !! 0); [|done].
  apply unscheduled_taskStack_.
Qed.

Lemma torn_down_log fs s : log (torn_down fs s) = log s.
Proof.
  unfold torn_down. destruct (fs !! 0); [|done]. apply unscheduled_log.
Qed.

Lemma torn_down_lookup fs s (r : ref) :
  ∃ g, (∀ t, maxdelta (g t) = maxdelta t ∧ delta (g t) = delta t
             ∧ limit (g t) = limit t ∧ shrinks t (g t))
       ∧ heap (torn_down fs s) = g <$> heap s.
Proof.
  unfold torn_down. destruct (fs !! 0) as [e|].
  - exists (remove_pair (e_fn e) (e_ctx e)). split.
    + intros t. repeat split. apply shrinks_remove_pair.
    + apply unscheduled_heap.
  - exists id. split; [|by rewrite list_fmap_id].
    intros t. repeat split. unfold shrinks. reflexivity.
Qed.

Lemma wf_torn_down fs s : wf s → wf (torn_down fs s).
Proof.
  unfold torn_down. destruct (fs !! 0); [|done]. apply wf_unscheduled.
Qed.

Lemma wf_stepped (r : ref) (dt : Z) (s : Scheduler) : wf s → wf (stepped r dt s).
Proof.
  intros Hwf. unfold stepped. destruct (heap s !! r) as [t|]; [|done].
  destruct (_ =? 0); [done|].
  destruct (_ >? _)%Z; [by apply wf_alter; [apply shrinks_set_delta|]|].
  assert (wf (set_log
    (log s ++ calls_of (functionStack_ t) (maxdelta t + dt - delta t))
    (set_heap
       (alter (set_delta (0 `max` (maxdelta t - (dt - delta t)))) r (heap s))
       s))) as Hwf1.
  { apply wf_set_log. by apply wf_alter; [apply shrinks_set_delta|]. }
  cbv zeta. destruct (_ =? -1)%Z; [done|].
  destruct (_ =? 0)%Z.
  - apply wf_torn_down. by apply wf_alter; [apply shrinks_set_limit|].
  - by apply wf_alter; [apply shrinks_set_limit|].
Qed.

Lemma stepped_taskStack_ (r : ref) (dt : Z) (s : Scheduler) :
  taskStack_ (stepped r dt s) = taskStack_ s.
Proof.
  unfold stepped. destruct (heap s !! r) as [t|]; [|done].
  destruct (_ =? 0); [done|]. destruct (_ >? _)%Z; [done|].
  cbv zeta. destruct (_ =? -1)%Z; [done|].
  destruct (_ =? 0)%Z; [|done]. by rewrite torn_down_taskStack_.
Qed.

Lemma stepped_next_entry (r : ref) (dt : Z) (s : Scheduler) :
  next_entry (stepped r dt s) = next_entry s.
Proof.
  unfold stepped. destruct (heap s !! r) as [t|]; [|done].
  destruct (_ =? 0); [done|]. destruct (_ >? _)%Z; [done|].
  cbv zeta. destruct (_ =? -1)%Z; [done|].
  destruct (_ =? 0)%Z; [|done].
  unfold torn_down. destruct (_ !! 0); [|done].
  by rewrite unscheduled_next_entry.
Qed.

(** A firing step: what is logged and where the accumulator lands. *)
Lemma stepped_fires (r : ref) (dt : Z) (t : Task) (s : Scheduler) :
  heap s !! r = Some t → functionStack_ t ≠ [] → (delta t ≤ dt)%Z →
  log (stepped r dt s)
  = log s ++ calls_of (functionStack_ t) (maxdelta t + dt - delta t)
  ∧ delta <$> heap (stepped r dt s) !! r
    = Some (Z.max 0 (maxdelta t - (dt - delta t)))
  ∧ maxdelta <$> heap (stepped r dt s) !! r = Some (maxdelta t).
Proof.
  intros Ht Hne Hd. unfold stepped. rewrite Ht.
  destruct (length (functionStack_ t) =? 0) eqn:Hlen.
  { apply Nat.eqb_eq, nil_length_inv in Hlen. done. }
  destruct (Z.gtb_spec (delta t) dt) as [|_]; [lia|].
  cbv zeta. destruct (_ =? -1)%Z.
  { simpl. rewrite list_lookup_alter_eq, Ht. done. }
  destruct (_ =? 0)%Z.
  - rewrite torn_down_log.
    match goal with
    | |- context [torn_down ?fs ?s'] =>
        destruct (torn_down_lookup fs s' r) as (g & Hg & ->)
    end.
    simpl. rewrite list_lookup_fmap, !list_lookup_alter_eq, Ht. simpl.
    destruct (Hg (set_limit (limit t - 1)
      (set_delta (0 `max` (maxdelta t - (dt - delta t))) t)))
      as (-> & -> & _). done.
  - simpl. rewrite !list_lookup_alter_eq, Ht. done.
Qed.


(** ** Activation and the first tick *)

Lemma stepTimer_delta_after (now curTime : Z) (s : Scheduler) :
  lastRunTime_ s = now → (now ≤ curTime)%Z →
  stepTimer_delta curTime s = (curTime - now)%Z.
Proof.
  intros <- Hle. unfold stepTimer_delta.
  destruct (Z.ltb_spec (curTime - lastRunTime_ s) 0); [lia|done].
Qed.

Lemma activated_lastRunTime_ now s :
  active_ s = false → lastRunTime_ (activated now s) = now.
Proof.
  intros Ha. unfold activated, armed. rewrite Ha.
  by destruct USE_ANIMATION_FRAME as [[]|].
Qed.

Lemma setDisplayRate_spec now (value : Q) (s : Scheduler) :
  setDisplayRate now value s
  = Normal tt (if active_ s
               then activated now (disabled (set_displayRate_ value s))
               else set_displayRate_ value s).
Proof.
  unfold setDisplayRate.
  rewrite (bind_Normal _ _ s tt (set_displayRate_ value s)) by done.
  rewrite (bind_Normal _ _ _ (active_ s) (set_displayRate_ value s)) by done.
  destruct (active_ s) eqn:Ha; [|done].
  rewrite (bind_Normal _ _ _ _ _ (disable__spec _)).
  apply activate__spec.
Qed.

Lemma scheduled_lastRunTime_ now f c (r : ref) (s : Scheduler) :
  active_ s = false → lastRunTime_ (scheduled now f c r s) = now.
Proof. intros Ha. unfold scheduled. by apply activated_lastRunTime_. Qed.

Lemma stepTimer__after (now curTime : Z) (s : Scheduler) :
  lastRunTime_ s = now →
  stepTimer_ curTime s
  = (dispatch_ curTime
       (if (curTime - now <? 0)%Z then 1 else curTime - now)%Z
     ≫= λ _, modify (set_lastRunTime_ curTime)) s.
Proof. by intros <-. Qed.

Lemma animationFrameHandler__after (now n time : Z) (s : Scheduler) :
  lastRunTime_ s = now →
  animationFrameHandler_ n time s
  = (dispatch_ n (time - now)
     ≫= λ _, modify (set_lastRunTime_ time)
     ≫= λ _, webkitRequestAnimationFrame) s.
Proof. by intros <-. Qed.

Lemma beforePaintHandler__after (now n timeStamp : Z) (s : Scheduler) :
  lastRunTime_ s = now →
  beforePaintHandler_ n timeStamp s
  = (dispatch_ n (timeStamp - now)
     ≫= λ _, modify (set_lastRunTime_ timeStamp)
     ≫= λ _, mozRequestAnimationFrame) s.
Proof. by intros <-. Qed.

(** C10, amended. A (re)activation of the clock source made outside a
    tick handler stores the current time in [lastRunTime_]: a [schedule]
    on an idle scheduler (well-formed, the task being one of the heap),
    and a [setDisplayRate] on a running one (which stops and restarts
    it).  The first tick entered after it dispatches with the time since
    that start: [stepTimer_] at [curTime] with [curTime - now], or with 1
    when that is negative, the two frame handlers with their time stamp
    less [now]; each then stores its own time and, for the frame handlers,
    asks the window for the next frame. *)
Theorem activation_resets_lastRunTime now f c (opt_task : option ref)
    (value : Q) (s : Scheduler) :
  (active_ s = false → wf s → target opt_task < length (heap s) →
   ∃ s', schedule now f c opt_task s = Normal tt s'
     ∧ active_ s' = true ∧ lastRunTime_ s' = now
     ∧ (∀ curTime,
         stepTimer_ curTime s'
         = (dispatch_ curTime
              (if (curTime - now <? 0)%Z then 1 else curTime - now)%Z
            ≫= λ _, modify (set_lastRunTime_ curTime)) s'
         ∧ ((now ≤ curTime)%Z →
            stepTimer_delta curTime s' = (curTime - now)%Z))
     ∧ (∀ n time,
         animationFrameHandler_ n time s'
         = (dispatch_ n (time - now)
            ≫= λ _, modify (set_lastRunTime_ time)
            ≫= λ _, webkitRequestAnimationFrame) s'
         ∧ beforePaintHandler_ n time s'
           = (dispatch_ n (time - now)
              ≫= λ _, modify (set_lastRunTime_ time)
              ≫= λ _, mozRequestAnimationFrame) s'))
  ∧ (active_ s = true →
     ∃ s', setDisplayRate now value s = Normal tt s'
       ∧ active_ s' = true ∧ lastRunTime_ s' = now
       ∧ displayRate_ s' = value
       ∧ (∀ curTime,
           stepTimer_ curTime s'
           = (dispatch_ curTime
                (if (curTime - now <? 0)%Z then 1 else curTime - now)%Z
              ≫= λ _, modify (set_lastRunTime_ curTime)) s'
           ∧ ((now ≤ curTime)%Z →
              stepTimer_delta curTime s' = (curTime - now)%Z))
       ∧ (∀ n time,
           animationFrameHandler_ n time s'
           = (dispatch_ n (time - now)
              ≫= λ _, modify (set_lastRunTime_ time)
              ≫= λ _, webkitRequestAnimationFrame) s'
           ∧ beforePaintHandler_ n time s'
             = (dispatch_ n (time - now)
                ≫= λ _, modify (set_lastRunTime_ time)
                ≫= λ _, mozRequestAnimationFrame) s')).
Proof.
  split.
  - intros Ha Hwf Hr. eexists. split; [by apply schedule_spec|].
    assert (lastRunTime_ (scheduled now f c (target opt_task) s) = now) as Hl
      by by apply scheduled_lastRunTime_.
    split_and!; [apply activated_active|done| |].
    + intros curTime. split.
      * by apply stepTimer__after.
      * intros Hc. by apply stepTimer_delta_after.
    + intros n time. split.
      * by apply animationFrameHandler__after.
      * by apply beforePaintHandler__after.
  - intros Ha. eexists. split; [apply setDisplayRate_spec|]. rewrite Ha.
    assert (lastRunTime_ (activated now (disabled (set_displayRate_ value s)))
            = now) as Hl.
    { apply activated_lastRunTime_. unfold disabled. simpl. by rewrite Ha. }
    split_and!; [apply activated_active|done| | |].
    + unfold activated, armed, disabled. simpl. rewrite Ha. simpl.
      by destruct USE_ANIMATION_FRAME as [[]|].
    + intros curTime. split.
      * by apply stepTimer__after.
      * intros Hc. by apply stepTimer_delta_after.
    + intros n time. split.
      * by apply animationFrameHandler__after.
      * by apply beforePaintHandler__after.
Qed.

(** The delta [stepTimer_] dispatches is never negative: a negative
    measurement is replaced by 1, zero and positive ones are kept. *)
Lemma stepTimer_delta_cases (curTime : Z) (s : Scheduler) :
  ((curTime - lastRunTime_ s < 0)%Z ∧ stepTimer_delta curTime s = 1%Z)
  ∨ ((0 ≤ curTime - lastRunTime_ s)%Z
     ∧ stepTimer_delta curTime s = (curTime - lastRunTime_ s)%Z).
Proof.
  unfold stepTimer_delta.
  destruct (Z.ltb_spec (curTime - lastRunTime_ s) 0); [left|right]; done.
Qed.

(** ** dispatch_ when no callback re-enters the scheduler *)

Lemma inert_quiet fs d : inert → quiet fs d.
Proof. intros Hi e _ _. apply Hi. Qed.

Lemma step_object_taskStack_ dt o s :
  taskStack_ (step_object dt o s) = taskStack_ s.
Proof. destruct o; [apply stepped_taskStack_|done]. Qed.

Lemma wf_step_object dt o s : wf s → wf (step_object dt o s).
Proof. destruct o; [apply wf_stepped|done]. Qed.

Lemma foldr_step_taskStack_ dt (l : list object) s :
  taskStack_ (foldr (step_object dt) s l) = taskStack_ s.
Proof.
  induction l as [|o l IH]; [done|]. simpl.
  by rewrite step_object_taskStack_.
Qed.

Lemma wf_foldr_step dt (l : list object) s :
  wf s → wf (foldr (step_object dt) s l).
Proof.
  intros Hwf. induction l as [|o l IH]; [done|]. simpl.
  by apply wf_step_object.
Qed.

Lemma dispatch_loop_inert now dt (i : nat) (s : Scheduler) :
  inert → wf s → i ≤ length (taskStack_ s) →
  dispatch_loop now dt i s
  = Normal tt (foldr (step_object dt) s (take i (taskStack_ s))).
Proof.
  intros Hin. revert s. induction i as [|i IH]; intros s Hwf Hi; [done|].
  destruct (lookup_lt_is_Some_2 (taskStack_ s) i) as [o Ho]; [lia|].
  pose proof (Forall_lookup_1 _ _ _ _ (wf_stack s Hwf) Ho) as Hio.
  destruct o as [r|r]; [|done]. simpl in Hio.
  destruct (lookup_lt_is_Some_2 (heap s) r) as [t Ht]; [done|].
  cbn [dispatch_loop].
  rewrite (bind_Normal _ _ s (Some (TaskObj r)) s)
    by (unfold gets; by rewrite Ho).
  rewrite (bind_Normal _ _ s tt (stepped r dt s)).
  2:{ apply (step__quiet now r dt t); [done..|]. by apply inert_quiet. }
  rewrite IH; [|by apply wf_stepped|rewrite stepped_taskStack_; lia].
  rewrite stepped_taskStack_, (take_S_r _ _ _ Ho), foldr_app. done.
Qed.

Lemma dispatch__inert now dt (s : Scheduler) :
  inert → wf s → dispatch_ now dt s = Normal tt (dispatched dt s).
Proof.
  intros Hin Hwf. unfold dispatch_, dispatched.
  rewrite (bind_Normal _ _ s (length (taskStack_ s)) s) by done.
  rewrite dispatch_loop_inert by done. by rewrite take_ge.
Qed.

Lemma wf_dispatched dt s : wf s → wf (dispatched dt s).
Proof. apply wf_foldr_step. Qed.

Lemma dispatched_taskStack_ dt s :
  taskStack_ (dispatched dt s) = taskStack_ s.
Proof. apply foldr_step_taskStack_. Qed.

Lemma wf_ticked dts s : wf s → wf (ticked dts s).
Proof.
  revert s. induction dts as [|dt dts IH]; intros s Hwf; [done|].
  simpl. apply IH. by apply wf_dispatched.
Qed.

Lemma ticked_taskStack_ dts s : taskStack_ (ticked dts s) = taskStack_ s.
Proof.
  revert s. induction dts as [|dt dts IH]; intros s; [done|].
  simpl. by rewrite IH, dispatched_taskStack_.
Qed.

Lemma ticks_inert now dts (s : Scheduler) :
  inert → wf s → ticks now dts s = Normal tt (ticked dts s).
Proof.
  intros Hin. revert s. induction dts as [|dt dts IH]; intros s Hwf; [done|].
  cbn [ticks].
  rewrite (bind_Normal _ _ _ _ _ (dispatch__inert now dt s Hin Hwf)).
  apply IH. by apply wf_dispatched.
Qed.

Lemma ticked_app pre post s : ticked (pre ++ post) s = ticked post (ticked pre s).
Proof. unfold ticked. by rewrite foldl_app. Qed.

(** ** What one step does to the other tasks *)

Lemma stepped_shape (r : ref) (dt : Z) (s : Scheduler) :
  ∃ (H G : Task → Task) (L : list call),
    heap (stepped r dt s) = G <$> alter H r (heap s)
    ∧ log (stepped r dt s) = log s ++ L
    ∧ (∀ t, heap s !! r = Some t →
            functionStack_ (H t) = functionStack_ t
            ∧ maxdelta (H t) = maxdelta t
            ∧ (limit (H t) ≠ (-1)%Z → limit t ≠ (-1)%Z))
    ∧ (G = id
       ∨ ∃ t e, heap s !! r = Some t ∧ functionStack_ t !! 0 = Some e
                ∧ limit t ≠ (-1)%Z
                ∧ G = remove_pair (e_fn e) (e_ctx e))
    ∧ (∀ c, c ∈ L →
         ∃ t e, heap s !! r = Some t ∧ e ∈ functionStack_ t
                ∧ call_entry c = e_ref e).
Proof.
  assert (∀ h : list Task, h = id <$> alter id r h) as Hid.
  { intros h. by rewrite list_fmap_id, list_alter_id. }
  assert (∀ t fs d c, heap s !! r = Some t → fs = functionStack_ t →
            c ∈ calls_of fs d →
            ∃ t e, heap s !! r = Some t ∧ e ∈ functionStack_ t
                   ∧ call_entry c = e_ref e) as Hcalls.
  { intros t fs d c Ht -> Hc. unfold calls_of in Hc.
    apply list_elem_of_fmap in Hc as (e & -> & He).
    apply elem_of_reverse, list_elem_of_filter in He as [_ He].
    by exists t, e. }
  unfold stepped. destruct (heap s !! r) as [t|] eqn:Ht.
  2:{ exists id, id, []. rewrite app_nil_r.
      split_and!; [done..|by left|by intros c ?%elem_of_nil]. }
  destruct (_ =? 0).
  { exists id, id, []. rewrite app_nil_r.
    split_and!; [done..|by left|by intros c ?%elem_of_nil]. }
  destruct (_ >? _)%Z.
  { exists (set_delta (delta t - dt)), id, []. rewrite app_nil_r.
    split_and!; [by rewrite list_fmap_id|done..|by left
                |by intros c ?%elem_of_nil]. }
  cbv zeta. destruct (Z.eqb_spec (limit t) (-1)) as [Hl|Hl].
  { exists (set_delta (0 `max` (maxdelta t - (dt - delta t)))), id,
      (calls_of (functionStack_ t) (maxdelta t + dt - delta t)).
    split_and!; [by rewrite list_fmap_id|done..|by left|].
    intros c Hc. by eapply Hcalls. }
  destruct (_ =? 0)%Z.
  - unfold torn_down.
    destruct (functionStack_ t !! 0) as [e|] eqn:He.
    + exists (set_limit (limit t - 1)
               ∘ set_delta (0 `max` (maxdelta t - (dt - delta t)))),
        (remove_pair (e_fn e) (e_ctx e)),
        (calls_of (functionStack_ t) (maxdelta t + dt - delta t)).
      rewrite unscheduled_heap, unscheduled_log. simpl.
      rewrite list_alter_alter_eq.
      split_and!; [done|done| |right; by exists t, e|].
      * intros t' ?. simplify_eq. done.
      * intros c Hc. by eapply Hcalls.
    + exists (set_limit (limit t - 1)
               ∘ set_delta (0 `max` (maxdelta t - (dt - delta t)))),
        id, (calls_of (functionStack_ t) (maxdelta t + dt - delta t)).
      simpl. rewrite list_alter_alter_eq, list_fmap_id.
      split_and!; [done|done| |by left|].
      * intros t' ?. simplify_eq. done.
      * intros c Hc. by eapply Hcalls.
  - exists (set_limit (limit t - 1)
             ∘ set_delta (0 `max` (maxdelta t - (dt - delta t)))),
      id, (calls_of (functionStack_ t) (maxdelta t + dt - delta t)).
    simpl. rewrite list_alter_alter_eq, list_fmap_id.
    split_and!; [done|done| |by left|].
    + intros t' ?. simplify_eq. done.
    + intros c Hc. by eapply Hcalls.
Qed.

Lemma filter_none {A} (P : A → Prop) `{!∀ x, Decision (P x)} (l : list A) :
  (∀ x, x ∈ l → ¬ P x) → filter P l = [].
Proof.
  induction l as [|x l IH]; intros Hl; [done|].
  rewrite filter_cons_False by (apply Hl; left).
  apply IH. intros y Hy. apply Hl. by right.
Qed.

Lemma filter_all {A} (P : A → Prop) `{!∀ x, Decision (P x)} (l : list A) :
  (∀ x, x ∈ l → P x) → filter P l = l.
Proof.
  induction l as [|x l IH]; intros Hl; [done|].
  rewrite filter_cons_True by (apply Hl; left).
  f_equal. apply IH. intros y Hy. apply Hl. by right.
Qed.

Lemma Forall_sublist {A} (P : A → Prop) (l l' : list A) :
  Forall P l → l' `sublist_of` l → Forall P l'.
Proof.
  rewrite !Forall_forall. intros Hl Hsub x Hx.
  by eapply Hl, elem_of_sublist.
Qed.

Lemma set_functionStack__id t : set_functionStack_ (functionStack_ t) t = t.
Proof. by destruct t. Qed.

(** Removing another pair leaves the registrations of [(f, c)]. *)
Lemma remove_pair_other f c (e : entry) (t : Task) :
  keeps f c e → Forall (λ e', same_pair f c e' = true) (functionStack_ t) →
  remove_pair (e_fn e) (e_ctx e) t = t.
Proof.
  intros Hk Ht. unfold remove_pair. rewrite filter_all.
  - apply set_functionStack__id.
  - rewrite Forall_forall in Ht. intros e' He'. specialize (Ht e' He').
    unfold keeps, same_pair in *.
    apply andb_true_iff in Ht as [Hf Hc].
    apply bool_decide_eq_true_1 in Hf, Hc.
    apply andb_false_iff in Hk. apply andb_false_iff.
    destruct Hk as [Hk|Hk]; apply bool_decide_eq_false_1 in Hk;
      [left|right]; apply bool_decide_eq_false_2; congruence.
Qed.

Lemma stepped_other x f c (n r : ref) (dt : Z) (s : Scheduler) (Tn : Task) :
  apart x f c n s → r ≠ n → heap s !! n = Some Tn →
  Forall (λ e, same_pair f c e = true) (functionStack_ Tn) →
  apart x f c n (stepped r dt s)
  ∧ heap (stepped r dt s) !! n = Some Tn
  ∧ calls_to x (log (stepped r dt s)) = calls_to x (log s).
Proof.
  intros Hap Hne Hn HTn.
  destruct (stepped_shape r dt s) as (H & G & L & Hh & Hlog & HH & HG & HL).
  assert (∀ t, functionStack_ (G t) `sublist_of` functionStack_ t
               ∧ limit (G t) = limit t) as HGs.
  { intros t. destruct HG as [->|(t0 & e & _ & _ & _ & ->)]; [done|].
    split; [apply sublist_filter|done]. }
  split_and!.
  - intros r' t' Ht' Hne'. rewrite Hh, list_lookup_fmap in Ht'.
    destruct (heap s !! r') as [t0|] eqn:Ht0.
    2:{ destruct (decide (r = r')) as [->|Hrr].
        - by rewrite list_lookup_alter_eq, Ht0 in Ht'.
        - by rewrite list_lookup_alter_ne, Ht0 in Ht'. }
    destruct (Hap r' t0 Ht0 Hne') as [Hx Hk].
    assert (∃ t1, t' = G t1 ∧ functionStack_ t1 = functionStack_ t0
                  ∧ (limit t1 ≠ (-1)%Z → limit t0 ≠ (-1)%Z))
      as (t1 & -> & Hfs & Hlim).
    { destruct (decide (r = r')) as [->|Hrr].
      - rewrite list_lookup_alter_eq, Ht0 in Ht'. simplify_eq/=.
        exists (H t0). destruct (HH t0 Ht0) as (? & _ & ?). done.
      - rewrite list_lookup_alter_ne, Ht0 in Ht' by done. simplify_eq/=.
        by exists t0. }
    destruct (HGs t1) as [Hsub Hl]. rewrite Hl, <- Hfs in *. split.
    + eapply Forall_sublist; done.
    + intros Hl1. eapply Forall_sublist; [|done]. by apply Hk, Hlim.
  - rewrite Hh, list_lookup_fmap, list_lookup_alter_ne, Hn by done. simpl.
    f_equal. destruct HG as [->|(t0 & e & Ht0 & He & Hl & ->)]; [done|].
    apply (remove_pair_other f c); [|done].
    destruct (Hap r t0 Ht0 Hne) as [_ Hk]. specialize (Hk Hl).
    rewrite Forall_forall in Hk. apply Hk.
    by eapply list_elem_of_lookup_2.
  - unfold calls_to. rewrite Hlog, filter_app.
    rewrite (filter_none _ L); [by rewrite app_nil_r|].
    intros k Hk. destruct (HL k Hk) as (t0 & e & Ht0 & He & ->).
    destruct (Hap r t0 Ht0 Hne) as [Hx _].
    rewrite Forall_forall in Hx. by apply Hx.
Qed.

Lemma foldr_step_other x f c (n : ref) (dt : Z) (l : list object)
    (s : Scheduler) (Tn : Task) :
  TaskObj n ∉ l → apart x f c n s → heap s !! n = Some Tn →
  Forall (λ e, same_pair f c e = true) (functionStack_ Tn) →
  apart x f c n (foldr (step_object dt) s l)
  ∧ heap (foldr (step_object dt) s l) !! n = Some Tn
  ∧ calls_to x (log (foldr (step_object dt) s l)) = calls_to x (log s).
Proof.
  intros Hl Hap Hn HTn. induction l as [|o l IH]; [done|].
  apply not_elem_of_cons in Hl as [Ho Hl].
  destruct (IH Hl) as (Hap' & Hn' & Hc'). simpl.
  destruct o as [r|r]; [|done]. simpl.
  destruct (stepped_other x f c n r dt _ Tn Hap') as (? & ? & Hc'');
    [congruence|done|done|].
  split_and!; [done|done|]. by rewrite Hc''.
Qed.

(** Every task keeps or loses registrations in a step, and the log grows. *)
Lemma stepped_sublist (r r' : ref) (dt : Z) (s : Scheduler) (t' : Task) :
  heap (stepped r dt s) !! r' = Some t' →
  ∃ t, heap s !! r' = Some t
       ∧ functionStack_ t' `sublist_of` functionStack_ t.
Proof.
  destruct (stepped_shape r dt s) as (H & G & L & Hh & Hlog & HH & HG & HL).
  intros Ht'. rewrite Hh, list_lookup_fmap in Ht'.
  assert (∀ t, functionStack_ (G t) `sublist_of` functionStack_ t) as HGs.
  { intros t. destruct HG as [->|(t0 & e & _ & _ & _ & ->)]; [done|].
    apply sublist_filter. }
  destruct (decide (r = r')) as [->|Hrr].
  - rewrite list_lookup_alter_eq in Ht'.
    destruct (heap s !! r') as [t0|] eqn:Ht0; simplify_eq/=.
    exists t0. split; [done|]. destruct (HH t0 eq_refl) as (<- & _ & _).
    apply HGs.
  - rewrite list_lookup_alter_ne in Ht' by done.
    destruct (heap s !! r') as [t0|] eqn:Ht0; simplify_eq/=.
    exists t0. split; [done|]. apply HGs.
Qed.

Lemma stepped_log_grows (r : ref) (dt : Z) (s : Scheduler) :
  ∃ L, log (stepped r dt s) = log s ++ L.
Proof.
  destruct (stepped_shape r dt s) as (H & G & L & Hh & Hlog & _).
  by exists L.
Qed.

Lemma dispatched_log_grows (dt : Z) (s : Scheduler) :
  ∃ L, log (dispatched dt s) = log s ++ L.
Proof.
  unfold dispatched. generalize (taskStack_ s). intros l.
  induction l as [|o l [L IH]]; [exists []; by rewrite app_nil_r|].
  simpl. destruct o as [r|r]; simpl; [|by exists L].
  destruct (stepped_log_grows r dt (foldr (step_object dt) s l)) as [L' ->].
  exists (L ++ L'). by rewrite IH, (assoc_L (++)).
Qed.

Lemma ticked_log_grows (dts : list Z) (s : Scheduler) :
  ∃ L, log (ticked dts s) = log s ++ L.
Proof.
  revert s. induction dts as [|dt dts IH]; intros s.
  { exists []. by rewrite app_nil_r. }
  simpl. destruct (IH (dispatched dt s)) as [L ->].
  destruct (dispatched_log_grows dt s) as [L' ->].
  exists (L' ++ L). by rewrite (assoc_L (++)).
Qed.

Lemma stepped_gone f c (r : ref) (dt : Z) (s : Scheduler) :
  gone f c s → gone f c (stepped r dt s).
Proof.
  intros Hg r' t' Ht'.
  destruct (stepped_sublist r r' dt s t' Ht') as (t & Ht & Hsub).
  eapply Forall_sublist; [|done]. by eapply Hg.
Qed.

Lemma foldr_step_gone f c (dt : Z) (l : list object) (s : Scheduler) :
  gone f c s → gone f c (foldr (step_object dt) s l).
Proof.
  intros Hg. induction l as [|o l IH]; [done|]. simpl.
  destruct o; [by apply stepped_gone|done].
Qed.

Lemma gone_unscheduled f c (s : Scheduler) :
  gone f c s → taskStack_ s !! 1 ≠ None → unscheduled f c s = s.
Proof.
  intros Hg Hst. unfold unscheduled.
  assert (remove_pair f c <$> heap s = heap s) as Hh.
  { apply list_eq. intros r. rewrite list_lookup_fmap.
    destruct (heap s !! r) as [t|] eqn:Ht; [|done]. simpl. f_equal.
    unfold remove_pair. rewrite filter_all.
    - apply set_functionStack__id.
    - specialize (Hg r t Ht). by rewrite Forall_forall in Hg. }
  rewrite Hh. assert (set_heap (heap s) s = s) as -> by by destruct s.
  unfold stops.
  destruct (taskStack_ s) as [|o [|o' l]]; [done|done|]. done.
Qed.

(** ** A one-shot task through the ticks *)

Lemma same_pair_refl x b f c : same_pair f c (Entry x b f c) = true.
Proof.
  unfold same_pair. simpl. by rewrite !bool_decide_eq_true_2.
Qed.

Lemma keeps_filter_gone f c (fs : list entry) :
  Forall (keeps f c) (filter (keeps f c) fs).
Proof.
  apply Forall_forall. intros e He. by apply list_elem_of_filter in He as [? _].
Qed.

Lemma stepped_pending_waits x f c (n : ref) delay a base (dt : Z) s :
  pending x f c n delay a base s → (a > dt)%Z →
  pending x f c n delay (a - dt) base (stepped n dt s).
Proof.
  intros (Hn & Hap & Hc) Ha. unfold stepped. rewrite Hn. simpl.
  destruct (Z.gtb_spec a dt); [|lia]. split_and!.
  - simpl. by rewrite list_lookup_alter_eq, Hn.
  - intros r t Ht Hne. simpl in Ht.
    rewrite list_lookup_alter_ne in Ht by done. by apply (Hap r).
  - done.
Qed.

Lemma stepped_pending_fires x f c (n : ref) delay a base (dt : Z) s :
  isFunction f = true →
  pending x f c n delay a base s → (a ≤ dt)%Z →
  finished x f c n (delay + dt - a) base (stepped n dt s).
Proof.
  intros Hf (Hn & Hap & Hc) Ha. unfold stepped. rewrite Hn. simpl.
  destruct (Z.gtb_spec a dt); [lia|]. unfold torn_down. simpl.
  set (s2 := set_heap _ _).
  assert (calls_of [Entry x true f c] (delay + dt - a)
          = [Call x f c (delay + dt - a)]) as Hcalls.
  { unfold calls_of. rewrite filter_cons_True; [done|].
    unfold fires. simpl. by rewrite Hf. }
  split_and!.
  - rewrite unscheduled_heap. unfold s2. simpl.
    rewrite list_lookup_fmap, !list_lookup_alter_eq, Hn. simpl.
    eexists. split; [done|]. simpl.
    rewrite filter_cons_False; [done|].
    unfold keeps. by rewrite same_pair_refl.
  - intros r t Ht Hne. rewrite unscheduled_heap in Ht. unfold s2 in Ht.
    simpl in Ht.
    rewrite list_lookup_fmap, !list_lookup_alter_ne in Ht by done.
    destruct (heap s !! r) as [t0|] eqn:Ht0; simplify_eq/=.
    destruct (Hap r t0 Ht0 Hne) as [Hx Hk]. split.
    + eapply Forall_sublist; [done|apply sublist_filter].
    + intros Hl. apply keeps_filter_gone.
  - intros r t Ht. rewrite unscheduled_heap, list_lookup_fmap in Ht.
    destruct (heap s2 !! r) as [t0|]; simplify_eq/=.
    apply keeps_filter_gone.
  - rewrite unscheduled_log. unfold s2. simpl. rewrite Hcalls.
    unfold calls_to. rewrite filter_app, filter_cons_True by done.
    rewrite filter_nil. by rewrite <- Hc.
Qed.

Lemma stepped_empty (n : ref) (dt : Z) (s : Scheduler) (Tn : Task) :
  heap s !! n = Some Tn → functionStack_ Tn = [] → stepped n dt s = s.
Proof. intros Hn Hfs. unfold stepped. by rewrite Hn, Hfs. Qed.

(** One tick, with [n] the last task of the stack. *)
Section one_shot.
Context (x : ref) (f : callback) (c : ref) (n : ref) (delay : Z)
  (base : list call) (stack0 : list object).
Hypothesis Hf : isFunction f = true.
Hypothesis Hstack0 : TaskObj n ∉ stack0.

Lemma dispatched_pending_waits a dt s :
  taskStack_ s = stack0 ++ [TaskObj n] →
  pending x f c n delay a base s → (a > dt)%Z →
  pending x f c n delay (a - dt) base (dispatched dt s).
Proof using Hstack0.
  intros Hst Hp Ha. unfold dispatched. rewrite Hst, foldr_app. simpl.
  destruct (stepped_pending_waits _ _ _ _ _ _ _ dt _ Hp Ha)
    as (Hn & Hap & Hc).
  destruct (foldr_step_other x f c n dt stack0 _ _ Hstack0 Hap Hn)
    as (? & ? & Hc').
  { repeat constructor. apply same_pair_refl. }
  split_and!; [done|done|]. by rewrite Hc'.
Qed.

Lemma dispatched_pending_fires a dt s :
  taskStack_ s = stack0 ++ [TaskObj n] →
  pending x f c n delay a base s → (a ≤ dt)%Z →
  finished x f c n (delay + dt - a) base (dispatched dt s).
Proof using Hf Hstack0.
  intros Hst Hp Ha. unfold dispatched. rewrite Hst, foldr_app. simpl.
  destruct (stepped_pending_fires _ _ _ _ _ _ _ dt _ Hf Hp Ha)
    as ((Tn & Hn & Hfs) & Hap & Hg & Hc).
  destruct (foldr_step_other x f c n dt stack0 _ _ Hstack0 Hap Hn)
    as (? & ? & Hc').
  { rewrite Hfs. constructor. }
  split_and!; [by exists Tn|done|by apply foldr_step_gone|].
  by rewrite Hc'.
Qed.

Lemma dispatched_finished v dt s :
  taskStack_ s = stack0 ++ [TaskObj n] →
  finished x f c n v base s → finished x f c n v base (dispatched dt s).
Proof using Hstack0.
  intros Hst ((Tn & Hn & Hfs) & Hap & Hg & Hc).
  unfold dispatched. rewrite Hst, foldr_app. simpl.
  rewrite (stepped_empty n dt s Tn) by done.
  destruct (foldr_step_other x f c n dt stack0 _ _ Hstack0 Hap Hn)
    as (? & ? & Hc').
  { rewrite Hfs. constructor. }
  split_and!; [by exists Tn|done|by apply foldr_step_gone|].
  by rewrite Hc'.
Qed.

Lemma waits_cons a dt dts :
  waits a (dt :: dts) → (a > dt)%Z ∧ waits (a - dt) dts.
Proof.
  intros Hw. split.
  - specialize (Hw 1 ltac:(simpl; lia)). cbn in Hw.
    rewrite take_0 in Hw. simpl in Hw. lia.
  - intros k Hk. specialize (Hw (S k) ltac:(simpl; lia)). cbn in Hw.
    fold (elapsed (take k dts)) in Hw. lia.
Qed.

Lemma ticked_pending a dts s :
  taskStack_ s = stack0 ++ [TaskObj n] →
  pending x f c n delay a base s → waits a dts →
  pending x f c n delay (a - elapsed dts) base (ticked dts s).
Proof using Hstack0.
  revert a s. induction dts as [|dt dts IH]; intros a s Hst Hp Hw.
  { simpl. by rewrite Z.sub_0_r. }
  apply waits_cons in Hw as [Ha Hw]. simpl.
  replace (a - (dt + elapsed dts))%Z with (a - dt - elapsed dts)%Z by lia.
  apply IH; [by rewrite dispatched_taskStack_| |done].
  by apply dispatched_pending_waits.
Qed.

Lemma ticked_finished v dts s :
  taskStack_ s = stack0 ++ [TaskObj n] →
  finished x f c n v base s → finished x f c n v base (ticked dts s).
Proof using Hstack0.
  revert s. induction dts as [|dt dts IH]; intros s Hst Hfin; [done|].
  simpl. apply IH; [by rewrite dispatched_taskStack_|].
  by apply dispatched_finished.
Qed.

End one_shot.

(** ** scheduleWithDelay and callAfter *)

Lemma scheduleWithDelay_spec now f c delay opt_limit (s : Scheduler) :
  wf s →
  scheduleWithDelay now f c delay opt_limit s
  = Normal tt (delayed now f c delay opt_limit s).
Proof.
  intros Hwf. unfold scheduleWithDelay, new_Task.
  rewrite (bind_Normal _ _ s (length (heap s))
             (set_heap (heap s ++ [Task_new delay opt_limit]) s)) by done.
  rewrite (schedule_spec now f c (Some (length (heap s)))).
  - done.
  - by apply wf_new_Task.
  - simpl. rewrite length_app. simpl. lia.
Qed.

Lemma wf_delayed now f c delay opt_limit s :
  wf s → wf (delayed now f c delay opt_limit s).
Proof.
  intros Hwf. apply wf_scheduled; [by apply wf_new_Task|].
  simpl. rewrite length_app. simpl. lia.
Qed.

Lemma fresh_task_not_listed (s : Scheduler) :
  wf s → TaskObj (length (heap s)) ∉ taskStack_ s.
Proof.
  intros Hwf Hin. pose proof (wf_stack s Hwf) as Hst.
  rewrite Forall_forall in Hst. specialize (Hst _ Hin). simpl in Hst. lia.
Qed.

Lemma delayed_taskStack_ now f c delay opt_limit s :
  wf s →
  taskStack_ (delayed now f c delay opt_limit s)
  = taskStack_ s ++ [TaskObj (length (heap s))].
Proof.
  intros Hwf. unfold delayed, scheduled.
  rewrite activated_taskStack_. simpl.
  apply insert_absent. by apply fresh_task_not_listed.
Qed.

Lemma delayed_heap now f c delay opt_limit s :
  heap (delayed now f c delay opt_limit s)
  = heap s ++ [push_entry (Entry (next_entry s) true f c)
                 (Task_new delay opt_limit)].
Proof.
  unfold delayed, scheduled. rewrite activated_heap. simpl.
  apply list_eq. intros r. rewrite list_lookup_alter.
  destruct (decide (length (heap s) = r)) as [<-|Hne].
  - by rewrite !list_lookup_middle.
  - destruct (decide (r < length (heap s))).
    + by rewrite !lookup_app_l.
    + rewrite !lookup_ge_None_2; [done|..]; rewrite length_app; simpl; lia.
Qed.

Lemma delayed_log now f c delay opt_limit s :
  log (delayed now f c delay opt_limit s) = log s.
Proof. unfold delayed, scheduled. by rewrite activated_log. Qed.

Lemma ticked_cons dt dts s :
  ticked (dt :: dts) s = ticked dts (dispatched dt s).
Proof. done. Qed.

Lemma calls_to_since x (s s' : Scheduler) (l : list call) :
  (∃ L, log s' = log s ++ L) →
  calls_to x (log s') = calls_to x (log s) ++ l →
  calls_to x (since s s') = l.
Proof.
  intros [L HL] Hc. unfold since. rewrite HL, drop_app_length.
  rewrite HL in Hc. unfold calls_to in *. rewrite filter_app in Hc.
  by apply app_inv_head in Hc.
Qed.

Lemma registrations_gone f c (s : Scheduler) :
  gone f c s → Forall (keeps f c) (registrations s).
Proof.
  intros Hg. unfold registrations. apply Forall_concat, Forall_fmap.
  apply Forall_lookup_2. intros r t Ht. by apply (Hg r).
Qed.


(** ** changeDirectorActivity *)

Lemma changeDirectorActivity_scan_take director value (i : nat)
    (fs : list entry) :
  i ≤ length fs →
  changeDirectorActivity_scan director value i fs
  = Some ((toggle director value <$> take i fs) ++ drop i fs).
Proof.
  revert fs. induction i as [|i IH]; intros fs Hi; [done|].
  destruct (lookup_lt_is_Some_2 fs i) as [f Hf]; [lia|].
  cbn [changeDirectorActivity_scan]. rewrite Hf.
  assert ((match getDirector (e_ctx f) with
           | Some d =>
               if bool_decide (d = director)
               then <[i:=set_e_active value f]> fs else fs
           | None => fs
           end) = <[i:=toggle director value f]> fs) as ->.
  { unfold toggle.
    destruct (decide (directed_by director f)) as [Hd|Hd];
      unfold directed_by in Hd.
    - rewrite Hd. by rewrite bool_decide_eq_true_2.
    - destruct (getDirector (e_ctx f)) as [d|] eqn:Hg;
        [|by rewrite list_insert_id].
      rewrite bool_decide_eq_false_2 by congruence.
      by rewrite list_insert_id. }
  rewrite IH by (rewrite length_insert; lia).
  rewrite take_insert_ge by lia.
  rewrite (take_S_r _ _ _ Hf), fmap_app, <- (assoc_L (++)). f_equal.
  rewrite drop_insert_ge by lia. rewrite Nat.sub_diag.
  rewrite (drop_S _ _ _ Hf). done.
Qed.

Lemma changeDirectorActivity_tasks_foldr director value (j : nat)
    (s : Scheduler) :
  Forall (is_task (heap s)) (taskStack_ s) →
  j ≤ length (taskStack_ s) →
  changeDirectorActivity_tasks director value j s
  = Normal tt
      (set_heap (foldr (apply_listed (toggle_task director value)) (heap s)
                   (take j (taskStack_ s))) s).
Proof.
  revert s. induction j as [|j IH]; intros s Hst Hj.
  { simpl. munfold. by destruct s. }
  destruct (lookup_lt_is_Some_2 (taskStack_ s) j) as [o Ho]; [lia|].
  pose proof (Forall_lookup_1 _ _ _ _ Hst Ho) as Hio.
  destruct o as [r|r]; [|done]. simpl in Hio.
  destruct (lookup_lt_is_Some_2 (heap s) r) as [t Ht]; [done|].
  cbn [changeDirectorActivity_tasks].
  rewrite (bind_Normal _ _ _ _ _ (task_at_Normal _ _ _ _ Ho Ht)).
  cbn [fst snd]. rewrite changeDirectorActivity_scan_take by done.
  rewrite take_ge, drop_all, app_nil_r by done.
  set (s1 := set_heap (alter (toggle_task director value) r (heap s)) s).
  rewrite (bind_Normal _ _ s tt s1).
  2:{ unfold update_task, modify, s1. do 2 f_equal.
      apply list_alter_ext; [|done]. intros t' Ht'. by simplify_eq. }
  rewrite IH; [| |simpl; lia].
  - f_equal. unfold s1, set_heap. simpl. f_equal.
    by rewrite (take_S_r _ _ _ Ho), foldr_app.
  - simpl. eapply Forall_impl; [done|].
    intros [r'|r']; simpl; [by rewrite length_alter|done].
Qed.

Lemma toggle_idemp director value e :
  toggle director value (toggle director value e) = toggle director value e.
Proof.
  unfold toggle.
  destruct (decide (directed_by director e)) as [Hd|Hd].
  - by rewrite decide_True.
  - by rewrite decide_False.
Qed.

Lemma changeDirectorActivity_spec director value (s : Scheduler) :
  wf s →
  changeDirectorActivity director value s
  = Normal tt (toggled director value s).
Proof.
  intros Hwf. unfold changeDirectorActivity.
  rewrite (bind_Normal _ _ s (length (taskStack_ s)) s) by done.
  rewrite changeDirectorActivity_tasks_foldr; [|by apply wf_stack|done].
  rewrite take_ge by done. unfold toggled. do 2 f_equal.
  apply foldr_listed_fmap; [| |by apply wf_listed].
  - intros t. unfold toggle_task, set_functionStack_. simpl. f_equal.
    rewrite <- list_fmap_compose. apply list_fmap_ext.
    intros i e _. apply toggle_idemp.
  - intros t Ht. destruct t. simpl in *. by subst.
Qed.

Lemma toggle_ref director value e : e_ref (toggle director value e) = e_ref e.
Proof. unfold toggle. by case_decide. Qed.

Lemma toggle_fn director value e : e_fn (toggle director value e) = e_fn e.
Proof. unfold toggle. by case_decide. Qed.

Lemma toggle_ctx director value e : e_ctx (toggle director value e) = e_ctx e.
Proof. unfold toggle. by case_decide. Qed.

Lemma wf_toggled director value s : wf s → wf (toggled director value s).
Proof.
  intros Hwf. apply wf_fmap; [|done]. intros t. unfold shrinks. simpl.
  rewrite <- list_fmap_compose.
  rewrite (list_fmap_ext (e_ref ∘ toggle director value) e_ref); [done|].
  intros i e _. apply toggle_ref.
Qed.

(** ** A tick of a paused director *)

Lemma toggled_paused_from director s :
  toggled director false s = paused_from director (length (log s)) s.
Proof.
  unfold paused_from. rewrite take_ge, drop_all, filter_nil, app_nil_r by done.
  by destruct s.
Qed.

Lemma calls_of_toggle director fs d :
  calls_of (toggle director false <$> fs) d
  = filter (outside director) (calls_of fs d).
Proof.
  induction fs as [|e fs IH] using rev_ind; [done|].
  rewrite fmap_app. simpl. rewrite !calls_of_snoc, filter_app, IH. f_equal.
  unfold toggle. destruct (decide (directed_by director e)) as [Hd|Hd].
  - unfold fires at 1. simpl.
    destruct (fires e); [|done].
    rewrite filter_cons_False; [done|]. unfold outside. simpl. by intros [].
  - destruct (fires e); [|done].
    by rewrite filter_cons_True.
Qed.

Lemma filter_keeps_toggle director value f c (fs : list entry) :
  filter (keeps f c) (toggle director value <$> fs)
  = toggle director value <$> filter (keeps f c) fs.
Proof.
  induction fs as [|e fs IH]; [done|]. rewrite fmap_cons, !filter_cons.
  assert (keeps f c (toggle director value e) ↔ keeps f c e) as Hk.
  { unfold keeps, same_pair. by rewrite toggle_fn, toggle_ctx. }
  destruct (decide (keeps f c e)) as [He|He].
  - rewrite decide_True by by apply Hk. by rewrite fmap_cons, IH.
  - rewrite decide_False by by rewrite Hk. done.
Qed.

Lemma remove_pair_toggle_task director value f c t :
  remove_pair f c (toggle_task director value t)
  = toggle_task director value (remove_pair f c t).
Proof.
  unfold remove_pair, toggle_task, set_functionStack_. simpl.
  by rewrite filter_keeps_toggle.
Qed.

Lemma paused_from_unscheduled director (m : nat) f c (s : Scheduler) :
  unscheduled f c (paused_from director m s)
  = paused_from director m (unscheduled f c s).
Proof.
  unfold unscheduled.
  assert (stops (set_heap (remove_pair f c <$> heap (paused_from director m s))
                   (paused_from director m s))
          = stops (set_heap (remove_pair f c <$> heap s) s)) as ->.
  { unfold stops. simpl. rewrite !list_lookup_fmap.
    destruct (heap s !! 0) as [t0|]; [|done]. simpl.
    by rewrite filter_keeps_toggle, length_fmap. }
  assert (remove_pair f c <$> (toggle_task director false <$> heap s)
          = toggle_task director false <$> (remove_pair f c <$> heap s)) as Hh.
  { rewrite <- !list_fmap_compose. apply list_fmap_ext.
    intros i t _. apply remove_pair_toggle_task. }
  destruct (stops _); unfold paused_from, toggled, set_heap, set_log,
    set_active_, set_host; simpl; by rewrite Hh.
Qed.

Lemma paused_from_alter director (m : nat) (g : Task → Task) (r : ref)
    (s : Scheduler) :
  (∀ t, g (toggle_task director false t) = toggle_task director false (g t)) →
  set_heap (alter g r (heap (paused_from director m s)))
    (paused_from director m s)
  = paused_from director m (set_heap (alter g r (heap s)) s).
Proof.
  intros Hg. unfold paused_from, toggled, set_heap, set_log. simpl.
  rewrite (list_fmap_alter (toggle_task director false) g g); [done|].
  apply Forall_forall. intros t _. by rewrite Hg.
Qed.

Lemma paused_from_log director (m : nat) (C : list call) (s : Scheduler) :
  m ≤ length (log s) →
  set_log (log (paused_from director m s) ++ filter (outside director) C)
    (paused_from director m s)
  = paused_from director m (set_log (log s ++ C) s).
Proof.
  intros Hm. unfold paused_from, toggled, set_heap, set_log. simpl.
  rewrite take_app_le, drop_app_le, filter_app by done.
  by rewrite (assoc_L (++)).
Qed.

Lemma set_delta_toggle_task director value d t :
  set_delta d (toggle_task director value t)
  = toggle_task director value (set_delta d t).
Proof. done. Qed.

Lemma set_limit_toggle_task director value l t :
  set_limit l (toggle_task director value t)
  = toggle_task director value (set_limit l t).
Proof. done. Qed.

Lemma torn_down_paused_from director (m : nat) (fs : list entry)
    (s : Scheduler) :
  torn_down (toggle director false <$> fs) (paused_from director m s)
  = paused_from director m (torn_down fs s).
Proof.
  unfold torn_down. rewrite list_lookup_fmap.
  destruct (fs !! 0) as [e|]; [|done]. simpl.
  rewrite toggle_fn, toggle_ctx. apply paused_from_unscheduled.
Qed.

Lemma stepped_paused_from director (m : nat) (r : ref) (dt : Z)
    (s : Scheduler) :
  m ≤ length (log s) →
  stepped r dt (paused_from director m s)
  = paused_from director m (stepped r dt s).
Proof.
  intros Hm. unfold stepped.
  assert (heap (paused_from director m s) !! r
          = toggle_task director false <$> heap s !! r) as ->.
  { simpl. by rewrite list_lookup_fmap. }
  destruct (heap s !! r) as [t|]; [|done].
  cbn [fmap option_fmap option_map].
  change (maxdelta (toggle_task director false t)) with (maxdelta t).
  change (delta (toggle_task director false t)) with (delta t).
  change (limit (toggle_task director false t)) with (limit t).
  change (functionStack_ (toggle_task director false t))
    with (toggle director false <$> functionStack_ t).
  rewrite length_fmap.
  destruct (_ =? 0); [done|].
  destruct (_ >? _)%Z.
  { apply paused_from_alter, set_delta_toggle_task. }
  cbv zeta. rewrite calls_of_toggle.
  rewrite (paused_from_alter director m
             (set_delta (0 `max` (maxdelta t - (dt - delta t)))) r s)
    by apply set_delta_toggle_task.
  set (sa := set_heap (alter _ r (heap s)) s).
  change (log (paused_from director m s))
    with (log (paused_from director m sa)).
  change (log s) with (log sa).
  rewrite paused_from_log by done.
  set (sb := set_log _ sa).
  destruct (_ =? -1)%Z; [done|].
  rewrite (paused_from_alter director m (set_limit (limit t - 1)) r sb)
    by apply set_limit_toggle_task.
  destruct (_ =? 0)%Z; [|done].
  apply torn_down_paused_from.
Qed.

Lemma foldr_step_paused_from director (m : nat) (dt : Z) (l : list object)
    (s : Scheduler) :
  m ≤ length (log s) →
  foldr (step_object dt) (paused_from director m s) l
  = paused_from director m (foldr (step_object dt) s l).
Proof.
  intros Hm. induction l as [|o l IH]; [done|]. simpl. rewrite IH.
  destruct o as [r|r]; [|done]. simpl.
  apply stepped_paused_from.
  clear IH. induction l as [|o l IH]; [done|]. simpl.
  destruct o as [r'|r']; [|done]. simpl.
  destruct (stepped_log_grows r' dt (foldr (step_object dt) s l)) as [L ->].
  rewrite length_app. lia.
Qed.

Lemma dispatched_paused_from director (m : nat) (dt : Z) (s : Scheduler) :
  m ≤ length (log s) →
  dispatched dt (paused_from director m s)
  = paused_from director m (dispatched dt s).
Proof. intros Hm. unfold dispatched. by apply foldr_step_paused_from. Qed.

Lemma elem_of_registrations (s : Scheduler) (r : ref) (t : Task) (e : entry) :
  heap s !! r = Some t → e ∈ functionStack_ t → e ∈ registrations s.
Proof.
  unfold registrations. revert r.
  induction (heap s) as [|t0 h IH]; intros r Ht He; [done|].
  rewrite fmap_cons. simpl. apply elem_of_app.
  destruct r as [|r]; simpl in Ht; [left; by simplify_eq|].
  right. by eapply IH.
Qed.

Lemma registrations_toggled director value (s : Scheduler) :
  registrations (toggled director value s)
  = toggle director value <$> registrations s.
Proof.
  unfold registrations, toggled. simpl.
  induction (heap s) as [|t h IH]; [done|].
  rewrite !fmap_cons. simpl. by rewrite fmap_app, IH.
Qed.

Lemma toggle_toggle director v v' e :
  toggle director v' (toggle director v e) = toggle director v' e.
Proof.
  unfold toggle. destruct (decide (directed_by director e)) as [Hd|Hd].
  - by rewrite decide_True.
  - by rewrite decide_False.
Qed.

Lemma toggled_toggled director v v' (s : Scheduler) :
  toggled director v' (toggled director v s) = toggled director v' s.
Proof.
  unfold toggled, set_heap. simpl. f_equal.
  rewrite <- list_fmap_compose. apply list_fmap_ext. intros i t _.
  unfold toggle_task, set_functionStack_. simpl. f_equal.
  rewrite <- list_fmap_compose. apply list_fmap_ext. intros j e _.
  apply toggle_toggle.
Qed.

Lemma toggled_same director value (s : Scheduler) :
  (∀ e, e ∈ registrations s → directed_by director e → e_active e = value) →
  toggled director value s = s.
Proof.
  intros Hact. unfold toggled.
  assert (toggle_task director value <$> heap s = heap s) as ->;
    [|by destruct s].
  apply list_eq. intros r. rewrite list_lookup_fmap.
  destruct (heap s !! r) as [t|] eqn:Ht; [|done]. simpl. f_equal.
  unfold toggle_task.
  assert (toggle director value <$> functionStack_ t = functionStack_ t)
    as ->; [|apply set_functionStack__id].
  apply list_eq. intros j. rewrite list_lookup_fmap.
  destruct (functionStack_ t !! j) as [e|] eqn:He; [|done]. simpl. f_equal.
  unfold toggle. case_decide as Hd; [|done].
  destruct e as [x b f c]. unfold set_e_active. simpl. f_equal.
  symmetry. apply (Hact (Entry x b f c)); [|done].
  eapply elem_of_registrations; [done|]. by eapply list_elem_of_lookup_2.
Qed.


(** ** What holds of schedule and unschedule on every well-formed state *)

(** [schedule] always pushes a new array, whatever the task holds, and
    leaves the scheduler active. *)
Lemma schedule_pushes now f c (opt_task : option ref) (t : Task)
    (s : Scheduler) :
  wf s → heap s !! target opt_task = Some t →
  ∃ s', schedule now f c opt_task s = Normal tt s'
    ∧ heap s' !! target opt_task
      = Some (push_entry (Entry (next_entry s) true f c) t)
    ∧ TaskObj (target opt_task) ∈ taskStack_ s'
    ∧ active_ s' = true.
Proof.
  intros Hwf Ht. pose proof (lookup_lt_Some _ _ _ Ht) as Hr.
  exists (scheduled now f c (target opt_task) s). split_and!.
  - by apply schedule_spec.
  - unfold scheduled. rewrite activated_heap. simpl.
    by rewrite list_lookup_alter_eq, Ht.
  - unfold scheduled. rewrite activated_taskStack_. simpl.
    destruct (decide (TaskObj (target opt_task) ∈ taskStack_ s)).
    + by rewrite insert_present.
    + rewrite insert_absent by done. apply elem_of_app. right.
      by apply list_elem_of_singleton.
  - apply activated_active.
Qed.

(** [unschedule] removes every registration of the pair from every task,
    and never takes a task off [taskStack_]; with two tasks or more on the
    stack it never stops the clock. *)
Lemma unschedule_removes_pair f c (s : Scheduler) :
  wf s →
  ∃ s', unschedule f c s = Normal tt s'
    ∧ Forall (keeps f c) (registrations s')
    ∧ (∀ e, e ∈ registrations s → keeps f c e → e ∈ registrations s')
    ∧ taskStack_ s' = taskStack_ s
    ∧ (2 ≤ length (taskStack_ s) → active_ s' = active_ s).
Proof.
  intros Hwf. exists (unscheduled f c s). split_and!.
  - by apply unschedule_spec.
  - apply registrations_gone. intros r t Ht.
    rewrite unscheduled_heap, list_lookup_fmap in Ht.
    destruct (heap s !! r) as [t0|]; simplify_eq/=.
    apply keeps_filter_gone.
  - intros e He Hk. unfold registrations in *.
    rewrite unscheduled_heap.
    induction (heap s) as [|t h IH]; [done|].
    rewrite !fmap_cons in *. simpl in *.
    apply elem_of_app in He as [He|He]; apply elem_of_app.
    + left. by apply list_elem_of_filter.
    + right. by apply IH.
  - apply unscheduled_taskStack_.
  - intros Hlen. unfold unscheduled, stops. simpl.
    destruct (taskStack_ s) as [|o [|o' l]]; simpl in *; [lia|lia|done].
Qed.

(** X20. A firing step of a task with a fire limit, when its callbacks
    leave the scheduler alone: the limit goes down by one, and when it
    reaches 0 the registrations of the pair at index 0 (the first
    registered, the last the loop visits) are removed from every task; the
    other registrations of the task stay. *)
Lemma step__counts_down now (r : ref) (dt : Z) (t : Task) (e : entry)
    (s : Scheduler) :
  wf s → heap s !! r = Some t → functionStack_ t !! 0 = Some e →
  (delta t ≤ dt)%Z → limit t ≠ (-1)%Z →
  quiet (functionStack_ t) (maxdelta t + dt - delta t) →
  ∃ s' t', step_ now r dt s = Normal tt s'
    ∧ heap s' !! r = Some t'
    ∧ limit t' = (limit t - 1)%Z
    ∧ functionStack_ t'
      = (if decide (limit t = 1%Z)
         then filter (keeps (e_fn e) (e_ctx e)) (functionStack_ t)
         else functionStack_ t)
    ∧ (limit t = 1%Z → Forall (keeps (e_fn e) (e_ctx e)) (registrations s')).
Proof.
  intros Hwf Ht He Hd Hl Hq. exists (stepped r dt s).
  rewrite (step__quiet now r dt t) by done.
  unfold stepped. rewrite Ht.
  destruct (length (functionStack_ t) =? 0) eqn:Hlen.
  { apply Nat.eqb_eq, nil_length_inv in Hlen. by rewrite Hlen in He. }
  destruct (Z.gtb_spec (delta t) dt) as [|_]; [lia|].
  cbv zeta. destruct (Z.eqb_spec (limit t) (-1)) as [|_]; [done|].
  unfold torn_down. rewrite He.
  destruct (Z.eqb_spec (limit t - 1) 0) as [H0|H0].
  - rewrite decide_True by lia. eexists. split_and!; [done| | | |].
    + rewrite unscheduled_heap. simpl.
      by rewrite list_lookup_fmap, !list_lookup_alter_eq, Ht.
    + done.
    + done.
    + intros _. apply registrations_gone. intros r' t' Ht'.
      rewrite unscheduled_heap, list_lookup_fmap in Ht'.
      destruct (_ !! r') as [t0|]; simplify_eq/=.
      apply keeps_filter_gone.
  - rewrite decide_False by lia.
    eexists. split_and!; [done| | | |intros; lia].
    + simpl. by rewrite !list_lookup_alter_eq, Ht.
    + done.
    + done.
Qed.

(** ** A callback that unschedules itself during the walk

    When the pairs of a task are pairwise distinct (the invariant that
    [schedule] is meant to keep), callbacks that unschedule their own pair
    disturb nothing: every registration that was active when the tick
    started is invoked once, last registered first. *)

Lemma same_pair_pair_of (e e' : entry) :
  same_pair (e_fn e) (e_ctx e) e' = true ↔ pair_of e' = pair_of e.
Proof.
  unfold same_pair, pair_of. rewrite andb_true_iff, !bool_decide_eq_true.
  split; [by intros [-> ->]|by intros [= -> ->]].
Qed.

Lemma filter_other_pairs (fs : list entry) (i : nat) (e : entry) :
  NoDup (pair_of <$> fs) → fs !! i = Some e →
  filter (keeps (e_fn e) (e_ctx e)) (take i fs) = take i fs.
Proof.
  intros Hnd He. apply filter_all. intros e' He'. unfold keeps.
  destruct (same_pair (e_fn e) (e_ctx e) e') eqn:Hp; [|done]. exfalso.
  apply same_pair_pair_of in Hp.
  apply list_elem_of_lookup in He' as [j Hj].
  pose proof (lookup_lt_Some _ _ _ Hj) as Hlt.
  rewrite length_take in Hlt. rewrite lookup_take_lt in Hj by lia.
  assert (j = i); [|lia].
  eapply (NoDup_lookup (pair_of <$> fs)); [done|..];
    rewrite list_lookup_fmap.
  - by rewrite Hj.
  - by rewrite He, Hp.
Qed.

Lemma step_loop_leaving now (r : ref) (d : Z) (fs : list entry) (i : nat)
    (f0 : option entry) (s : Scheduler) (t : Task) :
  NoDup (pair_of <$> fs) → leaving fs d → i ≤ length fs →
  wf s → heap s !! r = Some t → take i (functionStack_ t) = take i fs →
  ∃ f' s' t',
    step_loop now r d i f0 s = Normal f' s'
    ∧ log s' = log s ++ calls_of (take i fs) d
    ∧ wf s'
    ∧ heap s' !! r = Some t' ∧ limit t' = limit t
    ∧ f' = match i with 0 => f0 | S _ => fs !! 0 end.
Proof.
  intros Hnd Hlv. revert f0 s t.
  induction i as [|i IH]; intros f0 s t Hi Hwf Ht Htake.
  { exists f0, s, t. rewrite app_nil_r. by split_and!. }
  destruct (lookup_lt_is_Some_2 fs i) as [e He]; [lia|].
  assert (functionStack_ t !! i = Some e) as Hcur.
  { rewrite <- (lookup_take_lt _ (S i)), Htake by lia.
    by rewrite lookup_take_lt by lia. }
  assert (take i (functionStack_ t) = take i fs) as Htake'.
  { assert (take i (take (S i) (functionStack_ t))
            = take i (take (S i) fs)) as Htt by by rewrite Htake.
    rewrite !take_take in Htt. by replace (i `min` S i) with i in Htt by lia. }
  cbn [step_loop].
  rewrite (bind_Normal _ _ s t s) by (unfold deref; by rewrite Ht).
  rewrite Hcur, (take_S_r _ _ _ He), calls_of_snoc.
  assert (∀ s1 t1, wf s1 → heap s1 !! r = Some t1 → limit t1 = limit t →
            take i (functionStack_ t1) = take i fs →
            log s1 = log s ++ (if fires e then [call_of d e] else []) →
            ∃ f' s' t',
              step_loop now r d i (Some e) s1 = Normal f' s'
              ∧ log s' = log s ++ ((if fires e then [call_of d e] else [])
                                   ++ calls_of (take i fs) d)
              ∧ wf s' ∧ heap s' !! r = Some t' ∧ limit t' = limit t
              ∧ f' = fs !! 0) as Hrest.
  { intros s1 t1 Hwf1 Ht1 Hl1 Htk1 Hlog1.
    destruct (IH (Some e) s1 t1) as (f' & s' & t' & -> & Hlog & ? & ? & Hl & ->);
      [lia|done|done|done|].
    exists (match i with 0 => Some e | S _ => fs !! 0 end), s', t'.
    split_and!; [done| |done|done|congruence|].
    - by rewrite Hlog, Hlog1, (assoc_L (++)).
    - destruct i; [by rewrite He|done]. }
  destruct (fires e) eqn:Hf.
  2:{ unfold fires in Hf. rewrite Hf.
      rewrite (bind_Normal _ _ s tt s) by done.
      apply (Hrest s t); [done..|]. by rewrite app_nil_r. }
  unfold fires in Hf. rewrite Hf.
  destruct (Hlv e) as [Hb|Hb];
    [by eapply list_elem_of_lookup_2|by unfold fires; rewrite Hf|..].
  - set (s1 := set_log (log s ++ [call_of d e]) s).
    rewrite (bind_Normal _ _ s tt s1).
    2:{ unfold invoke. rewrite Hb. by munfold. }
    apply (Hrest s1 t); [by apply wf_set_log|done..].
  - set (s1 := set_log (log s ++ [call_of d e]) s).
    rewrite (bind_Normal _ _ s tt (unscheduled (e_fn e) (e_ctx e) s1)).
    2:{ unfold invoke. rewrite Hb.
        rewrite (bind_Normal _ _ s tt s1) by done.
        unfold perform_all, perform.
        rewrite (bind_Normal _ _ _ _ _
                   (unschedule_spec (e_fn e) (e_ctx e) s1
                      (wf_set_log _ _ Hwf))).
        done. }
    apply (Hrest _ (remove_pair (e_fn e) (e_ctx e) t)).
    + by apply wf_unscheduled, wf_set_log.
    + rewrite unscheduled_heap. simpl. by rewrite list_lookup_fmap, Ht.
    + done.
    + simpl. rewrite <- (take_drop i (functionStack_ t)) at 1.
      rewrite filter_app, Htake', (filter_other_pairs fs i e) by done.
      apply take_app_length'. rewrite length_take. lia.
    + by rewrite unscheduled_log.
Qed.

(** X19. Callbacks may unschedule themselves while their task is
    stepped: when the pairs registered on the task are pairwise distinct
    and each callback either leaves the scheduler alone or unschedules its
    own pair, the step ends normally and every registration that was active
    at its start has been invoked exactly once, last registered first. *)
Lemma step__self_unschedule now (r : ref) (dt : Z) (t : Task)
    (s : Scheduler) :
  wf s → heap s !! r = Some t → functionStack_ t ≠ [] → (delta t ≤ dt)%Z →
  NoDup (pair_of <$> functionStack_ t) →
  leaving (functionStack_ t) (maxdelta t + dt - delta t) →
  ∃ s', step_ now r dt s = Normal tt s'
    ∧ log s' = log s ++ calls_of (functionStack_ t) (maxdelta t + dt - delta t).
Proof.
  intros Hwf Ht Hne Hd Hnd Hlv. unfold step_.
  rewrite (bind_Normal _ _ s t s) by (unfold deref; by rewrite Ht).
  destruct (length (functionStack_ t) =? 0) eqn:Hlen.
  { apply Nat.eqb_eq, nil_length_inv in Hlen. done. }
  apply Nat.eqb_neq in Hlen.
  destruct (Z.gtb_spec (delta t) dt) as [|_]; [lia|].
  set (d' := (if (maxdelta t - (dt - delta t) <? 0)%Z then 0%Z
              else (maxdelta t - (dt - delta t))%Z)).
  set (s0 := set_heap (alter (set_delta d') r (heap s)) s).
  rewrite (bind_Normal _ _ s tt s0) by done.
  destruct (step_loop_leaving now r (maxdelta t + dt - delta t)
              (functionStack_ t) (length (functionStack_ t)) None s0
              (set_delta d' t))
    as (f' & s' & t' & Hloop & Hlog & Hwf' & Ht' & Hl' & Hf');
    [done|done|done| | |done|].
  { by apply wf_alter; [apply shrinks_set_delta|]. }
  { simpl. by rewrite list_lookup_alter_eq, Ht. }
  rewrite (bind_Normal _ _ _ _ _ Hloop).
  rewrite (bind_Normal _ _ s' t' s') by (unfold deref; by rewrite Ht').
  rewrite take_ge in Hlog by done. simpl in Hlog, Hl'. rewrite Hl'.
  destruct (limit t =? -1)%Z; [by exists s'|]. cbn [negb].
  set (s2 := set_heap (alter (set_limit (limit t - 1)) r (heap s')) s').
  rewrite (bind_Normal _ _ s' tt s2) by done.
  destruct (limit t - 1 =? 0)%Z; [|by exists s2].
  destruct (functionStack_ t) as [|e fs] eqn:Hfs; [done|].
  simpl in Hf'. subst f'.
  exists (unscheduled (e_fn e) (e_ctx e) s2). split.
  - apply unschedule_spec. by apply wf_alter; [apply shrinks_set_limit|].
  - by rewrite unscheduled_log.
Qed.

(** ** The elapsed time callbacks are invoked with *)

Lemma stepped_args (r : ref) (dt : Z) (s : Scheduler) :
  cadences_ok s →
  cadences_ok (stepped r dt s)
  ∧ ∃ L, log (stepped r dt s) = log s ++ L ∧ nonneg_args L.
Proof.
  intros Hc. split.
  - destruct (stepped_shape r dt s) as (H & G & L & Hh & _ & HH & HG & _).
    unfold cadences_ok. rewrite Hh. apply Forall_fmap, Forall_lookup_2.
    intros r' t' Ht'. simpl.
    assert (maxdelta (G t') = maxdelta t') as ->.
    { by destruct HG as [->|(? & ? & _ & _ & _ & ->)]. }
    destruct (decide (r = r')) as [->|Hne].
    + rewrite list_lookup_alter_eq in Ht'.
      destruct (heap s !! r') as [t0|] eqn:Ht0; simplify_eq/=.
      destruct (HH t0 eq_refl) as (_ & -> & _).
      by apply (Forall_lookup_1 _ _ _ _ Hc Ht0).
    + rewrite list_lookup_alter_ne in Ht' by done.
      by apply (Forall_lookup_1 _ _ _ _ Hc Ht').
  - assert (∃ L, log s = log s ++ L ∧ nonneg_args L) as Hnil.
    { exists []. split; [by rewrite app_nil_r|constructor]. }
    unfold stepped. destruct (heap s !! r) as [t|] eqn:Ht; [|done].
    destruct (_ =? 0); [done|].
    destruct (Z.gtb_spec (delta t) dt) as [|Hd]; [done|].
    assert (nonneg_args
              (calls_of (functionStack_ t) (maxdelta t + dt - delta t)))
      as Hargs.
    { apply Forall_fmap, Forall_forall. intros e _. simpl.
      pose proof (Forall_lookup_1 _ _ _ _ Hc Ht). simpl in *. lia. }
    cbv zeta. destruct (_ =? -1)%Z; [by eexists|].
    destruct (_ =? 0)%Z; [|by eexists].
    rewrite torn_down_log. by eexists.
Qed.

Lemma dispatched_args (dt : Z) (s : Scheduler) :
  cadences_ok s →
  cadences_ok (dispatched dt s)
  ∧ ∃ L, log (dispatched dt s) = log s ++ L ∧ nonneg_args L.
Proof.
  intros Hc. unfold dispatched. generalize (taskStack_ s). intros l.
  induction l as [|o l (Hc' & L & HL & Hn)].
  { split; [done|]. exists []. split; [by rewrite app_nil_r|constructor]. }
  simpl. destruct o as [r|r]; simpl; [|by eauto].
  destruct (stepped_args r dt _ Hc') as (? & L' & -> & Hn').
  split; [done|]. exists (L ++ L'). rewrite HL, (assoc_L (++)).
  split; [done|]. by apply Forall_app.
Qed.


(** ** The interface, call by call *)

Lemma scheduled_wf_live now f c (opt_task : option ref) (t : Task) s :
  wf s → heap s !! target opt_task = Some t →
  schedule now f c opt_task s
  = Normal tt (scheduled now f c (target opt_task) s)
  ∧ wf (scheduled now f c (target opt_task) s).
Proof.
  intros Hwf Ht. pose proof (lookup_lt_Some _ _ _ Ht) as Hr.
  split; [by apply schedule_spec|by apply wf_scheduled].
Qed.

Lemma scheduled_heap now f c (r : ref) (t : Task) s :
  heap s !! r = Some t →
  heap (scheduled now f c r s)
  = <[r := push_entry (Entry (next_entry s) true f c) t]> (heap s).
Proof.
  intros Ht. unfold scheduled. rewrite activated_heap. simpl.
  apply list_eq. intros i. destruct (decide (i = r)) as [->|Hne].
  - rewrite list_lookup_alter_eq, Ht.
    by rewrite list_lookup_insert_eq by by eapply lookup_lt_Some.
  - by rewrite list_lookup_alter_ne, list_lookup_insert_ne.
Qed.

(** X1. [schedule] on a live task returns normally.  It pushes one new
    array [[1, f, context]] at the end of the task's [functionStack_],
    whatever the task holds already, and changes no other task and none of
    the arrays registered before; the task is pushed on [taskStack_] when it
    is not there; the scheduler is active afterwards; no callback is
    invoked. *)
Theorem schedule_appends now f c (opt_task : option ref) (t : Task)
    (s : Scheduler) :
  wf s → heap s !! target opt_task = Some t →
  ∃ s', schedule now f c opt_task s = Normal tt s'
    ∧ heap s'
      = <[target opt_task := push_entry (Entry (next_entry s) true f c) t]>
          (heap s)
    ∧ next_entry s' = S (next_entry s)
    ∧ taskStack_ s'
      = (if decide (TaskObj (target opt_task) ∈ taskStack_ s)
         then taskStack_ s
         else taskStack_ s ++ [TaskObj (target opt_task)])
    ∧ active_ s' = true
    ∧ log s' = log s
    ∧ wf s'.
Proof.
  intros Hwf Ht.
  destruct (scheduled_wf_live now f c opt_task t s Hwf Ht) as [Hs Hwf'].
  exists (scheduled now f c (target opt_task) s). split_and!; try done.
  - by apply scheduled_heap.
  - unfold scheduled. by rewrite activated_next_entry.
  - unfold scheduled. rewrite activated_taskStack_. simpl.
    destruct (decide (TaskObj (target opt_task) ∈ taskStack_ s)).
    + by rewrite insert_present.
    + by rewrite insert_absent.
  - apply activated_active.
  - unfold scheduled. by rewrite activated_log.
Qed.

Lemma remove_pair_fmap_idemp f c (h : list Task) :
  remove_pair f c <$> (remove_pair f c <$> h) = remove_pair f c <$> h.
Proof.
  rewrite <- list_fmap_compose. apply list_fmap_ext.
  intros i t _. apply remove_pair_idemp.
Qed.

Lemma unscheduled_idemp f c (s : Scheduler) :
  unscheduled f c (unscheduled f c s) = unscheduled f c s.
Proof.
  unfold unscheduled. cbv zeta.
  destruct (stops (set_heap (remove_pair f c <$> heap s) s)) eqn:Hst.
  - simpl. rewrite remove_pair_fmap_idemp.
    unfold stops. simpl. by rewrite !andb_false_r.
  - simpl. rewrite remove_pair_fmap_idemp.
    assert (set_heap (remove_pair f c <$> heap s)
              (set_heap (remove_pair f c <$> heap s) s)
            = set_heap (remove_pair f c <$> heap s) s) as -> by done.
    by rewrite Hst.
Qed.

(** X2. [unschedule] returns normally on every well-formed state.  In
    every task it removes exactly the registrations of the pair, keeping
    the others in their order, and it changes no cadence, accumulator or
    fire limit; no task leaves [taskStack_]; no callback is invoked.
    Calling it a second time changes nothing. *)
Theorem unschedule_filters f c (s : Scheduler) :
  wf s →
  ∃ s', unschedule f c s = Normal tt s'
    ∧ Forall2 (λ t t',
         functionStack_ t' = filter (keeps f c) (functionStack_ t)
         ∧ maxdelta t' = maxdelta t ∧ delta t' = delta t
         ∧ limit t' = limit t)
        (heap s) (heap s')
    ∧ taskStack_ s' = taskStack_ s
    ∧ next_entry s' = next_entry s
    ∧ log s' = log s
    ∧ wf s'
    ∧ unschedule f c s' = Normal tt s'.
Proof.
  intros Hwf. exists (unscheduled f c s). split_and!.
  - by apply unschedule_spec.
  - rewrite unscheduled_heap. apply Forall2_fmap_r, Forall_Forall2_diag.
    by apply Forall_forall.
  - apply unscheduled_taskStack_.
  - apply unscheduled_next_entry.
  - apply unscheduled_log.
  - by apply wf_unscheduled.
  - rewrite unschedule_spec by by apply wf_unscheduled.
    by rewrite unscheduled_idemp.
Qed.

Lemma registrations_nil_lookup (s : Scheduler) :
  registrations s = [] ↔ ∀ r t, heap s !! r = Some t → functionStack_ t = [].
Proof.
  unfold registrations. split.
  - intros Hnil r t Ht.
    destruct (functionStack_ t) as [|e fs] eqn:Hfs; [done|].
    assert (e ∈ concat (functionStack_ <$> heap s)) as Hin.
    { apply (elem_of_registrations s r t); [done|]. rewrite Hfs. left. }
    rewrite Hnil in Hin. by apply elem_of_nil in Hin.
  - intros Hall. induction (heap s) as [|t h IH]; [done|].
    rewrite fmap_cons. simpl. rewrite (Hall 0 t) by done. simpl.
    apply IH. intros r t' Ht'. by apply (Hall (S r)).
Qed.

(** With the default task alone on the stack, every registration is in the
    default task. *)
Lemma default_alone (s : Scheduler) (r : ref) (t : Task) :
  wf s → length (taskStack_ s) = 1 → heap s !! r = Some t →
  functionStack_ t ≠ [] → r = 0.
Proof.
  intros Hwf Hlen Ht Hne.
  pose proof (wf_listed s Hwf) as Hl. rewrite Forall_forall in Hl.
  assert (listed_at s r) as [Hin|Hemp].
  { apply Hl, elem_of_seq. apply lookup_lt_Some in Ht. lia. }
  - pose proof (wf_default s Hwf) as Hd.
    destruct (taskStack_ s) as [|o [|o' l]]; simpl in *; try lia.
    simplify_eq. apply list_elem_of_singleton in Hin. by simplify_eq.
  - by rewrite Ht in Hemp.
Qed.

Lemma gone_remove_pair f c (s : Scheduler) :
  gone f c s → remove_pair f c <$> heap s = heap s.
Proof.
  intros Hg. apply list_eq. intros r. rewrite list_lookup_fmap.
  destruct (heap s !! r) as [t|] eqn:Ht; [|done]. simpl. f_equal.
  unfold remove_pair. rewrite filter_all.
  - apply set_functionStack__id.
  - specialize (Hg r t Ht). by rewrite Forall_forall in Hg.
Qed.

Lemma gone_registrations f c (s : Scheduler) :
  Forall (keeps f c) (registrations s) → gone f c s.
Proof.
  intros Hall r t Ht. apply Forall_forall. intros e He.
  rewrite Forall_forall in Hall. apply Hall.
  by apply (elem_of_registrations s r t).
Qed.

(** X3. [unschedule] of a pair that no task holds changes nothing, as long
    as the scheduler is not left running without any registration on the
    default task alone (the one state in which the call stops the clock). *)
Theorem unschedule_absent f c (s : Scheduler) :
  wf s → Forall (keeps f c) (registrations s) →
  (active_ s = true → registrations s ≠ [] ∨ length (taskStack_ s) ≠ 1) →
  unschedule f c s = Normal tt s.
Proof.
  intros Hwf Hall Hact. rewrite unschedule_spec by done. f_equal.
  unfold unscheduled.
  rewrite (gone_remove_pair f c s) by by apply gone_registrations.
  assert (set_heap (heap s) s = s) as -> by by destruct s.
  destruct (stops s) eqn:Hst; [|done]. exfalso.
  unfold stops in Hst.
  apply andb_prop in Hst as [Hst Ha]. apply andb_prop in Hst as [Hlen Hd].
  apply Nat.eqb_eq in Hlen.
  destruct (heap s !! 0) as [t0|] eqn:Ht0; [|done].
  apply Nat.eqb_eq, nil_length_inv in Hd.
  destruct (Hact Ha) as [Hne|Hne]; [|done].
  apply Hne, registrations_nil_lookup. intros r t Ht.
  destruct (functionStack_ t) as [|e fs] eqn:Hfs; [done|].
  assert (r = 0) as -> by (eapply default_alone; [done..|by rewrite Hfs]).
  assert (t = t0) as -> by congruence. congruence.
Qed.

(** X4. Registering a pair that no task holds and unscheduling it again
    leaves every Task as it was: same registrations in the same order, same
    cadence, accumulator and fire limit. *)
Theorem schedule_unschedule_restores now f c (opt_task : option ref)
    (t : Task) (s : Scheduler) :
  wf s → heap s !! target opt_task = Some t →
  Forall (keeps f c) (registrations s) →
  ∃ s1 s2, schedule now f c opt_task s = Normal tt s1
    ∧ unschedule f c s1 = Normal tt s2
    ∧ heap s2 = heap s.
Proof.
  intros Hwf Ht Hall.
  destruct (scheduled_wf_live now f c opt_task t s Hwf Ht) as [Hs Hwf'].
  exists (scheduled now f c (target opt_task) s),
    (unscheduled f c (scheduled now f c (target opt_task) s)).
  split_and!; [done|by apply unschedule_spec|].
  rewrite unscheduled_heap, (scheduled_heap _ _ _ _ t) by done.
  rewrite list_fmap_insert, (gone_remove_pair f c s)
    by by apply gone_registrations.
  apply list_insert_id. rewrite Ht. f_equal.
  unfold remove_pair, push_entry. simpl. rewrite filter_app.
  rewrite filter_all.
  2:{ pose proof (gone_registrations f c s Hall _ _ Ht) as Hk.
      by rewrite Forall_forall in Hk. }
  rewrite filter_cons_False, filter_nil, app_nil_r.
  - by destruct t.
  - unfold keeps. by rewrite same_pair_refl.
Qed.

(** X5. [scheduleWithDelay] never reuses a Task: every call creates one,
    with cadence and accumulator [delay] and fire limit [opt_limit] (-1
    when omitted), holding the new registration alone, and pushes it at the
    end of [taskStack_].  The scheduler is active afterwards and no callback
    has been invoked. *)
Theorem scheduleWithDelay_new_task now f c delay (opt_limit : option Z)
    (s : Scheduler) :
  wf s →
  ∃ s', scheduleWithDelay now f c delay opt_limit s = Normal tt s'
    ∧ heap s'
      = heap s
        ++ [mkTask delay delay
              (match opt_limit with Some l => l | None => -1 end)
              [Entry (next_entry s) true f c]]
    ∧ taskStack_ s' = taskStack_ s ++ [TaskObj (length (heap s))]
    ∧ active_ s' = true
    ∧ log s' = log s
    ∧ wf s'.
Proof.
  intros Hwf. exists (delayed now f c delay opt_limit s). split_and!.
  - exact (scheduleWithDelay_spec now f c delay opt_limit s Hwf).
  - exact (delayed_heap now f c delay opt_limit s).
  - exact (delayed_taskStack_ now f c delay opt_limit s Hwf).
  - unfold delayed, scheduled. apply activated_active.
  - exact (delayed_log now f c delay opt_limit s).
  - exact (wf_delayed now f c delay opt_limit s Hwf).
Qed.

(** X6. [setDisplayRate] stores the rate, which [getDisplayRate] then
    returns, and touches no task, no registration and not the active flag.
    On an idle scheduler it does nothing else: no clock is started.  On a
    running one the clock source is stopped and started again: the interval
    timer is armed anew with the new rate; with animation frames the frame
    subscription is armed anew, the rate having no effect on it. *)
Theorem setDisplayRate_rearms now (value : Q) (s : Scheduler) :
  ∃ s', setDisplayRate now value s = Normal tt s'
    ∧ getDisplayRate s' = Normal value s'
    ∧ heap s' = heap s ∧ taskStack_ s' = taskStack_ s
    ∧ active_ s' = active_ s ∧ log s' = log s
    ∧ (active_ s = false → s' = set_displayRate_ value s)
    ∧ (active_ s = true →
       host s'
       = match USE_ANIMATION_FRAME with
         | Some Moz => Some MozBeforePaint
         | Some Webkit => Some WebkitAnimationFrame
         | None => Some (Interval (S (intervalID_ s)) value)
         end).
Proof.
  rewrite setDisplayRate_spec.
  unfold getDisplayRate, gets, activated, disabled, armed.
  destruct (active_ s) eqn:Ha; simpl; rewrite ?Ha; simpl.
  - destruct USE_ANIMATION_FRAME as [[]|]; simpl;
      eexists; (split; [reflexivity|]); simpl; by split_and!.
  - eexists. split; [reflexivity|]. simpl. by split_and!.
Qed.

Lemma toggle_comm d d' v v' e :
  d ≠ d' →
  toggle d v (toggle d' v' e) = toggle d' v' (toggle d v e).
Proof.
  intros Hne. unfold toggle, directed_by.
  repeat (case_decide; simpl in *); congruence.
Qed.

Lemma toggled_comm d d' v v' (s : Scheduler) :
  d ≠ d' →
  toggled d v (toggled d' v' s) = toggled d' v' (toggled d v s).
Proof.
  intros Hne. unfold toggled, set_heap. simpl. f_equal.
  rewrite <- !list_fmap_compose. apply list_fmap_ext. intros i t _.
  unfold toggle_task, set_functionStack_. simpl. f_equal.
  rewrite <- !list_fmap_compose. apply list_fmap_ext. intros j e _.
  by apply toggle_comm.
Qed.

(** X7. Calls of [changeDirectorActivity] compose as settings of a flag
    per director: of two calls for the same director the later one wins
    (so that repeating a call changes nothing), and calls for different
    directors can be made in either order. *)
Theorem changeDirectorActivity_composes d d' (v v' : bool) (s : Scheduler) :
  wf s →
  (changeDirectorActivity d v ≫= λ _, changeDirectorActivity d v') s
  = changeDirectorActivity d v' s
  ∧ (d ≠ d' →
     (changeDirectorActivity d v ≫= λ _, changeDirectorActivity d' v') s
     = (changeDirectorActivity d' v' ≫= λ _, changeDirectorActivity d v) s)
  ∧ ∃ s', changeDirectorActivity d v s = Normal tt s'
          ∧ changeDirectorActivity d v s' = Normal tt s'.
Proof.
  intros Hwf.
  pose proof (wf_toggled d v s Hwf) as Hwf1.
  pose proof (wf_toggled d' v' s Hwf) as Hwf2.
  split_and!.
  - rewrite (bind_Normal _ _ _ _ _ (changeDirectorActivity_spec d v s Hwf)).
    rewrite !changeDirectorActivity_spec by done.
    by rewrite toggled_toggled.
  - intros Hne.
    rewrite (bind_Normal _ _ _ _ _ (changeDirectorActivity_spec d v s Hwf)).
    rewrite (bind_Normal _ _ _ _ _
               (changeDirectorActivity_spec d' v' s Hwf)).
    rewrite !changeDirectorActivity_spec by done.
    by rewrite toggled_comm.
  - exists (toggled d v s). split; [by apply changeDirectorActivity_spec|].
    rewrite changeDirectorActivity_spec by done. by rewrite toggled_toggled.
Qed.

(** X8. A [schedule] on a running scheduler does not touch the clock:
    [lastRunTime_], the armed source, the interval id and the display rate
    stay as they are, so the first delta the new registration sees on the
    default task is measured from the tick before it was registered. *)
Theorem schedule_keeps_clock now f c (opt_task : option ref) (t : Task)
    (s : Scheduler) :
  wf s → heap s !! target opt_task = Some t → active_ s = true →
  ∃ s', schedule now f c opt_task s = Normal tt s'
    ∧ lastRunTime_ s' = lastRunTime_ s
    ∧ host s' = host s
    ∧ intervalID_ s' = intervalID_ s
    ∧ displayRate_ s' = displayRate_ s
    ∧ ∀ curTime, stepTimer_delta curTime s' = stepTimer_delta curTime s.
Proof.
  intros Hwf Ht Ha.
  destruct (scheduled_wf_live now f c opt_task t s Hwf Ht) as [Hs _].
  eexists. split; [exact Hs|].
  unfold scheduled, activated, stepTimer_delta. simpl. rewrite Ha. done.
Qed.

(** ** Runs *)

Lemma insert_prefix (l : list object) (o : object) :
  l `prefix_of` goog_array_insert same_object l o.
Proof.
  destruct (decide (o ∈ l)).
  - by rewrite insert_present.
  - rewrite insert_absent by done. by apply prefix_app_r.
Qed.

Lemma stepped_heap_length (r : ref) (dt : Z) (s : Scheduler) :
  length (heap (stepped r dt s)) = length (heap s).
Proof.
  destruct (stepped_shape r dt s) as (H & G & L & -> & _).
  by rewrite length_fmap, length_alter.
Qed.

Lemma dispatched_heap_length (dt : Z) (s : Scheduler) :
  length (heap (dispatched dt s)) = length (heap s).
Proof.
  unfold dispatched. induction (taskStack_ s) as [|o l IH]; [done|].
  simpl. destruct o as [r|r]; simpl; [|done].
  by rewrite stepped_heap_length.
Qed.

Lemma perform_ok now (a : action) (s : Scheduler) :
  wf s →
  match a with Schedule _ _ (Some r) => r < length (heap s) | _ => True end →
  ∃ s', perform now a s = Normal tt s'
    ∧ wf s'
    ∧ log s' = log s
    ∧ taskStack_ s `prefix_of` taskStack_ s'
    ∧ length (heap s') = length (heap s) + allocates (Interface a).
Proof.
  intros Hwf Hlive. destruct a as [f c o|f c|f c d l|f c d|d v|v|m l]; simpl.
  - assert (target o < length (heap s)) as Hr.
    { destruct o as [r|]; [done|]. simpl.
      destruct (wf_lookup_default s Hwf) as [t Ht].
      by eapply lookup_lt_Some. }
    exists (scheduled now f c (target o) s). split_and!.
    + by apply schedule_spec.
    + by apply wf_scheduled.
    + unfold scheduled. by rewrite activated_log.
    + unfold scheduled. rewrite activated_taskStack_. simpl.
      apply insert_prefix.
    + unfold scheduled. rewrite activated_heap. simpl.
      rewrite length_alter. lia.
  - exists (unscheduled f c s). split_and!.
    + by apply unschedule_spec.
    + by apply wf_unscheduled.
    + apply unscheduled_log.
    + by rewrite unscheduled_taskStack_.
    + rewrite unscheduled_heap, length_fmap. lia.
  - exists (delayed now f c d l s). split_and!.
    + exact (scheduleWithDelay_spec now f c d l s Hwf).
    + exact (wf_delayed now f c d l s Hwf).
    + exact (delayed_log now f c d l s).
    + rewrite (delayed_taskStack_ now f c d l s Hwf). by apply prefix_app_r.
    + rewrite (delayed_heap now f c d l s), length_app. done.
  - exists (delayed now f c d (Some 1%Z) s). split_and!.
    + exact (scheduleWithDelay_spec now f c d (Some 1%Z) s Hwf).
    + exact (wf_delayed now f c d (Some 1%Z) s Hwf).
    + exact (delayed_log now f c d (Some 1%Z) s).
    + rewrite (delayed_taskStack_ now f c d (Some 1%Z) s Hwf).
      by apply prefix_app_r.
    + rewrite (delayed_heap now f c d (Some 1%Z) s), length_app. done.
  - exists (toggled d v s). split_and!.
    + by apply changeDirectorActivity_spec.
    + by apply wf_toggled.
    + done.
    + done.
    + unfold toggled. simpl. rewrite length_fmap. lia.
  - rewrite setDisplayRate_spec. eexists. split; [done|].
    unfold activated, disabled, armed.
    destruct (active_ s) eqn:Ha; simpl; rewrite ?Ha; simpl.
    + destruct USE_ANIMATION_FRAME as [[]|]; simpl;
        (split_and!; [by eapply wf_congr|done|done|lia]).
    + split_and!; [by eapply wf_congr|done|done|lia].
  - exists (set_heap (heap s ++ [Task_new m l]) s). split_and!.
    + done.
    + by apply wf_new_Task.
    + done.
    + done.
    + simpl. by rewrite length_app.
Qed.

(** The frame handlers, once [dispatch_] has returned: the time is
    recorded, and the request of the next frame raises in a window without
    the function. *)
Lemma animationFrameHandler__served now (time : Z) (s s1 : Scheduler) :
  USE_ANIMATION_FRAME = Some Webkit →
  dispatch_ now (time - lastRunTime_ s) s = Normal tt s1 →
  animationFrameHandler_ now time s
  = Normal tt
      (set_host (Some WebkitAnimationFrame) (set_lastRunTime_ time s1)).
Proof.
  intros Hw Hd. unfold animationFrameHandler_, webkitRequestAnimationFrame.
  rewrite Hw.
  rewrite (bind_Normal _ _ s (time - lastRunTime_ s)%Z s) by done.
  by rewrite !(bind_Normal _ _ _ _ _ Hd).
Qed.

Lemma animationFrameHandler__unserved now (time : Z) (s s1 : Scheduler) :
  USE_ANIMATION_FRAME ≠ Some Webkit →
  dispatch_ now (time - lastRunTime_ s) s = Normal tt s1 →
  animationFrameHandler_ now time s = TypeError (set_lastRunTime_ time s1).
Proof.
  intros Hw Hd. unfold animationFrameHandler_, webkitRequestAnimationFrame.
  rewrite (bind_Normal _ _ s (time - lastRunTime_ s)%Z s) by done.
  rewrite !(bind_Normal _ _ _ _ _ Hd).
  by destruct USE_ANIMATION_FRAME as [[]|].
Qed.

Lemma beforePaintHandler__served now (timeStamp : Z) (s s1 : Scheduler) :
  USE_ANIMATION_FRAME = Some Moz →
  dispatch_ now (timeStamp - lastRunTime_ s) s = Normal tt s1 →
  beforePaintHandler_ now timeStamp s
  = Normal tt (moz_frame_requested (set_lastRunTime_ timeStamp s1)).
Proof.
  intros Hm Hd. unfold beforePaintHandler_, mozRequestAnimationFrame.
  rewrite Hm.
  rewrite (bind_Normal _ _ s (timeStamp - lastRunTime_ s)%Z s) by done.
  by rewrite !(bind_Normal _ _ _ _ _ Hd).
Qed.

Lemma beforePaintHandler__unserved now (timeStamp : Z) (s s1 : Scheduler) :
  USE_ANIMATION_FRAME ≠ Some Moz →
  dispatch_ now (timeStamp - lastRunTime_ s) s = Normal tt s1 →
  beforePaintHandler_ now timeStamp s
  = TypeError (set_lastRunTime_ timeStamp s1).
Proof.
  intros Hm Hd. unfold beforePaintHandler_, mozRequestAnimationFrame.
  rewrite (bind_Normal _ _ s (timeStamp - lastRunTime_ s)%Z s) by done.
  rewrite !(bind_Normal _ _ _ _ _ Hd).
  by destruct USE_ANIMATION_FRAME as [[]|].
Qed.

Lemma moz_frame_requested_heap s : heap (moz_frame_requested s) = heap s.
Proof. unfold moz_frame_requested. by destruct (host s). Qed.

Lemma moz_frame_requested_taskStack_ s :
  taskStack_ (moz_frame_requested s) = taskStack_ s.
Proof. unfold moz_frame_requested. by destruct (host s). Qed.

Lemma moz_frame_requested_next_entry s :
  next_entry (moz_frame_requested s) = next_entry s.
Proof. unfold moz_frame_requested. by destruct (host s). Qed.

Lemma moz_frame_requested_active_ s :
  active_ (moz_frame_requested s) = active_ s.
Proof. unfold moz_frame_requested. by destruct (host s). Qed.

Lemma moz_frame_requested_log s : log (moz_frame_requested s) = log s.
Proof. unfold moz_frame_requested. by destruct (host s). Qed.

Lemma moz_frame_requested_lastRunTime_ s :
  lastRunTime_ (moz_frame_requested s) = lastRunTime_ s.
Proof. unfold moz_frame_requested. by destruct (host s). Qed.

(** A tick of a handler the window serves, seen as [dispatch_] followed by
    a change that leaves the tasks alone. *)
Lemma enter_tick now (e : entry_point) (s : Scheduler) :
  served e →
  match e with Interface _ => False | _ => True end →
  ∃ (dt : Z) (g : Scheduler → Scheduler),
    (∀ s1, dispatch_ now dt s = Normal tt s1 →
           enter now e s = Normal tt (g s1))
    ∧ ∀ s1, heap (g s1) = heap s1 ∧ taskStack_ (g s1) = taskStack_ s1
            ∧ next_entry (g s1) = next_entry s1
            ∧ active_ (g s1) = active_ s1.
Proof.
  intros Hserved He. destruct e as [a| |time|timeStamp]; [done|..].
  - exists (stepTimer_delta now s), (set_lastRunTime_ now).
    split; [|done]. intros s1 Hs1. simpl. unfold stepTimer_.
    rewrite (bind_Normal _ _ s (stepTimer_delta now s) s) by done.
    by rewrite (bind_Normal _ _ _ _ _ Hs1).
  - exists (time - lastRunTime_ s)%Z,
      (λ s1, set_host (Some WebkitAnimationFrame) (set_lastRunTime_ time s1)).
    split; [|done]. intros s1 Hs1.
    by apply animationFrameHandler__served.
  - exists (timeStamp - lastRunTime_ s)%Z,
      (λ s1, moz_frame_requested (set_lastRunTime_ timeStamp s1)).
    split.
    + intros s1 Hs1. by apply beforePaintHandler__served.
    + intros s1.
      by rewrite moz_frame_requested_heap, moz_frame_requested_taskStack_,
        moz_frame_requested_next_entry, moz_frame_requested_active_.
Qed.

Lemma enter_ok now (e : entry_point) (s : Scheduler) :
  inert → wf s → served e →
  match e with
  | Interface (Schedule _ _ (Some r)) => r < length (heap s)
  | _ => True
  end →
  ∃ s', enter now e s = Normal tt s'
    ∧ wf s'
    ∧ taskStack_ s `prefix_of` taskStack_ s'
    ∧ length (heap s') = length (heap s) + allocates e.
Proof.
  intros Hin Hwf Hserved Hlive.
  assert (match e with Interface _ => False | _ => True end →
          ∃ s', enter now e s = Normal tt s'
            ∧ wf s'
            ∧ taskStack_ s `prefix_of` taskStack_ s'
            ∧ length (heap s') = length (heap s) + allocates e) as Htick.
  { intros Htick.
    destruct (enter_tick now e s Hserved Htick) as (dt & g & Hrun & Hg).
    exists (g (dispatched dt s)).
    destruct (Hg (dispatched dt s)) as (Hh & Ht & Hn & _).
    split_and!.
    - by apply Hrun, dispatch__inert.
    - eapply wf_congr; [done..|]. by apply wf_dispatched.
    - by rewrite Ht, dispatched_taskStack_.
    - rewrite Hh, dispatched_heap_length. destruct e; simpl; (done || lia). }
  destruct e as [a| | |]; [|by apply Htick..].
  destruct (perform_ok now a s Hwf Hlive) as (s' & ? & ? & ? & ? & ?).
  by exists s'.
Qed.

(** X9. When no callback re-enters the scheduler, contexts being objects,
    no run raises: any sequence of calls to the interface ([schedule] on
    Tasks created before, [unschedule], [scheduleWithDelay], [callAfter],
    [changeDirectorActivity], [setDisplayRate], [new Task]) and of ticks of
    the handlers the window serves (the timer handler in every window, a
    frame handler in the window that offers its interface) ends normally in
    a well-formed state.  Nothing is ever taken off [taskStack_]: the stack
    at the start is a prefix of the stack at the end, with the default task
    in slot 0. *)
Theorem run_never_throws (l : list (Z * entry_point)) (s : Scheduler) :
  inert → wf s → served_run l → live_run (length (heap s)) l →
  ∃ s', run l s = Normal tt s'
    ∧ wf s'
    ∧ taskStack_ s `prefix_of` taskStack_ s'
    ∧ taskStack_ s' !! 0 = Some (TaskObj 0).
Proof.
  intros Hin. revert s.
  induction l as [|[now e] l IH]; intros s Hwf Hserved Hlive.
  - exists s. split_and!; [done|done|done|by apply wf_default].
  - destruct Hlive as [He Hl]. apply Forall_cons in Hserved as [Hse Hserved].
    destruct (enter_ok now e s Hin Hwf Hse He)
      as (s1 & Hs1 & Hwf1 & Hp1 & Hh1).
    rewrite <- Hh1 in Hl.
    destruct (IH s1 Hwf1 Hserved Hl) as (s' & Hs' & Hwf' & Hp' & Hd').
    exists s'. split_and!; [|done|by etrans|done].
    simpl. by rewrite (bind_Normal _ _ _ _ _ Hs1).
Qed.

(** *** Runs on the default task *)

Lemma default_only_wf s : default_only s → wf s.
Proof. by intros [? _]. Qed.

Lemma default_only_frame (s s' : Scheduler) :
  heap s' = heap s → taskStack_ s' = taskStack_ s →
  next_entry s' = next_entry s → active_ s' = active_ s →
  default_only s → default_only s'.
Proof.
  intros Hh Ht Hn Ha (Hwf & Hst & t0 & Hheap & Hl & Hact).
  split_and!.
  - by eapply wf_congr.
  - by rewrite Ht.
  - exists t0. by rewrite Hh, Ha.
Qed.

Lemma default_only_task (g : Task → Task) (s : Scheduler) :
  (∀ t, functionStack_ (g t) = functionStack_ t ∧ limit (g t) = limit t) →
  default_only s → default_only (set_heap (alter g 0 (heap s)) s).
Proof.
  intros Hg (Hwf & Hst & t0 & Hheap & Hl & Hact). split_and!.
  - apply wf_alter; [|done]. intros t. unfold shrinks.
    by rewrite (proj1 (Hg t)).
  - done.
  - exists (g t0). simpl. rewrite Hheap. simpl.
    destruct (Hg t0) as [-> ->]. done.
Qed.

Lemma perform_default now (a : action) (s : Scheduler) :
  default_only s → on_default a →
  ∃ s', perform now a s = Normal tt s' ∧ default_only s'.
Proof.
  intros (Hwf & Hst & t0 & Hheap & Hl & Hact) Ha.
  destruct a as [f c [r|]|f c|f c d l|f c d|d v|v|m l]; simpl in *;
    try done.
  - exists (scheduled now f c 0 s). split.
    { apply (schedule_spec now f c None s Hwf). rewrite Hheap. simpl. lia. }
    split_and!.
    + apply wf_scheduled; [done|]. rewrite Hheap. simpl. lia.
    + unfold scheduled. rewrite activated_taskStack_. simpl.
      rewrite Hst. done.
    + exists (push_entry (Entry (next_entry s) true f c) t0).
      unfold scheduled. rewrite activated_heap, activated_active. simpl.
      rewrite Hheap. simpl. split_and!; [done|done|].
      split; [|done]. intros _. by destruct (functionStack_ t0).
  - exists (unscheduled f c s). split; [by apply unschedule_spec|].
    split_and!.
    + by apply wf_unscheduled.
    + by rewrite unscheduled_taskStack_.
    + exists (remove_pair f c t0). rewrite unscheduled_heap, Hheap.
      split_and!; [done|done|].
      unfold unscheduled, stops. simpl. rewrite Hst, Hheap. simpl.
      destruct (filter (keeps f c) (functionStack_ t0)) as [|e fs] eqn:Hf;
        simpl.
      * destruct (active_ s) eqn:Has; simpl; [done|].
        rewrite Has. done.
      * split; [done|]. intros _. apply Hact. intros Hnil.
        rewrite Hnil in Hf. done.
  - exists (toggled d v s). split; [by apply changeDirectorActivity_spec|].
    split_and!.
    + by apply wf_toggled.
    + done.
    + exists (toggle_task d v t0). unfold toggled. simpl. rewrite Hheap.
      split_and!; [done|done|]. simpl.
      rewrite Hact. by destruct (functionStack_ t0).
  - rewrite setDisplayRate_spec. eexists. split; [done|].
    unfold activated, disabled, armed.
    destruct (active_ s) eqn:Has; simpl; rewrite ?Has; simpl.
    + destruct USE_ANIMATION_FRAME as [[]|]; simpl;
        (eapply (default_only_frame s); [done..|]);
        (split_and!; [done|done|]; exists t0; by rewrite Has).
    + eapply (default_only_frame s); [done..|].
      split_and!; [done|done|]. exists t0. by rewrite Has.
Qed.

Lemma perform_all_default now (l : list action) (s : Scheduler) :
  default_only s → Forall on_default l →
  ∃ s', perform_all now l s = Normal tt s' ∧ default_only s'.
Proof.
  revert s. induction l as [|a l IH]; intros s Hs Hl.
  - by exists s.
  - apply Forall_cons in Hl as [Ha Hl].
    destruct (perform_default now a s Hs Ha) as (s1 & Hs1 & Hd1).
    destruct (IH s1 Hd1 Hl) as (s' & Hs' & Hd').
    exists s'. split; [|done].
    change (perform_all now (a :: l))
      with (perform now a ≫= λ _, perform_all now l).
    by rewrite (bind_Normal _ _ _ _ _ Hs1).
Qed.

Lemma invoke_default now (e : entry) (d : Z) (s : Scheduler) :
  default_bodies → default_only s →
  ∃ s', invoke now e d s = Normal tt s' ∧ default_only s'.
Proof.
  intros Hb Hs. unfold invoke.
  set (s1 := set_log (log s ++ [Call (e_ref e) (e_fn e) (e_ctx e) d]) s).
  rewrite (bind_Normal _ _ s tt s1) by done.
  apply perform_all_default; [|apply Hb].
  by apply (default_only_frame s).
Qed.

Lemma step_loop_default now (d : Z) (i : nat) (f0 : option entry)
    (s : Scheduler) :
  default_bodies → default_only s →
  ∃ f' s', step_loop now 0 d i f0 s = Normal f' s' ∧ default_only s'.
Proof.
  intros Hb. revert f0 s. induction i as [|i IH]; intros f0 s Hs.
  - by exists f0, s.
  - pose proof Hs as (Hwf & Hst & t0 & Hheap & Hl & Hact).
    cbn [step_loop].
    rewrite (bind_Normal _ _ s t0 s) by (unfold deref; by rewrite Hheap).
    destruct (functionStack_ t0 !! i) as [e|] eqn:He.
    + destruct (e_active e && isFunction (e_fn e)).
      * destruct (invoke_default now e d s Hb Hs) as (s1 & Hs1 & Hd1).
        rewrite (bind_Normal _ _ _ _ _ Hs1). apply IH, Hd1.
      * rewrite (bind_Normal _ _ s tt s) by done. by apply IH.
    + rewrite (bind_Normal _ _ s tt s) by done. by apply IH.
Qed.

Lemma step__default now (dt : Z) (s : Scheduler) :
  default_bodies → default_only s →
  ∃ s', step_ now 0 dt s = Normal tt s' ∧ default_only s'.
Proof.
  intros Hb Hs. pose proof Hs as (Hwf & Hst & t0 & Hheap & Hl & Hact).
  unfold step_.
  rewrite (bind_Normal _ _ s t0 s) by (unfold deref; by rewrite Hheap).
  destruct (length (functionStack_ t0) =? 0); [by exists s|].
  destruct (delta t0 >? dt)%Z.
  - eexists. split; [done|]. by apply default_only_task.
  - cbv zeta.
    set (g := set_delta
                (if (maxdelta t0 - (dt - delta t0) <? 0)%Z then 0%Z
                 else (maxdelta t0 - (dt - delta t0))%Z)).
    pose proof (default_only_task g s (λ t, conj eq_refl eq_refl) Hs) as Hs1.
    rewrite (bind_Normal _ _ s tt (set_heap (alter g 0 (heap s)) s)) by done.
    destruct (step_loop_default now (maxdelta t0 + dt - delta t0)
                (length (functionStack_ t0)) None _ Hb Hs1)
      as (f' & s2 & Hs2 & Hd2).
    rewrite (bind_Normal _ _ _ _ _ Hs2).
    pose proof Hd2 as (Hwf2 & Hst2 & t2 & Hheap2 & Hl2 & Hact2).
    rewrite (bind_Normal _ _ s2 t2 s2) by (unfold deref; by rewrite Hheap2).
    rewrite Hl2. simpl. by exists s2.
Qed.

Lemma dispatch__default now (dt : Z) (s : Scheduler) :
  default_bodies → default_only s →
  ∃ s', dispatch_ now dt s = Normal tt s' ∧ default_only s'.
Proof.
  intros Hb Hs. pose proof Hs as (Hwf & Hst & _).
  unfold dispatch_.
  rewrite (bind_Normal _ _ s 1 s) by (unfold gets; by rewrite Hst).
  cbn [dispatch_loop].
  rewrite (bind_Normal _ _ s (Some (TaskObj 0)) s)
    by (unfold gets; by rewrite Hst).
  destruct (step__default now dt s Hb Hs) as (s' & Hs' & Hd').
  rewrite (bind_Normal _ _ _ _ _ Hs'). by exists s'.
Qed.

Lemma enter_default now (e : entry_point) (s : Scheduler) :
  default_bodies → default_only s → served e → default_entry e →
  ∃ s', enter now e s = Normal tt s' ∧ default_only s'.
Proof.
  intros Hb Hs Hserved He.
  assert (match e with Interface _ => False | _ => True end →
          ∃ s', enter now e s = Normal tt s' ∧ default_only s') as Htick.
  { intros Htick.
    destruct (enter_tick now e s Hserved Htick) as (dt & g & Hrun & Hg).
    destruct (dispatch__default now dt s Hb Hs) as (s1 & Hs1 & Hd1).
    exists (g s1). split; [by apply Hrun|].
    destruct (Hg s1) as (? & ? & ? & ?).
    by apply (default_only_frame s1). }
  destruct e as [a| | |]; [|by apply Htick..].
  by apply perform_default.
Qed.

Lemma run_default (l : list (Z * entry_point)) (s : Scheduler) :
  default_bodies → default_only s → served_run l →
  Forall (λ ne, default_entry ne.2) l →
  ∃ s', run l s = Normal tt s' ∧ default_only s'.
Proof.
  intros Hb. revert s.
  induction l as [|[now e] l IH]; intros s Hs Hserved Hl.
  - by exists s.
  - apply Forall_cons in Hl as [He Hl].
    apply Forall_cons in Hserved as [Hse Hserved].
    destruct (enter_default now e s Hb Hs Hse He) as (s1 & Hs1 & Hd1).
    destruct (IH s1 Hd1 Hserved Hl) as (s' & Hs' & Hd').
    exists s'. split; [|done].
    simpl. by rewrite (bind_Normal _ _ _ _ _ Hs1).
Qed.

(** X10. As long as only the default task is used: [schedule] without a
    Task, [unschedule], [changeDirectorActivity] and [setDisplayRate],
    called from outside or from callbacks, between any ticks of the
    handlers the window serves.  Then no run from the initial state raises,
    and at the end of it the scheduler is active exactly when some
    registration exists, the default task being the only task on
    [taskStack_]. *)
Theorem default_runs_active_iff_registered (l : list (Z * entry_point)) :
  default_bodies → served_run l → Forall (λ ne, default_entry ne.2) l →
  ∃ s', run l scheduleManager = Normal tt s'
    ∧ (active_ s' = true ↔ registrations s' ≠ [])
    ∧ taskStack_ s' = [TaskObj 0].
Proof.
  intros Hb Hserved Hl.
  destruct (run_default l scheduleManager Hb) as (s' & Hs' & Hd');
    [|done|done|].
  { split_and!; [|done|].
    - apply (bool_decide_unpack _). by vm_compute.
    - exists (Task_new 0 None). by split_and!. }
  destruct Hd' as (Hwf & Hst & t0 & Hheap & Hl' & Hact).
  exists s'. split_and!; [done| |done].
  unfold registrations. rewrite Hheap. simpl. by rewrite app_nil_r.
Qed.

(** ** Ticks *)

(** *** A tick while nothing is registered *)

Lemma dispatch_loop_idle now dt (i : nat) (s : Scheduler) :
  wf s → registrations s = [] → i ≤ length (taskStack_ s) →
  dispatch_loop now dt i s = Normal tt s.
Proof.
  intros Hwf Hnil. induction i as [|i IH]; intros Hi; [done|].
  destruct (lookup_lt_is_Some_2 (taskStack_ s) i) as [o Ho]; [lia|].
  pose proof (Forall_lookup_1 _ _ _ _ (wf_stack s Hwf) Ho) as Hr.
  destruct o as [r|r]; [|done]. simpl in Hr.
  destruct (lookup_lt_is_Some_2 (heap s) r) as [t Ht]; [done|].
  assert (functionStack_ t = []) as Hfs
    by by eapply (proj1 (registrations_nil_lookup s)).
  cbn [dispatch_loop].
  rewrite (bind_Normal _ _ s (Some (TaskObj r)) s)
    by (unfold gets; by rewrite Ho).
  rewrite (bind_Normal _ _ s tt s).
  - apply IH. lia.
  - rewrite (step__quiet now r dt t s Hwf Ht).
    + by rewrite (stepped_empty r dt s t).
    + rewrite Hfs. intros e He. by apply elem_of_nil in He.
Qed.

Lemma dispatch__idle now dt (s : Scheduler) :
  wf s → registrations s = [] → dispatch_ now dt s = Normal tt s.
Proof.
  intros Hwf Hnil. unfold dispatch_.
  rewrite (bind_Normal _ _ s (length (taskStack_ s)) s) by done.
  by apply dispatch_loop_idle.
Qed.

(** X11. A tick while nothing is registered invokes nothing and changes no
    Task, whatever tasks are on [taskStack_]: no accumulator runs while its
    task is empty.  [stepTimer_] only records the time.  A frame handler
    records the time and then requests the next frame: in the window that
    offers its interface the request is made, whether or not the scheduler
    is active; in any other window the request raises a TypeError. *)
Theorem idle_tick_records_time now (time : Z) (s : Scheduler) :
  wf s → registrations s = [] →
  stepTimer_ now s = Normal tt (set_lastRunTime_ now s)
  ∧ beforePaintHandler_ now time s
    = (if decide (USE_ANIMATION_FRAME = Some Moz)
       then Normal tt (moz_frame_requested (set_lastRunTime_ time s))
       else TypeError (set_lastRunTime_ time s))
  ∧ animationFrameHandler_ now time s
    = (if decide (USE_ANIMATION_FRAME = Some Webkit)
       then Normal tt
              (set_host (Some WebkitAnimationFrame)
                 (set_lastRunTime_ time s))
       else TypeError (set_lastRunTime_ time s)).
Proof.
  intros Hwf Hnil. split_and!.
  - unfold stepTimer_.
    rewrite (bind_Normal _ _ s (stepTimer_delta now s) s) by done.
    by rewrite (bind_Normal _ _ _ _ _ (dispatch__idle now _ s Hwf Hnil)).
  - pose proof (dispatch__idle now (time - lastRunTime_ s) s Hwf Hnil) as Hd.
    destruct (decide (USE_ANIMATION_FRAME = Some Moz)).
    + by apply beforePaintHandler__served.
    + by apply beforePaintHandler__unserved.
  - pose proof (dispatch__idle now (time - lastRunTime_ s) s Hwf Hnil) as Hd.
    destruct (decide (USE_ANIMATION_FRAME = Some Webkit)).
    + by apply animationFrameHandler__served.
    + by apply animationFrameHandler__unserved.
Qed.

(** *** Tasks without a fire limit *)

Lemma stepped_unlimited (r : ref) (dt : Z) (t : Task) (s : Scheduler) :
  heap s !! r = Some t → limit t = (-1)%Z →
  stepped r dt s
  = set_log (log s ++ fired dt t)
      (set_heap (alter (advance dt) r (heap s)) s).
Proof.
  intros Ht Hl. unfold stepped, fired. rewrite Ht.
  destruct (length (functionStack_ t) =? 0) eqn:He.
  - rewrite app_nil_r.
    assert (alter (advance dt) r (heap s) = heap s) as ->; [|by destruct s].
    apply list_eq. intros i. destruct (decide (i = r)) as [->|Hne].
    + rewrite list_lookup_alter_eq, Ht. simpl. unfold advance. by rewrite He.
    + by rewrite list_lookup_alter_ne.
  - assert (∀ g, (∀ t', heap s !! r = Some t' → g t' = advance dt t') →
                 alter g r (heap s) = alter (advance dt) r (heap s)) as Halt.
    { intros g Hg. apply list_alter_ext; [|done]. intros t' Ht'. by apply Hg. }
    destruct (delta t >? dt)%Z eqn:Hd.
    + rewrite app_nil_r. rewrite (Halt (set_delta (delta t - dt))).
      * by destruct s.
      * intros t' Ht'. simplify_eq. unfold advance. by rewrite He, Hd.
    + cbv zeta. rewrite Hl. simpl.
      rewrite (Halt (set_delta (Z.max 0 (maxdelta t - (dt - delta t))))).
      * done.
      * intros t' Ht'. simplify_eq. unfold advance. by rewrite He, Hd.
Qed.

Lemma advance_functionStack_ dt t :
  functionStack_ (advance dt t) = functionStack_ t.
Proof.
  unfold advance. destruct (_ =? 0); [done|]. by destruct (_ >? _)%Z.
Qed.

Lemma advance_limit dt t : limit (advance dt t) = limit t.
Proof.
  unfold advance. destruct (_ =? 0); [done|]. by destruct (_ >? _)%Z.
Qed.

Lemma advance_maxdelta dt t : maxdelta (advance dt t) = maxdelta t.
Proof.
  unfold advance. destruct (_ =? 0); [done|]. by destruct (_ >? _)%Z.
Qed.

Lemma same_setup_refl (h : list Task) : Forall2 same_setup h h.
Proof. by apply Forall_Forall2_diag, Forall_forall. Qed.

Lemma same_setup_trans (h1 h2 h3 : list Task) :
  Forall2 same_setup h1 h2 → Forall2 same_setup h2 h3 →
  Forall2 same_setup h1 h3.
Proof.
  intros H12. revert h3. induction H12 as [|t1 t2 h1 h2 Ht _ IH];
    intros h3 H23; [by inversion H23|].
  inversion H23 as [|? t3 ? h3' Ht' H23']; subst. constructor; [|by apply IH].
  destruct Ht as (? & ? & ?), Ht' as (? & ? & ?).
  unfold same_setup. split_and!; congruence.
Qed.

(** A step of a task without a fire limit touches accumulators only. *)
Lemma stepped_unlimited_heap (r : ref) (dt : Z) (s : Scheduler) :
  unlimited s →
  Forall2 same_setup (heap s) (heap (stepped r dt s))
  ∧ active_ (stepped r dt s) = active_ s
  ∧ host (stepped r dt s) = host s.
Proof.
  intros Hu. destruct (heap s !! r) as [t|] eqn:Ht.
  - rewrite (stepped_unlimited r dt t s Ht)
      by (unfold unlimited in Hu; by eapply (Forall_lookup_1 _ _ _ _ Hu)).
    simpl. split; [|done].
    apply Forall2_alter_r.
    + apply same_setup_refl.
    + intros t1 t2 _ _ (? & ? & ?). unfold same_setup.
      rewrite advance_functionStack_, advance_maxdelta, advance_limit.
      by split_and!.
  - unfold stepped. rewrite Ht. split; [|done].
    apply same_setup_refl.
Qed.

Lemma unlimited_related (h h' : list Task) :
  Forall (λ t, limit t = (-1)%Z) h →
  Forall2 same_setup h h' →
  Forall (λ t, limit t = (-1)%Z) h'.
Proof.
  intros Hu Hr. induction Hr as [|t t' h h' (_ & _ & Hl) _ IH]; [done|].
  apply Forall_cons in Hu as [Ht Hu]. constructor; [congruence|by apply IH].
Qed.

Lemma dispatched_unlimited_heap (dt : Z) (s : Scheduler) :
  unlimited s →
  Forall2 same_setup (heap s) (heap (dispatched dt s))
  ∧ active_ (dispatched dt s) = active_ s
  ∧ host (dispatched dt s) = host s.
Proof.
  intros Hu. unfold dispatched.
  induction (taskStack_ s) as [|o l IH].
  { split; [|done]. apply same_setup_refl. }
  simpl. destruct IH as (Hr & Ha & Hh).
  destruct o as [r|r]; simpl; [|done].
  destruct (stepped_unlimited_heap r dt (foldr (step_object dt) s l))
    as (Hr' & Ha' & Hh'); [by eapply unlimited_related|].
  split_and!; [|congruence|congruence].
  by eapply same_setup_trans.
Qed.

(** *** The default task in a dispatch *)

(** The default task of cadence 0, accumulator 0 and no fire limit stays
    so through the step of any task by a delta that is not negative. *)
Lemma stepped_default_ready (r : ref) (dt : Z) (t0 : Task) (s : Scheduler) :
  heap s !! 0 = Some t0 → maxdelta t0 = 0%Z → delta t0 = 0%Z →
  limit t0 = (-1)%Z → (0 ≤ dt)%Z →
  ∃ t0', heap (stepped r dt s) !! 0 = Some t0'
    ∧ maxdelta t0' = 0%Z ∧ delta t0' = 0%Z ∧ limit t0' = (-1)%Z.
Proof.
  intros Ht0 Hm Hd Hl Hdt. unfold stepped.
  destruct (heap s !! r) as [t|] eqn:Ht; [|by exists t0].
  destruct (length (functionStack_ t) =? 0); [by exists t0|].
  destruct (decide (r = 0)) as [->|Hne].
  - assert (t = t0) as -> by congruence.
    destruct (Z.gtb_spec (delta t0) dt); [lia|]. cbv zeta.
    rewrite Hl. simpl. rewrite list_lookup_alter_eq, Ht0. simpl.
    eexists. split; [done|]. simpl. split_and!; [done|lia|done].
  - destruct (delta t >? dt)%Z.
    { simpl. rewrite list_lookup_alter_ne by done. by exists t0. }
    cbv zeta. destruct (limit t =? -1)%Z.
    { simpl. rewrite list_lookup_alter_ne by done. by exists t0. }
    destruct (limit t - 1 =? 0)%Z.
    + unfold torn_down. destruct (functionStack_ t !! 0) as [e|].
      * rewrite unscheduled_heap. simpl.
        rewrite list_lookup_fmap, !list_lookup_alter_ne, Ht0 by done.
        simpl. eexists. split; [done|]. by split_and!.
      * simpl. rewrite !list_lookup_alter_ne by done. by exists t0.
    + simpl. rewrite !list_lookup_alter_ne by done. by exists t0.
Qed.

Lemma foldr_step_default_ready (dt : Z) (l : list object) (t0 : Task)
    (s : Scheduler) :
  heap s !! 0 = Some t0 → maxdelta t0 = 0%Z → delta t0 = 0%Z →
  limit t0 = (-1)%Z → (0 ≤ dt)%Z →
  (∃ t0', heap (foldr (step_object dt) s l) !! 0 = Some t0'
     ∧ maxdelta t0' = 0%Z ∧ delta t0' = 0%Z ∧ limit t0' = (-1)%Z)
  ∧ ∃ L, log (foldr (step_object dt) s l) = log s ++ L.
Proof.
  intros Ht0 Hm Hd Hl Hdt. induction l as [|o l IH].
  { split; [by exists t0|]. exists []. by rewrite app_nil_r. }
  destruct IH as [(t1 & Ht1 & Hm1 & Hd1 & Hl1) [L HL]]. simpl.
  destruct o as [r|r]; simpl; [|split; [by exists t1|by exists L]].
  split.
  - by apply (stepped_default_ready r dt t1).
  - destruct (stepped_log_grows r dt (foldr (step_object dt) s l))
      as [L' HL'].
    exists (L ++ L'). by rewrite HL', HL, (assoc_L (++)).
Qed.

(** The default task is stepped last, and fires with the delta of the
    dispatch. *)
Lemma dispatched_default_fires (dt : Z) (t0 : Task) (s : Scheduler) :
  wf s → heap s !! 0 = Some t0 → maxdelta t0 = 0%Z → delta t0 = 0%Z →
  limit t0 = (-1)%Z → (0 ≤ dt)%Z →
  ∃ t0' L, heap (dispatched dt s) !! 0 = Some t0'
    ∧ maxdelta t0' = 0%Z ∧ delta t0' = 0%Z
    ∧ log (dispatched dt s) = log s ++ L ++ calls_of (functionStack_ t0') dt.
Proof.
  intros Hwf Ht0 Hm Hd Hl Hdt. unfold dispatched.
  pose proof (wf_default s Hwf) as Hst.
  destruct (taskStack_ s) as [|o l]; [done|]. simpl in Hst. simplify_eq.
  cbn [foldr step_object].
  destruct (foldr_step_default_ready dt l t0 s Ht0 Hm Hd Hl Hdt)
    as [(t1 & Ht1 & Hm1 & Hd1 & Hl1) [L HL]].
  set (sl := foldr (step_object dt) s l) in *.
  unfold stepped. rewrite Ht1.
  destruct (functionStack_ t1) as [|e fs] eqn:Hfs.
  - simpl. exists t1, L. rewrite Hfs. split_and!; try done.
    unfold calls_of. simpl. by rewrite app_nil_r.
  - simpl length. cbn [Nat.eqb].
    destruct (Z.gtb_spec (delta t1) dt); [lia|]. cbv zeta.
    rewrite Hl1. simpl. rewrite list_lookup_alter_eq, Ht1. simpl.
    eexists. exists L. split; [done|]. simpl. rewrite Hfs.
    split_and!; [done|lia|].
    rewrite HL, <- (assoc_L (++)). do 3 f_equal. lia.
Qed.

(** C4, amended. A task holding registrations that is stepped with
    [delta > dt] only has [dt] subtracted from its accumulator and invokes
    nothing.  Otherwise, in a well-formed state and when the callbacks it
    invokes make no call to the scheduler, it invokes every active
    (callable) registration, most recently registered first, with
    [maxdelta + dt - delta], and its accumulator becomes
    [max 0 (maxdelta - (dt - delta))]; so a task of cadence 0 whose
    accumulator is 0 fires, when stepped with a [dt] that is not negative,
    with [dt] itself and keeps cadence and accumulator 0.  Consequently, on
    every [dispatch_] of a delta that is not negative in which no callback
    calls the scheduler, the default task (cadence 0, accumulator 0, no
    fire limit), which is stepped last, invokes the active registrations it
    then holds with the delta of the dispatch, and keeps cadence and
    accumulator 0; it holds the registrations it held before the dispatch
    when no task has a fire limit. *)
Theorem step__accumulates now (r : ref) (dt : Z) (t : Task) (s : Scheduler) :
  heap s !! r = Some t → functionStack_ t ≠ [] →
  ((delta t > dt)%Z →
     step_ now r dt s
     = Normal tt (set_heap (<[r := set_delta (delta t - dt) t]> (heap s)) s))
  ∧ ((delta t ≤ dt)%Z → wf s →
     quiet (functionStack_ t) (maxdelta t + dt - delta t) →
     ∃ s', step_ now r dt s = Normal tt s'
       ∧ log s'
         = log s ++ calls_of (functionStack_ t) (maxdelta t + dt - delta t)
       ∧ delta <$> heap s' !! r
         = Some (Z.max 0 (maxdelta t - (dt - delta t))))
  ∧ (maxdelta t = 0%Z → delta t = 0%Z → (0 ≤ dt)%Z → wf s →
     quiet (functionStack_ t) dt →
     ∃ s', step_ now r dt s = Normal tt s'
       ∧ log s' = log s ++ calls_of (functionStack_ t) dt
       ∧ delta <$> heap s' !! r = Some 0%Z
       ∧ maxdelta <$> heap s' !! r = Some 0%Z)
  ∧ (r = 0 → maxdelta t = 0%Z → delta t = 0%Z → limit t = (-1)%Z →
     (0 ≤ dt)%Z → wf s → inert →
     ∃ s' t' L, dispatch_ now dt s = Normal tt s'
       ∧ heap s' !! 0 = Some t'
       ∧ maxdelta t' = 0%Z ∧ delta t' = 0%Z
       ∧ log s' = log s ++ L ++ calls_of (functionStack_ t') dt
       ∧ (unlimited s → functionStack_ t' = functionStack_ t)).
Proof.
  intros Ht Hne. split_and!.
  - intros Hd. unfold step_.
    rewrite (bind_Normal _ _ s t s) by (unfold deref; by rewrite Ht).
    destruct (length (functionStack_ t) =? 0) eqn:Hlen.
    { apply Nat.eqb_eq, nil_length_inv in Hlen. done. }
    destruct (Z.gtb_spec (delta t) dt) as [_|]; [|lia].
    unfold update_task, modify. do 2 f_equal.
    apply list_eq. intros i. rewrite list_lookup_alter, list_lookup_insert.
    pose proof (lookup_lt_Some _ _ _ Ht).
    destruct (decide (r = i)) as [->|Hne'].
    + rewrite decide_True by done. by rewrite Ht.
    + rewrite decide_False; [done|]. by intros [? _].
  - intros Hd Hwf Hq. exists (stepped r dt s).
    split; [by apply (step__quiet now r dt t)|].
    destruct (stepped_fires r dt t s) as (? & ? & ?); done.
  - intros Hm Hd0 Hdt Hwf Hq. exists (stepped r dt s).
    assert ((maxdelta t + dt - delta t)%Z = dt) as Hdt' by lia.
    split; [apply (step__quiet now r dt t); by rewrite ?Hdt'|].
    destruct (stepped_fires r dt t s) as (Hl & Hdl & Hmx); [done|done|lia|].
    rewrite Hl, Hdl, Hmx, Hdt', Hm, Hd0. split_and!; try done.
    f_equal. lia.
  - intros -> Hm Hd0 Hl Hdt Hwf Hin.
    destruct (dispatched_default_fires dt t s Hwf Ht Hm Hd0 Hl Hdt)
      as (t' & L & Ht' & Hm' & Hd' & Hlog).
    exists (dispatched dt s), t', L. split_and!; try done.
    + by apply dispatch__inert.
    + intros Hu.
      destruct (dispatched_unlimited_heap dt s Hu) as (Hrel & _).
      destruct (Forall2_lookup_l _ _ _ _ _ Hrel Ht) as (t2 & Ht2 & Hfs & _).
      congruence.
Qed.

(** X12. Ticks never add or remove a registration of tasks without a fire
    limit: when no callback re-enters the scheduler, any number of ticks
    leaves every task with the registrations, in their order, the cadence
    and the limit it had, and leaves the scheduler as active, and its clock
    source as armed, as it was. *)
Theorem ticks_keep_unlimited_registrations now (dts : list Z)
    (s : Scheduler) :
  inert → wf s → unlimited s →
  ∃ s', ticks now dts s = Normal tt s'
    ∧ Forall2 same_setup (heap s) (heap s')
    ∧ taskStack_ s' = taskStack_ s
    ∧ active_ s' = active_ s
    ∧ host s' = host s.
Proof.
  intros Hin Hwf Hu. exists (ticked dts s).
  split; [by apply ticks_inert|]. clear Hwf.
  revert s Hu. induction dts as [|dt dts IH]; intros s Hu.
  { split_and!; try done. apply same_setup_refl. }
  rewrite ticked_cons.
  destruct (dispatched_unlimited_heap dt s Hu) as (Hr & Ha & Hh).
  destruct (IH (dispatched dt s)) as (Hr' & Ht' & Ha' & Hh').
  { by eapply unlimited_related. }
  split_and!.
  - by eapply same_setup_trans.
  - by rewrite Ht', dispatched_taskStack_.
  - congruence.
  - congruence.
Qed.

(** *** The invocations of one array *)

Lemma calls_to_app x (l k : list call) :
  calls_to x (l ++ k) = calls_to x l ++ calls_to x k.
Proof. unfold calls_to. apply filter_app. Qed.

Lemma calls_to_calls_of_notin x (fs : list entry) (d : Z) :
  x ∉ e_ref <$> fs → calls_to x (calls_of fs d) = [].
Proof.
  intros Hx. unfold calls_to. apply filter_none. intros k Hk Heq.
  unfold calls_of in Hk. apply list_elem_of_fmap in Hk as (e & -> & He).
  apply elem_of_reverse, list_elem_of_filter in He as [_ He].
  apply Hx. simpl in Heq. subst x. apply list_elem_of_fmap. by exists e.
Qed.

Lemma calls_to_calls_of (e : entry) (fs : list entry) (d : Z) :
  NoDup (e_ref <$> fs) → e ∈ fs →
  calls_to (e_ref e) (calls_of fs d)
  = if fires e then [call_of d e] else [].
Proof.
  induction fs as [|e' fs IH] using rev_ind; intros Hnd He.
  { by apply elem_of_nil in He. }
  rewrite fmap_app in Hnd. apply NoDup_app in Hnd as (Hnd & Hfs & _).
  rewrite calls_of_snoc, calls_to_app.
  apply elem_of_app in He as [He|He].
  - assert (e_ref e' ≠ e_ref e) as Hne.
    { intros Heq. apply (Hfs (e_ref e)).
      - apply list_elem_of_fmap. by exists e.
      - rewrite <- Heq. simpl. left. }
    rewrite IH by done.
    destruct (fires e'); [|done]. unfold calls_to at 1.
    by rewrite filter_cons_False, filter_nil.
  - apply list_elem_of_singleton in He. subst e'.
    rewrite calls_to_calls_of_notin.
    2:{ intros Hin. apply (Hfs _ Hin). simpl. left. }
    rewrite app_nil_r. destruct (fires e); [|done]. unfold calls_to.
    by rewrite filter_cons_True, filter_nil.
Qed.

Lemma elem_of_concat_lookup (h : list Task) (i : nat) (t : Task)
    (e : entry) :
  h !! i = Some t → e ∈ functionStack_ t →
  e ∈ concat (functionStack_ <$> h).
Proof.
  revert i. induction h as [|t0 h IH]; intros i Ht He; [done|].
  rewrite fmap_cons. simpl. apply elem_of_app.
  destruct i as [|i]; simpl in Ht; [left; by simplify_eq|].
  right. by eapply IH.
Qed.

(** No array is registered on two tasks. *)
Lemma refs_apart (h : list Task) (r r' : ref) (t t' : Task) (x : ref) :
  NoDup (e_ref <$> concat (functionStack_ <$> h)) →
  h !! r = Some t → h !! r' = Some t' → r ≠ r' →
  x ∈ e_ref <$> functionStack_ t → x ∉ e_ref <$> functionStack_ t'.
Proof.
  revert r r'. induction h as [|t0 h IH]; intros r r' Hnd Ht Ht' Hne Hx Hx';
    [done|].
  rewrite fmap_cons in Hnd. simpl in Hnd. rewrite fmap_app in Hnd.
  apply NoDup_app in Hnd as (_ & Hsep & Hnd).
  assert (∀ i ti, h !! i = Some ti → x ∈ e_ref <$> functionStack_ ti →
                  x ∈ e_ref <$> concat (functionStack_ <$> h)) as Hin.
  { intros i ti Hi Hxi. apply list_elem_of_fmap in Hxi as (e & -> & He).
    apply list_elem_of_fmap. exists e. split; [done|].
    by apply (elem_of_concat_lookup h i ti). }
  destruct r as [|r], r' as [|r']; simpl in *; simplify_eq.
  - by apply (Hsep x Hx), (Hin r' t').
  - by apply (Hsep x Hx'), (Hin r t).
  - apply (IH r r'); try done. congruence.
Qed.

Lemma calls_to_fired_other (h : list Task) (r r' : ref) (t t' : Task)
    (e : entry) (dt : Z) :
  NoDup (e_ref <$> concat (functionStack_ <$> h)) →
  h !! r = Some t → h !! r' = Some t' → r ≠ r' → e ∈ functionStack_ t →
  calls_to (e_ref e) (fired dt t') = [].
Proof.
  intros Hnd Ht Ht' Hne He. unfold fired.
  destruct (_ =? 0); [done|]. destruct (_ >? _)%Z; [done|].
  apply calls_to_calls_of_notin. apply (refs_apart h r r' t t'); try done.
  apply list_elem_of_fmap. by exists e.
Qed.

(** The tasks of [l] stepped, in a state of tasks without fire limits. *)
Lemma foldr_step_steady (dt : Z) (l : list object) (s : Scheduler) :
  unlimited s → NoDup l → NoDup (e_ref <$> registrations s) →
  length (heap (foldr (step_object dt) s l)) = length (heap s)
  ∧ (∀ r t, heap s !! r = Some t →
       heap (foldr (step_object dt) s l) !! r
       = Some (if decide (TaskObj r ∈ l) then advance dt t else t))
  ∧ ∃ L, log (foldr (step_object dt) s l) = log s ++ L
      ∧ ∀ r t e, heap s !! r = Some t → e ∈ functionStack_ t →
          calls_to (e_ref e) L
          = if decide (TaskObj r ∈ l) then calls_to (e_ref e) (fired dt t)
            else [].
Proof.
  intros Hu Hnd Hrefs. induction l as [|o l IH].
  { simpl. split_and!; [done|done|]. exists []. by rewrite app_nil_r. }
  apply NoDup_cons in Hnd as [Ho Hnd].
  destruct (IH Hnd) as (Hlen & Hheap & L & Hlog & Hcalls). clear IH.
  simpl. set (sl := foldr (step_object dt) s l) in *.
  destruct o as [r'|r']; simpl.
  2:{ split_and!; [done| |].
      - intros r t Ht. rewrite (Hheap r t Ht).
        destruct (decide (TaskObj r ∈ l)) as [Hin|Hin].
        + rewrite decide_True; [done|by right].
        + rewrite decide_False; [done|].
          intros [?|?]%elem_of_cons; [done|by apply Hin].
      - exists L. split; [done|]. intros r t e Ht He.
        rewrite (Hcalls r t e Ht He).
        destruct (decide (TaskObj r ∈ l)) as [Hin|Hin].
        + rewrite decide_True; [done|by right].
        + rewrite decide_False; [done|].
          intros [?|?]%elem_of_cons; [done|by apply Hin]. }
  destruct (heap s !! r') as [t'|] eqn:Ht'.
  2:{ assert (heap sl !! r' = None) as Hnone.
      { apply lookup_ge_None. rewrite Hlen. by apply lookup_ge_None. }
      unfold stepped. rewrite Hnone. split_and!; [done| |].
      - intros r t Ht. rewrite (Hheap r t Ht).
        assert (r ≠ r') by congruence.
        destruct (decide (TaskObj r ∈ l)) as [Hin|Hin].
        + rewrite decide_True; [done|by right].
        + rewrite decide_False; [done|].
          intros [?|?]%elem_of_cons; [congruence|by apply Hin].
      - exists L. split; [done|]. intros r t e Ht He.
        rewrite (Hcalls r t e Ht He).
        assert (r ≠ r') by congruence.
        destruct (decide (TaskObj r ∈ l)) as [Hin|Hin].
        + rewrite decide_True; [done|by right].
        + rewrite decide_False; [done|].
          intros [?|?]%elem_of_cons; [congruence|by apply Hin]. }
  pose proof (Hheap r' t' Ht') as Hsl. rewrite decide_False in Hsl by done.
  assert (limit t' = (-1)%Z) as Hl
    by (unfold unlimited in Hu; by eapply (Forall_lookup_1 _ _ _ _ Hu)).
  rewrite (stepped_unlimited r' dt t' sl Hsl Hl). simpl. split_and!.
  - by rewrite length_alter.
  - intros r t Ht. destruct (decide (r = r')) as [->|Hne].
    + rewrite list_lookup_alter_eq, Hsl. simpl.
      rewrite decide_True by left. congruence.
    + rewrite list_lookup_alter_ne by done. rewrite (Hheap r t Ht).
      destruct (decide (TaskObj r ∈ l)) as [Hin|Hin].
      * rewrite decide_True; [done|by right].
      * rewrite decide_False; [done|].
        intros [?|?]%elem_of_cons; [congruence|by apply Hin].
  - exists (L ++ fired dt t'). split; [by rewrite Hlog, (assoc_L (++))|].
    intros r t e Ht He. rewrite calls_to_app, (Hcalls r t e Ht He).
    destruct (decide (r = r')) as [->|Hne].
    + rewrite decide_False by done. rewrite decide_True by left.
      simpl. congruence.
    + rewrite (calls_to_fired_other (heap s) r r' t t') by done.
      rewrite app_nil_r.
      destruct (decide (TaskObj r ∈ l)) as [Hin|Hin].
      * rewrite decide_True; [done|by right].
      * rewrite decide_False; [done|].
        intros [?|?]%elem_of_cons; [congruence|by apply Hin].
Qed.

Lemma same_setup_stacks (h h' : list Task) :
  Forall2 same_setup h h' → functionStack_ <$> h' = functionStack_ <$> h.
Proof.
  induction 1 as [|t t' h h' (Hfs & _) _ IH]; [done|].
  rewrite !fmap_cons. by rewrite Hfs, IH.
Qed.

Lemma steady_wf s : steady s → wf s.
Proof. by intros (? & _). Qed.

Lemma steady_frame (s s' : Scheduler) :
  heap s' = heap s → taskStack_ s' = taskStack_ s →
  next_entry s' = next_entry s → steady s → steady s'.
Proof.
  intros Hh Ht Hn (Hwf & Hu & Hst & Hrefs). unfold steady, unlimited,
    registrations in *. rewrite Hh, Ht. split_and!; try done.
  by eapply wf_congr.
Qed.

Lemma steady_dispatched (dt : Z) (s : Scheduler) :
  steady s → steady (dispatched dt s).
Proof.
  intros (Hwf & Hu & Hst & Hrefs).
  destruct (dispatched_unlimited_heap dt s Hu) as (Hr & _).
  split_and!.
  - by apply wf_dispatched.
  - by eapply unlimited_related.
  - by rewrite dispatched_taskStack_.
  - unfold registrations. by rewrite (same_setup_stacks _ _ Hr).
Qed.

(** One dispatch seen from one registration, in a steady state. *)
Lemma dispatched_steady (dt : Z) (r : ref) (t : Task) (e : entry)
    (s : Scheduler) :
  steady s → heap s !! r = Some t → e ∈ functionStack_ t →
  fires e = true →
  heap (dispatched dt s) !! r = Some (advance dt t)
  ∧ ∃ L, log (dispatched dt s) = log s ++ L
      ∧ calls_to (e_ref e) L
        = if (delta t >? dt)%Z then []
          else [call_of (maxdelta t + dt - delta t) e].
Proof.
  intros (Hwf & Hu & Hst & Hrefs) Ht He Hf.
  destruct (foldr_step_steady dt (taskStack_ s) s Hu Hst Hrefs)
    as (_ & Hheap & L & Hlog & Hcalls).
  fold (dispatched dt s) in *.
  assert (TaskObj r ∈ taskStack_ s) as Hin.
  { pose proof (wf_listed s Hwf) as Hl. rewrite Forall_forall in Hl.
    destruct (Hl r) as [Hin|Hemp].
    - apply elem_of_seq. apply lookup_lt_Some in Ht. lia.
    - done.
    - rewrite Ht in Hemp. rewrite Hemp in He. by apply elem_of_nil in He. }
  split.
  - rewrite (Hheap r t Ht). by rewrite decide_True.
  - exists L. split; [done|]. rewrite (Hcalls r t e Ht He).
    rewrite decide_True by done. unfold fired.
    destruct (functionStack_ t) as [|e0 fs] eqn:Hfs;
      [by apply elem_of_nil in He|]. simpl.
    destruct (delta t >? dt)%Z; [done|].
    rewrite <- Hfs in *. rewrite calls_to_calls_of, Hf; [done| |done].
    by eapply (Forall_lookup_1 _ _ _ _ (wf_NoDup s Hwf)).
Qed.

Lemma steady_toggled director value (s : Scheduler) :
  steady s → steady (toggled director value s).
Proof.
  intros (Hwf & Hu & Hst & Hrefs). split_and!.
  - by apply wf_toggled.
  - unfold unlimited, toggled. simpl. apply Forall_fmap.
    eapply Forall_impl; [exact Hu|]. done.
  - done.
  - rewrite registrations_toggled, <- list_fmap_compose.
    rewrite (list_fmap_ext (e_ref ∘ toggle director value) e_ref); [done|].
    intros i e _. apply toggle_ref.
Qed.

Lemma dispatched_next_entry (dt : Z) (s : Scheduler) :
  next_entry (dispatched dt s) = next_entry s.
Proof.
  unfold dispatched. induction (taskStack_ s) as [|o l IH]; [done|].
  simpl. destruct o; simpl; [|done]. by rewrite stepped_next_entry.
Qed.


Lemma stepTimer__inert now (s : Scheduler) :
  inert → wf s →
  stepTimer_ now s
  = Normal tt
      (set_lastRunTime_ now (dispatched (stepTimer_delta now s) s)).
Proof.
  intros Hin Hwf. unfold stepTimer_.
  rewrite (bind_Normal _ _ s (stepTimer_delta now s) s) by done.
  by rewrite (bind_Normal _ _ _ _ _ (dispatch__inert now _ s Hin Hwf)).
Qed.

Lemma last_cons_default (x : Z) (l : list Z) (d d' : Z) :
  List.last (x :: l) d = List.last (x :: l) d'.
Proof.
  revert x. induction l as [|y l IH]; intros x; [done|]. apply (IH y).
Qed.

Lemma elapsed_gaps (a : Z) (times : list Z) :
  elapsed (gaps a times) = (List.last times a - a)%Z.
Proof.
  revert a. induction times as [|t times IH]; intros a; [simpl; lia|].
  cbn [gaps elapsed foldr]. fold (elapsed (gaps t times)). rewrite IH.
  destruct times as [|t' times]; [simpl; lia|].
  change (List.last (t :: t' :: times) a) with (List.last (t' :: times) a).
  rewrite (last_cons_default t' times a t). lia.
Qed.

Lemma timer_ticks_default (times : list Z) (e : entry) (t0 : Task)
    (s : Scheduler) :
  inert → steady s → heap s !! 0 = Some t0 →
  maxdelta t0 = 0%Z → delta t0 = 0%Z →
  e ∈ functionStack_ t0 → fires e = true →
  increasing (lastRunTime_ s) times →
  ∃ s' L, run (timer_ticks times) s = Normal tt s'
    ∧ log s' = log s ++ L
    ∧ calls_to (e_ref e) L
      = (λ d, call_of d e) <$> gaps (lastRunTime_ s) times
    ∧ lastRunTime_ s' = List.last times (lastRunTime_ s).
Proof.
  intros Hin. revert t0 s.
  induction times as [|t times IH]; intros t0 s Hs Ht0 Hm Hd He Hf Hinc.
  { exists s, []. by rewrite app_nil_r. }
  destruct Hinc as [Hle Hinc].
  set (dt := (t - lastRunTime_ s)%Z).
  assert (stepTimer_delta t s = dt) as Hdt
    by by apply stepTimer_delta_after.
  set (s1 := set_lastRunTime_ t (dispatched dt s)).
  assert (enter t TimerTick s = Normal tt s1) as Hs1.
  { simpl. rewrite (stepTimer__inert t s Hin (steady_wf s Hs)).
    by rewrite Hdt. }
  destruct (dispatched_steady dt 0 t0 e s Hs Ht0 He Hf)
    as (Ht1 & L1 & Hlog1 & Hcalls1).
  assert (steady s1) as Hsteady1.
  { apply (steady_frame (dispatched dt s)); [done..|].
    by apply steady_dispatched. }
  assert ((delta t0 >? dt)%Z = false) as Hgt by (unfold dt; lia).
  rewrite Hgt in Hcalls1.
  destruct (IH (advance dt t0) s1) as (s' & L2 & Hs' & Hlog' & Hcalls' & Hl');
    try done.
  { by rewrite advance_maxdelta. }
  { unfold advance. rewrite Hgt.
    destruct (length (functionStack_ t0) =? 0); [done|]. simpl.
    unfold dt. lia. }
  { by rewrite advance_functionStack_. }
  exists s', (L1 ++ L2). split_and!.
  - change (timer_ticks (t :: times))
      with ((t, TimerTick) :: timer_ticks times).
    cbn [run]. by rewrite (bind_Normal _ _ _ _ _ Hs1).
  - rewrite Hlog'. unfold s1. simpl. by rewrite Hlog1, (assoc_L (++)).
  - rewrite calls_to_app, Hcalls1, Hcalls'. simpl. do 2 f_equal.
    unfold dt. lia.
  - rewrite Hl'. unfold s1. cbn [lastRunTime_ set_lastRunTime_].
    destruct times as [|t' times]; [done|].
    change (List.last (t :: t' :: times) (lastRunTime_ s))
      with (List.last (t' :: times) (lastRunTime_ s)).
    apply last_cons_default.
Qed.

(** X13. The interval timer firing at clock readings that do not go back,
    in a state of tasks without fire limits whose callbacks leave the
    scheduler alone: a callback registered on the default task (cadence 0)
    is invoked once per tick, with the time since the previous tick (since
    [lastRunTime_] for the first), whatever other tasks there are.  The
    deltas it is given add up to the time between [lastRunTime_] at the
    start and at the end: no time is lost or counted twice. *)
Theorem timer_ticks_per_frame (times : list Z) (e : entry) (t0 : Task)
    (s : Scheduler) :
  inert → steady s → heap s !! 0 = Some t0 →
  maxdelta t0 = 0%Z → delta t0 = 0%Z →
  e ∈ functionStack_ t0 → fires e = true →
  increasing (lastRunTime_ s) times →
  ∃ s', run (timer_ticks times) s = Normal tt s'
    ∧ calls_to (e_ref e) (since s s')
      = (λ d, call_of d e) <$> gaps (lastRunTime_ s) times
    ∧ elapsed (call_arg <$> calls_to (e_ref e) (since s s'))
      = (lastRunTime_ s' - lastRunTime_ s)%Z.
Proof.
  intros Hin Hs Ht0 Hm Hd He Hf Hinc.
  destruct (timer_ticks_default times e t0 s Hin Hs Ht0 Hm Hd He Hf Hinc)
    as (s' & L & Hs' & Hlog & Hcalls & Hlast).
  assert (since s s' = L) as Hsince.
  { unfold since. by rewrite Hlog, drop_app_length. }
  exists s'. rewrite Hsince. split_and!; [done|done|].
  rewrite Hcalls, Hlast, <- elapsed_gaps. f_equal.
  rewrite <- list_fmap_compose. apply list_fmap_id.
Qed.

(** *** The cadence of a repeating task *)

Lemma phase_step (m q dt : Z) :
  (0 < m)%Z → (0 ≤ q < m)%Z → (0 ≤ dt ≤ m)%Z →
  ((q + dt < m)%Z ∧ ((q + dt) / m = 0)%Z ∧ ((q + dt) `mod` m = q + dt)%Z)
  ∨ ((m ≤ q + dt)%Z ∧ ((q + dt) / m = 1)%Z
     ∧ ((q + dt) `mod` m = q + dt - m)%Z).
Proof.
  intros Hm Hq Hdt. destruct (decide (q + dt < m)%Z) as [Hlt|Hge].
  - left. split; [done|]. split.
    + apply Z.div_small. lia.
    + apply Z.mod_small. lia.
  - right. split; [lia|].
    assert ((q + dt) / m = 1)%Z as Hdiv.
    { symmetry. apply (Z.div_unique_pos _ _ _ (q + dt - m)); lia. }
    split; [done|].
    pose proof (Z.div_mod (q + dt) m ltac:(lia)) as Hdm.
    rewrite Hdiv in Hdm. lia.
Qed.

Lemma phase_add (m x y : Z) :
  (0 < m)%Z →
  (x / m + (x `mod` m + y) / m = (x + y) / m)%Z
  ∧ ((x `mod` m + y) `mod` m = (x + y) `mod` m)%Z.
Proof.
  intros Hm. split.
  - rewrite <- Z.div_add_l by lia. f_equal.
    pose proof (Z.div_mod x m ltac:(lia)). lia.
  - by rewrite Zplus_mod_idemp_l.
Qed.

Lemma ticked_cadence (dts : list Z) (r : ref) (t : Task) (e : entry)
    (q : Z) (s : Scheduler) :
  steady s → heap s !! r = Some t → e ∈ functionStack_ t →
  fires e = true → (0 < maxdelta t)%Z → (0 ≤ q < maxdelta t)%Z →
  delta t = (maxdelta t - q)%Z →
  Forall (λ dt, (0 ≤ dt ≤ maxdelta t)%Z) dts →
  ∃ t' L, heap (ticked dts s) !! r = Some t'
    ∧ delta t' = (maxdelta t - (q + elapsed dts) `mod` maxdelta t)%Z
    ∧ log (ticked dts s) = log s ++ L
    ∧ Z.of_nat (length (calls_to (e_ref e) L))
      = ((q + elapsed dts) / maxdelta t)%Z.
Proof.
  revert t q s.
  induction dts as [|dt dts IH]; intros t q s Hs Ht He Hf Hm Hq Hd Hdts.
  { exists t, []. simpl. rewrite Z.add_0_r, app_nil_r.
    rewrite Z.mod_small, Z.div_small by lia. by split_and!. }
  apply Forall_cons in Hdts as [Hdt Hdts]. rewrite ticked_cons.
  destruct (dispatched_steady dt r t e s Hs Ht He Hf)
    as (Ht1 & L1 & Hlog1 & Hcalls1).
  assert (functionStack_ t ≠ []) as Hne
    by (intros Hnil; rewrite Hnil in He; by apply elem_of_nil in He).
  assert (delta (advance dt t)
          = (maxdelta t - (q + dt) `mod` maxdelta t)%Z
          ∧ Z.of_nat (length (calls_to (e_ref e) L1))
            = ((q + dt) / maxdelta t)%Z) as [Hd1 Hn1].
  { rewrite Hcalls1. unfold advance.
    destruct (functionStack_ t) as [|e0 fs]; [done|]. simpl.
    destruct (phase_step (maxdelta t) q dt Hm Hq Hdt)
      as [(Hlt & -> & ->)|(Hge & -> & ->)].
    - destruct (Z.gtb_spec (delta t) dt); [|lia]. simpl. split; lia.
    - destruct (Z.gtb_spec (delta t) dt); [lia|]. simpl. split; lia. }
  destruct (IH (advance dt t) ((q + dt) `mod` maxdelta t)%Z
              (dispatched dt s)) as (t' & L2 & Ht' & Hd' & Hlog' & Hn');
    try done.
  { by apply steady_dispatched. }
  { by rewrite advance_functionStack_. }
  { by rewrite advance_maxdelta. }
  { rewrite advance_maxdelta. by apply Z.mod_pos_bound. }
  { by rewrite advance_maxdelta. }
  { by rewrite advance_maxdelta. }
  rewrite advance_maxdelta in *.
  destruct (phase_add (maxdelta t) (q + dt) (elapsed dts) Hm) as [Hdiv Hmod].
  exists t', (L1 ++ L2). cbn [elapsed foldr]. fold (elapsed dts).
  rewrite (Z.add_assoc q dt). split_and!.
  - done.
  - by rewrite Hd', Hmod.
  - by rewrite Hlog', Hlog1, (assoc_L (++)).
  - rewrite calls_to_app, length_app, Nat2Z.inj_add, Hn1, Hn'. done.
Qed.

(** X14. A repeating task keeps its cadence.  In a state of tasks without
    fire limits whose callbacks leave the scheduler alone, take a task of
    cadence [m > 0] whose accumulator is full (as [new Task] leaves it)
    and ticks with deltas between 0 and [m]: after the ticks a callback of
    the task has been invoked [T / m] times, [T] being the time elapsed
    (the quotient rounded down), and the accumulator holds what is left to
    the next multiple of [m].  A tick that comes late does not delay the
    invocations after it. *)
Theorem cadence_is_kept now (dts : list Z) (r : ref) (t : Task) (e : entry)
    (s : Scheduler) :
  inert → steady s → heap s !! r = Some t → e ∈ functionStack_ t →
  fires e = true → (0 < maxdelta t)%Z → delta t = maxdelta t →
  Forall (λ dt, (0 ≤ dt ≤ maxdelta t)%Z) dts →
  ∃ s' t', ticks now dts s = Normal tt s'
    ∧ heap s' !! r = Some t'
    ∧ Z.of_nat (length (calls_to (e_ref e) (since s s')))
      = (elapsed dts / maxdelta t)%Z
    ∧ delta t' = (maxdelta t - elapsed dts `mod` maxdelta t)%Z.
Proof.
  intros Hin Hs Ht He Hf Hm Hd Hdts.
  destruct (ticked_cadence dts r t e 0 s Hs Ht He Hf Hm)
    as (t' & L & Ht' & Hd' & Hlog & Hn); [lia|lia|done|].
  exists (ticked dts s), t'. split_and!.
  - apply ticks_inert; [done|by apply steady_wf].
  - done.
  - unfold since. by rewrite Hlog, drop_app_length, Hn.
  - by rewrite Hd'.
Qed.

(** ** Fire limits *)

Lemma calls_of_single x f c (d : Z) :
  isFunction f = true →
  calls_of [Entry x true f c] d = [Call x f c d].
Proof.
  intros Hf. unfold calls_of. rewrite filter_cons_True; [done|].
  unfold fires. simpl. by rewrite Hf.
Qed.

Lemma stepped_counting_waits x f c (n : ref) delay a k m (dt : Z) s :
  counting x f c n delay a k m s → (a > dt)%Z →
  counting x f c n delay (a - dt) k m (stepped n dt s).
Proof.
  intros (Hn & Hap & Hc) Ha. unfold stepped. rewrite Hn. simpl.
  destruct (Z.gtb_spec a dt); [|lia]. split_and!.
  - simpl. by rewrite list_lookup_alter_eq, Hn.
  - intros r t Ht Hne. simpl in Ht.
    rewrite list_lookup_alter_ne in Ht by done. by apply (Hap r).
  - done.
Qed.

Lemma stepped_counting_fires x f c (n : ref) delay a k m (dt : Z) s :
  isFunction f = true →
  counting x f c n delay a k m s → (a ≤ dt)%Z → k ≠ 1%Z →
  counting x f c n delay (Z.max 0 (delay - (dt - a))) (count_down k) (S m)
    (stepped n dt s).
Proof.
  intros Hf (Hn & Hap & Hc) Ha Hk. unfold stepped, count_down.
  rewrite Hn. simpl.
  destruct (Z.gtb_spec a dt); [lia|].
  rewrite (calls_of_single x f c _ Hf).
  assert (length (calls_to x (log s ++ [Call x f c (delay + dt - a)]))
          = S m) as Hlen.
  { rewrite calls_to_app, length_app, Hc. unfold calls_to.
    rewrite filter_cons_True by done. simpl. lia. }
  destruct (k =? -1)%Z eqn:Hk1.
  - apply Z.eqb_eq in Hk1. subst k. split_and!.
    + simpl. by rewrite list_lookup_alter_eq, Hn.
    + intros r t Ht Hne. simpl in Ht.
      rewrite list_lookup_alter_ne in Ht by done. by apply (Hap r).
    + done.
  - destruct (Z.eqb_spec (k - 1) 0); [lia|]. split_and!.
    + simpl. by rewrite !list_lookup_alter_eq, Hn.
    + intros r t Ht Hne. simpl in Ht.
      rewrite !list_lookup_alter_ne in Ht by done. by apply (Hap r).
    + done.
Qed.

Lemma stepped_counting_ends x f c (n : ref) delay a m (dt : Z) s :
  isFunction f = true →
  counting x f c n delay a 1 m s → (a ≤ dt)%Z →
  spent x f c n (S m) (stepped n dt s).
Proof.
  intros Hf (Hn & Hap & Hc) Ha.
  destruct (stepped_pending_fires x f c n delay a (calls_to x (log s)) dt s
              Hf) as (Hn' & Hap' & Hg & Hc'); [by split_and!|done|].
  split_and!; [done|done|done|].
  rewrite Hc', length_app, Hc. simpl. lia.
Qed.

(** One tick, with [n] the last task of the stack. *)
Section fire_limit.
Context (x : ref) (f : callback) (c : ref) (n : ref) (delay : Z)
  (stack0 : list object).
Hypothesis Hf : isFunction f = true.
Hypothesis Hstack0 : TaskObj n ∉ stack0.

Lemma foldr_step_counting a k m dt s :
  counting x f c n delay a k m s →
  counting x f c n delay a k m (foldr (step_object dt) s stack0).
Proof using Hstack0.
  intros (Hn & Hap & Hc).
  destruct (foldr_step_other x f c n dt stack0 _ _ Hstack0 Hap Hn)
    as (? & ? & Hc').
  { repeat constructor. apply same_pair_refl. }
  split_and!; [done|done|]. by rewrite Hc'.
Qed.

Lemma dispatched_counting a k m dt s :
  taskStack_ s = stack0 ++ [TaskObj n] →
  counting x f c n delay a k m s →
  (∃ a', counting x f c n delay a' k m (dispatched dt s))
  ∨ (k ≠ 1%Z
     ∧ ∃ a', counting x f c n delay a' (count_down k) (S m)
               (dispatched dt s))
  ∨ (k = 1%Z ∧ spent x f c n (S m) (dispatched dt s)).
Proof using Hf Hstack0.
  intros Hst Hp. unfold dispatched. rewrite Hst, foldr_app. simpl.
  destruct (Z.gtb_spec a dt) as [Ha|Ha].
  - left. exists (a - dt)%Z. apply foldr_step_counting.
    apply stepped_counting_waits; [done|lia].
  - destruct (decide (k = 1%Z)) as [->|Hk].
    + right. right. split; [done|].
      destruct (stepped_counting_ends x f c n delay a m dt s Hf Hp Ha)
        as ((Tn & Hn & Hfs) & Hap & Hg & Hc).
      destruct (foldr_step_other x f c n dt stack0 _ _ Hstack0 Hap Hn)
        as (? & ? & Hc').
      { rewrite Hfs. constructor. }
      split_and!; [by exists Tn|done|by apply foldr_step_gone|].
      by rewrite Hc'.
    + right. left. split; [done|]. eexists. apply foldr_step_counting.
      by apply stepped_counting_fires.
Qed.

Lemma dispatched_spent m dt s :
  taskStack_ s = stack0 ++ [TaskObj n] →
  spent x f c n m s → spent x f c n m (dispatched dt s).
Proof using Hstack0.
  intros Hst ((Tn & Hn & Hfs) & Hap & Hg & Hc).
  unfold dispatched. rewrite Hst, foldr_app. simpl.
  rewrite (stepped_empty n dt s Tn) by done.
  destruct (foldr_step_other x f c n dt stack0 _ _ Hstack0 Hap Hn)
    as (? & ? & Hc').
  { rewrite Hfs. constructor. }
  split_and!; [by exists Tn|done|by apply foldr_step_gone|].
  by rewrite Hc'.
Qed.

(** A fire limit of [k0] at least 1: [j] invocations made, [k0 - j] to
    come, or all made and the registration gone. *)
Lemma ticked_bounded (k0 b : nat) dts s :
  taskStack_ s = stack0 ++ [TaskObj n] →
  (∃ a j, j < k0
        ∧ counting x f c n delay a (Z.of_nat k0 - Z.of_nat j) (b + j) s)
  ∨ spent x f c n (b + k0) s →
  (∃ a j, j < k0
        ∧ counting x f c n delay a (Z.of_nat k0 - Z.of_nat j) (b + j)
            (ticked dts s))
  ∨ spent x f c n (b + k0) (ticked dts s).
Proof using Hf Hstack0.
  revert s. induction dts as [|dt dts IH]; intros s Hst Hs; [done|].
  rewrite ticked_cons. apply IH; [by rewrite dispatched_taskStack_|].
  destruct Hs as [(a & j & Hj & Hp)|Hsp].
  - destruct (dispatched_counting a _ _ dt s Hst Hp)
      as [[a' Hp']|[(Hk & a' & Hp')|(Hk & Hsp)]].
    + left. by exists a', j.
    + left. exists a', (S j). split; [lia|].
      unfold count_down in Hp'.
      destruct (Z.eqb_spec (Z.of_nat k0 - Z.of_nat j) (-1)); [lia|].
      replace (Z.of_nat k0 - Z.of_nat (S j))%Z
        with (Z.of_nat k0 - Z.of_nat j - 1)%Z by lia.
      by replace (b + S j) with (S (b + j)) by lia.
    + right. by replace (b + k0) with (S (b + j)) by lia.
  - right. by apply dispatched_spent.
Qed.

(** A fire limit of 0 or less is never used up. *)
Lemma ticked_unbounded a k m dts s :
  taskStack_ s = stack0 ++ [TaskObj n] → (k ≤ 0)%Z →
  counting x f c n delay a k m s →
  ∃ a' k' m', (k' ≤ 0)%Z
    ∧ counting x f c n delay a' k' m' (ticked dts s).
Proof using Hf Hstack0.
  revert a k m s. induction dts as [|dt dts IH]; intros a k m s Hst Hk Hp.
  { by exists a, k, m. }
  rewrite ticked_cons.
  destruct (dispatched_counting a k m dt s Hst Hp)
    as [[a' Hp']|[(_ & a' & Hp')|(Hk1 & _)]]; [| |lia].
  - by apply (IH a' k m); [rewrite dispatched_taskStack_|..].
  - apply (IH a' (count_down k) (S m));
      [by rewrite dispatched_taskStack_| |done].
    unfold count_down. destruct (k =? -1)%Z; lia.
Qed.

End fire_limit.

(** The state [scheduleWithDelay] leaves, seen from the new task. *)
Lemma delayed_counting now f c delay (k : Z) (s : Scheduler) :
  wf s →
  (∀ t, t ∈ heap s → limit t ≠ (-1)%Z →
        Forall (keeps f c) (functionStack_ t)) →
  counting (next_entry s) f c (length (heap s)) delay delay k
    (length (calls_to (next_entry s) (log s)))
    (delayed now f c delay (Some k) s).
Proof.
  intros Hwf Hlim. split_and!; [|intros r t Ht Hne|].
  - by rewrite delayed_heap, list_lookup_middle.
  - rewrite delayed_heap in Ht.
    assert (heap s !! r = Some t) as Ht0.
    { destruct (decide (r < length (heap s)));
        [by rewrite lookup_app_l in Ht|].
      apply lookup_lt_Some in Ht. rewrite length_app in Ht. cbn in Ht. lia. }
    split.
    + pose proof (Forall_lookup_1 _ _ _ _ (wf_fresh s Hwf) Ht0) as Hfr.
      eapply Forall_impl; [exact Hfr|]. cbn. lia.
    + apply Hlim. by eapply list_elem_of_lookup_2.
  - by rewrite delayed_log.
Qed.

Lemma since_length_calls x (s s' : Scheduler) :
  (∃ L, log s' = log s ++ L) →
  length (calls_to x (log s'))
  = length (calls_to x (log s)) + length (calls_to x (since s s')).
Proof.
  intros [L HL]. unfold since. rewrite HL, drop_app_length.
  by rewrite calls_to_app, length_app.
Qed.

(** X15. [scheduleWithDelay(f, context, delay, k)] with a fire limit
    [k >= 1], when no callback re-enters the scheduler, [f] is a function
    and no task with a fire limit already holds [(f, context)]: whatever
    ticks follow, the new registration is invoked [k] times at most; it
    stays registered as long as it has been invoked less than [k] times,
    and once it has been invoked [k] times no task holds [(f, context)]. *)
Theorem fire_limit_bounds_invocations now f c delay (k : nat)
    (dts : list Z) (s : Scheduler) :
  inert → wf s → isFunction f = true → 0 < k →
  (∀ t, t ∈ heap s → limit t ≠ (-1)%Z →
        Forall (keeps f c) (functionStack_ t)) →
  ∃ s1 s',
    scheduleWithDelay now f c delay (Some (Z.of_nat k)) s = Normal tt s1
    ∧ ticks now dts s1 = Normal tt s'
    ∧ length (calls_to (next_entry s) (since s1 s')) ≤ k
    ∧ (length (calls_to (next_entry s) (since s1 s')) < k →
       Entry (next_entry s) true f c ∈ registrations s')
    ∧ (length (calls_to (next_entry s) (since s1 s')) = k →
       Forall (keeps f c) (registrations s')).
Proof.
  intros Hin Hwf Hf Hk Hlim.
  set (x := next_entry s). set (n := length (heap s)).
  set (s1 := delayed now f c delay (Some (Z.of_nat k)) s).
  set (b := length (calls_to x (log s))).
  assert (scheduleWithDelay now f c delay (Some (Z.of_nat k)) s
          = Normal tt s1) as Hs1
    by exact (scheduleWithDelay_spec now f c delay _ s Hwf).
  assert (wf s1) as Hwf1 by exact (wf_delayed now f c delay _ s Hwf).
  assert (taskStack_ s1 = taskStack_ s ++ [TaskObj n]) as Hst1
    by exact (delayed_taskStack_ now f c delay _ s Hwf).
  assert (TaskObj n ∉ taskStack_ s) as Hn
    by exact (fresh_task_not_listed s Hwf).
  assert (counting x f c n delay delay (Z.of_nat k) b s1) as Hp
    by exact (delayed_counting now f c delay _ s Hwf Hlim).
  assert (length (calls_to x (log s1)) = b) as Hb by by destruct Hp as (_&_&?).
  clearbody s1.
  pose proof (since_length_calls x s1 (ticked dts s1)
                (ticked_log_grows dts s1)) as Hlen.
  rewrite Hb in Hlen.
  exists s1, (ticked dts s1). split; [done|].
  split; [by apply ticks_inert|].
  destruct (ticked_bounded x f c n delay (taskStack_ s) Hf Hn k b dts s1 Hst1)
    as [(a & j & Hj & Hn' & _ & Hc)|(_ & _ & Hg & Hc)].
  { left. exists delay, 0. split; [done|].
    by rewrite Z.sub_0_r, Nat.add_0_r. }
  - assert (length (calls_to x (since s1 (ticked dts s1))) = j) as -> by lia.
    split_and!; [lia| |lia]. intros _.
    apply (elem_of_registrations _ n _ _ Hn'). simpl. left.
  - assert (length (calls_to x (since s1 (ticked dts s1))) = k) as -> by lia.
    split_and!; [lia|lia|]. intros _. by apply registrations_gone.
Qed.

(** X16. A fire limit of 0 or less limits nothing: the count is
    decremented before it is compared with 0, so it never reaches it (and
    a limit of 0 becomes -1, the mark of a task without limit, at the first
    firing).  Whatever ticks follow [scheduleWithDelay] with such a limit,
    or with none, the registration is still there after them (when no
    callback re-enters the scheduler, [f] is a function and no task with a
    fire limit already holds [(f, context)]). *)
Theorem nonpositive_limit_never_ends now f c delay (opt_limit : option Z)
    (dts : list Z) (s : Scheduler) :
  inert → wf s → isFunction f = true →
  (∀ l, opt_limit = Some l → (l ≤ 0)%Z) →
  (∀ t, t ∈ heap s → limit t ≠ (-1)%Z →
        Forall (keeps f c) (functionStack_ t)) →
  ∃ s1 s',
    scheduleWithDelay now f c delay opt_limit s = Normal tt s1
    ∧ ticks now dts s1 = Normal tt s'
    ∧ Entry (next_entry s) true f c ∈ registrations s'.
Proof.
  intros Hin Hwf Hf Hl Hlim.
  set (k := match opt_limit with Some l => l | None => (-1)%Z end).
  assert (k ≤ 0)%Z as Hk.
  { unfold k. destruct opt_limit as [l|]; [by apply Hl|lia]. }
  set (x := next_entry s). set (n := length (heap s)).
  set (s1 := delayed now f c delay opt_limit s).
  assert (s1 = delayed now f c delay (Some k) s) as Hs1k.
  { unfold s1, k. by destruct opt_limit. }
  assert (scheduleWithDelay now f c delay opt_limit s = Normal tt s1) as Hs1
    by exact (scheduleWithDelay_spec now f c delay _ s Hwf).
  assert (wf s1) as Hwf1 by exact (wf_delayed now f c delay _ s Hwf).
  assert (taskStack_ s1 = taskStack_ s ++ [TaskObj n]) as Hst1
    by exact (delayed_taskStack_ now f c delay _ s Hwf).
  assert (TaskObj n ∉ taskStack_ s) as Hn
    by exact (fresh_task_not_listed s Hwf).
  assert (counting x f c n delay delay k
            (length (calls_to x (log s))) s1) as Hp.
  { rewrite Hs1k. exact (delayed_counting now f c delay _ s Hwf Hlim). }
  clearbody s1.
  exists s1, (ticked dts s1). split; [done|].
  split; [by apply ticks_inert|].
  destruct (ticked_unbounded x f c n delay (taskStack_ s) Hf Hn _ _ _ dts s1
              Hst1 Hk Hp) as (a' & k' & m' & _ & Hn' & _).
  apply (elem_of_registrations _ n _ _ Hn'). simpl. left.
Qed.

(** ** The frame handlers *)

(** *** A frame stamped before the previous one *)

Lemma step__waits now (r : ref) (dt : Z) (t : Task) (s : Scheduler) :
  heap s !! r = Some t → (dt < delta t)%Z →
  step_ now r dt s
  = Normal tt
      (if length (functionStack_ t) =? 0 then s
       else set_heap (alter (set_delta (delta t - dt)) r (heap s)) s).
Proof.
  intros Ht Hd. unfold step_.
  rewrite (bind_Normal _ _ s t s) by (unfold deref; by rewrite Ht).
  destruct (length (functionStack_ t) =? 0); [done|].
  by destruct (Z.gtb_spec (delta t) dt); [|lia].
Qed.

Lemma pushed_up_trans (h1 h2 h3 : list Task) :
  Forall2 (λ t t', same_setup t t' ∧ (delta t ≤ delta t')%Z) h1 h2 →
  Forall2 (λ t t', same_setup t t' ∧ (delta t ≤ delta t')%Z) h2 h3 →
  Forall2 (λ t t', same_setup t t' ∧ (delta t ≤ delta t')%Z) h1 h3.
Proof.
  intros H12. revert h3. induction H12 as [|t1 t2 h1 h2 Ht _ IH];
    intros h3 H23; [by inversion H23|].
  inversion H23 as [|? t3 ? h3' Ht' H23']; subst. constructor; [|by apply IH].
  destruct Ht as ((? & ? & ?) & ?), Ht' as ((? & ? & ?) & ?).
  unfold same_setup. split_and!; (congruence || lia).
Qed.

(** With a negative delta and no negative accumulator, the loop of
    [dispatch_] only pushes accumulators up. *)
Lemma dispatch_loop_backwards now dt (i : nat) (s : Scheduler) :
  (dt < 0)%Z → wf s → Forall (λ t, (0 ≤ delta t)%Z) (heap s) →
  i ≤ length (taskStack_ s) →
  ∃ h, dispatch_loop now dt i s = Normal tt (set_heap h s)
    ∧ Forall2 (λ t t', same_setup t t' ∧ (delta t ≤ delta t')%Z) (heap s) h.
Proof.
  intros Hdt. revert s. induction i as [|i IH]; intros s Hwf Hpos Hi.
  { exists (heap s). split; [by destruct s|].
    apply Forall_Forall2_diag, Forall_forall. intros t _.
    split; [done|lia]. }
  destruct (lookup_lt_is_Some_2 (taskStack_ s) i) as [o Ho]; [lia|].
  pose proof (Forall_lookup_1 _ _ _ _ (wf_stack s Hwf) Ho) as Hr.
  destruct o as [r|r]; [|done]. simpl in Hr.
  destruct (lookup_lt_is_Some_2 (heap s) r) as [t Ht]; [done|].
  pose proof (Forall_lookup_1 _ _ _ _ Hpos Ht) as Ht0. simpl in Ht0.
  cbn [dispatch_loop].
  rewrite (bind_Normal _ _ s (Some (TaskObj r)) s)
    by (unfold gets; by rewrite Ho).
  rewrite (bind_Normal _ _ _ _ _ (step__waits now r dt t s Ht ltac:(lia))).
  destruct (length (functionStack_ t) =? 0); [by apply IH; [..|lia]|].
  set (s1 := set_heap (alter (set_delta (delta t - dt)) r (heap s)) s).
  assert (Forall2 (λ t t', same_setup t t' ∧ (delta t ≤ delta t')%Z)
            (heap s) (heap s1)) as Hrel.
  { unfold s1. simpl. apply Forall2_alter_r.
    - apply Forall_Forall2_diag, Forall_forall. intros t' _.
      split; [done|lia].
    - intros t1 t2 Ht1 _ [Hsame Hle]. simplify_eq.
      split; [done|]. simpl. lia. }
  destruct (IH s1) as (h & Hh & Hrel').
  - apply wf_alter; [apply shrinks_set_delta|done].
  - apply Forall_forall. intros t' Ht'.
    apply list_elem_of_lookup in Ht' as [j Hj].
    destruct (Forall2_lookup_r _ _ _ _ _ Hrel Hj) as (t1 & Ht1 & _ & Hle).
    pose proof (Forall_lookup_1 _ _ _ _ Hpos Ht1). simpl in *. lia.
  - unfold s1. simpl. lia.
  - exists h. split; [by rewrite Hh|]. by eapply pushed_up_trans.
Qed.

Lemma dispatch__backwards now dt (s : Scheduler) :
  (dt < 0)%Z → wf s → Forall (λ t, (0 ≤ delta t)%Z) (heap s) →
  ∃ h, dispatch_ now dt s = Normal tt (set_heap h s)
    ∧ Forall2 (λ t t', same_setup t t' ∧ (delta t ≤ delta t')%Z) (heap s) h.
Proof.
  intros Hdt Hwf Hpos. unfold dispatch_.
  rewrite (bind_Normal _ _ s (length (taskStack_ s)) s) by done.
  by apply dispatch_loop_backwards.
Qed.

(** X17. The frame handlers hand the measured time to [dispatch_] as it
    is, also when it is negative ([stepTimer_] alone replaces it).  On a
    frame stamped before [lastRunTime_], in the window that offers the
    handler's interface and with no accumulator negative, no callback is
    invoked and no registration, cadence or limit changes; the accumulators
    are only pushed up, the earlier stamp becomes [lastRunTime_] and the
    next frame is requested. *)
Theorem backwards_frame_invokes_nothing now (time : Z) (s : Scheduler) :
  wf s → Forall (λ t, (0 ≤ delta t)%Z) (heap s) →
  (time < lastRunTime_ s)%Z →
  ∃ h,
    Forall2 (λ t t', same_setup t t' ∧ (delta t ≤ delta t')%Z) (heap s) h
    ∧ (USE_ANIMATION_FRAME = Some Moz →
       beforePaintHandler_ now time s
       = Normal tt
           (moz_frame_requested (set_lastRunTime_ time (set_heap h s))))
    ∧ (USE_ANIMATION_FRAME = Some Webkit →
       animationFrameHandler_ now time s
       = Normal tt
           (set_host (Some WebkitAnimationFrame)
              (set_lastRunTime_ time (set_heap h s)))).
Proof.
  intros Hwf Hpos Hlt.
  destruct (dispatch__backwards now (time - lastRunTime_ s) s)
    as (h & Hh & Hrel); [lia|done|done|].
  exists h. split_and!; [done|..].
  - intros Hm. by apply beforePaintHandler__served.
  - intros Hw. by apply animationFrameHandler__served.
Qed.

(** *** A frame in which the last registration leaves *)

Lemma dispatch__last_leaves now (dt : Z) (e : entry) (t0 : Task)
    (s : Scheduler) :
  default_only s → heap s = [t0] → functionStack_ t0 = [e] →
  fires e = true →
  (∀ d, body (e_fn e) (e_ctx e) d = [Unschedule (e_fn e) (e_ctx e)]) →
  (delta t0 ≤ dt)%Z →
  ∃ s1, dispatch_ now dt s = Normal tt s1
    ∧ log s1 = log s ++ [call_of (maxdelta t0 + dt - delta t0) e]
    ∧ registrations s1 = []
    ∧ active_ s1 = false
    ∧ host s1 = None.
Proof.
  intros (Hwf & Hst & t0' & Hheap' & Hl & Hact) Hheap Hfs Hf Hb Hd.
  rewrite Hheap in Hheap'. simplify_eq.
  assert (active_ s = true) as Ha by (apply Hact; by rewrite Hfs).
  unfold dispatch_.
  rewrite (bind_Normal _ _ s 1 s) by (unfold gets; by rewrite Hst).
  cbn [dispatch_loop].
  rewrite (bind_Normal _ _ s (Some (TaskObj 0)) s)
    by (unfold gets; by rewrite Hst).
  set (d' := (maxdelta t0' + dt - delta t0')%Z).
  set (g := set_delta
              (if (maxdelta t0' - (dt - delta t0') <? 0)%Z then 0%Z
               else (maxdelta t0' - (dt - delta t0'))%Z)).
  set (sA := set_heap [g t0'] s).
  set (sB := set_log (log s ++ [call_of d' e]) sA).
  assert (wf sB) as HwfB.
  { apply wf_set_log. unfold sA.
    replace [g t0'] with (alter g 0 (heap s)) by by rewrite Hheap.
    apply wf_alter; [|done]. intros t. apply shrinks_set_delta. }
  set (sC := unscheduled (e_fn e) (e_ctx e) sB).
  assert (heap sC = [set_functionStack_ [] (g t0')]) as HheapC.
  { unfold sC. rewrite unscheduled_heap. simpl. f_equal.
    unfold remove_pair. simpl. rewrite Hfs.
    rewrite filter_cons_False, filter_nil; [done|].
    unfold keeps, same_pair. by rewrite !bool_decide_eq_true_2. }
  assert (active_ sC = false ∧ host sC = None ∧ log sC = log sB)
    as (HaC & HhC & HlC).
  { unfold sC, unscheduled, stops. simpl. rewrite Hst, Hfs. simpl.
    rewrite filter_cons_False, filter_nil.
    - simpl. by rewrite Ha.
    - unfold keeps, same_pair. by rewrite !bool_decide_eq_true_2. }
  assert (step_ now 0 dt s = Normal tt sC) as Hstep.
  { unfold step_.
    rewrite (bind_Normal _ _ s t0' s) by (unfold deref; by rewrite Hheap).
    rewrite Hfs. change (length [e]) with 1. change (1 =? 0) with false.
    destruct (Z.gtb_spec (delta t0') dt); [lia|]. cbv beta iota zeta.
    rewrite (bind_Normal _ _ s tt sA).
    2:{ unfold update_task, modify, sA. by rewrite Hheap. }
    rewrite (bind_Normal _ _ sA (Some e) sC).
    2:{ cbn [step_loop].
        rewrite (bind_Normal _ _ sA (g t0') sA) by done.
        assert (functionStack_ (g t0') !! 0 = Some e) as ->
          by (unfold g; simpl; by rewrite Hfs).
        unfold fires in Hf. rewrite Hf.
        rewrite (bind_Normal _ _ sA tt sC); [done|].
        unfold invoke. rewrite (bind_Normal _ _ sA tt sB) by done.
        rewrite Hb.
        change (perform_all now [Unschedule (e_fn e) (e_ctx e)])
          with (unschedule (e_fn e) (e_ctx e) ≫= λ _, ret tt).
        by rewrite (bind_Normal _ _ _ _ _
                      (unschedule_spec (e_fn e) (e_ctx e) sB HwfB)). }
    rewrite (bind_Normal _ _ sC (set_functionStack_ [] (g t0')) sC)
      by (unfold deref; by rewrite HheapC).
    simpl. by rewrite Hl. }
  rewrite (bind_Normal _ _ _ _ _ Hstep).
  exists sC. split_and!; [done| |..|done|done].
  - by rewrite HlC.
  - unfold registrations. by rewrite HheapC.
Qed.


(** ** One dispatch, task by task *)

Lemma foldr_step_steady_log (dt : Z) (l : list object) (s : Scheduler) :
  unlimited s → NoDup l → NoDup (e_ref <$> registrations s) →
  log (foldr (step_object dt) s l)
  = log s ++ concat (fired_by dt s <$> reverse l).
Proof.
  intros Hu Hnd Hrefs. induction l as [|o l IH].
  { simpl. by rewrite app_nil_r. }
  apply NoDup_cons in Hnd as [Ho Hnd].
  destruct (foldr_step_steady dt l s Hu Hnd Hrefs) as (Hlen & Hheap & _).
  specialize (IH Hnd).
  rewrite reverse_cons, fmap_app, concat_app. simpl. rewrite app_nil_r.
  set (sl := foldr (step_object dt) s l) in *.
  rewrite (assoc_L (++)), <- IH.
  destruct o as [r'|r']; simpl; [|by rewrite app_nil_r].
  destruct (heap s !! r') as [t'|] eqn:Ht'.
  - pose proof (Hheap r' t' Ht') as Hsl.
    rewrite decide_False in Hsl by done.
    assert (limit t' = (-1)%Z) as Hl
      by (unfold unlimited in Hu; by eapply (Forall_lookup_1 _ _ _ _ Hu)).
    by rewrite (stepped_unlimited r' dt t' sl Hsl Hl).
  - assert (heap sl !! r' = None) as Hnone.
    { apply lookup_ge_None. rewrite Hlen. by apply lookup_ge_None. }
    unfold stepped. by rewrite Hnone, app_nil_r.
Qed.

Lemma advance_empty dt t : functionStack_ t = [] → advance dt t = t.
Proof. intros Hfs. unfold advance. by rewrite Hfs. Qed.

(** X21. One dispatch in a state of tasks without fire limits, when no
    callback re-enters the scheduler: the tasks of [taskStack_] are stepped
    last first, so that the invocations are those of the last task, then
    those of the task before it, and so on down to the default task, each
    task invoking its active registrations last registered first with
    [maxdelta + dt - delta] when its accumulator is reached; and every task
    is left with the accumulator its own step gives it. *)
Theorem dispatch_steps_tasks_last_first now (dt : Z) (s : Scheduler) :
  inert → steady s →
  ∃ s', dispatch_ now dt s = Normal tt s'
    ∧ since s s' = tick_calls dt s
    ∧ heap s' = advance dt <$> heap s.
Proof.
  intros Hin (Hwf & Hu & Hst & Hrefs). exists (dispatched dt s).
  split; [by apply dispatch__inert|].
  destruct (foldr_step_steady dt (taskStack_ s) s Hu Hst Hrefs)
    as (Hlen & Hheap & _).
  pose proof (foldr_step_steady_log dt (taskStack_ s) s Hu Hst Hrefs) as Hlog.
  fold (dispatched dt s) in *. split.
  - unfold since, tick_calls. by rewrite Hlog, drop_app_length.
  - apply list_eq. intros r. rewrite list_lookup_fmap.
    destruct (heap s !! r) as [t|] eqn:Ht.
    + rewrite (Hheap r t Ht). simpl. f_equal.
      destruct (decide (TaskObj r ∈ taskStack_ s)) as [Hin'|Hout]; [done|].
      symmetry. apply advance_empty.
      pose proof (wf_listed s Hwf) as Hl. rewrite Forall_forall in Hl.
      destruct (Hl r) as [?|Hemp]; [|done|by rewrite Ht in Hemp].
      apply elem_of_seq. apply lookup_lt_Some in Ht. lia.
    + simpl. apply lookup_ge_None. rewrite Hlen. by apply lookup_ge_None.
Qed.

(** ** Paused registrations *)

Lemma calls_of_paused (fs : list entry) (d : Z) :
  Forall (λ e, e_active e = false) fs → calls_of fs d = [].
Proof.
  intros Hp. unfold calls_of. rewrite filter_none; [done|].
  intros e He Hf. rewrite Forall_forall in Hp. specialize (Hp e He).
  unfold fires in Hf. rewrite Hp in Hf. done.
Qed.

(** X22. A paused registration still uses up the fire limit of its task.
    On a firing step of a task with a fire limit whose registrations are
    all switched off ([f[0]] false, as [changeDirectorActivity] leaves
    them), nothing is invoked, yet the accumulator starts again and the
    limit goes down by one; when the limit was 1, the pair at index 0 is
    unscheduled from every task: a paused one-shot is dropped without ever
    having been invoked. *)
Theorem paused_step_uses_fire_limit now (r : ref) (dt : Z) (t : Task)
    (e : entry) (s : Scheduler) :
  wf s → heap s !! r = Some t → functionStack_ t !! 0 = Some e →
  Forall (λ e, e_active e = false) (functionStack_ t) →
  (delta t ≤ dt)%Z → limit t ≠ (-1)%Z →
  ∃ s' t', step_ now r dt s = Normal tt s'
    ∧ log s' = log s
    ∧ heap s' !! r = Some t'
    ∧ limit t' = (limit t - 1)%Z
    ∧ delta t' = Z.max 0 (maxdelta t - (dt - delta t))
    ∧ (limit t = 1%Z → Forall (keeps (e_fn e) (e_ctx e)) (registrations s')).
Proof.
  intros Hwf Ht He Hp Hd Hl. exists (stepped r dt s).
  rewrite (step__quiet now r dt t) by
    (try done; intros e' He' Hf; rewrite Forall_forall in Hp;
     specialize (Hp e' He'); unfold fires in Hf; by rewrite Hp in Hf).
  unfold stepped. rewrite Ht.
  destruct (length (functionStack_ t) =? 0) eqn:Hlen.
  { apply Nat.eqb_eq, nil_length_inv in Hlen. by rewrite Hlen in He. }
  destruct (Z.gtb_spec (delta t) dt) as [|_]; [lia|].
  cbv zeta. destruct (Z.eqb_spec (limit t) (-1)) as [|_]; [done|].
  rewrite (calls_of_paused _ _ Hp), app_nil_r.
  unfold torn_down. rewrite He.
  destruct (Z.eqb_spec (limit t - 1) 0) as [H0|H0].
  - eexists. split_and!; [done| | | | |].
    + by rewrite unscheduled_log.
    + rewrite unscheduled_heap. simpl.
      by rewrite list_lookup_fmap, !list_lookup_alter_eq, Ht.
    + done.
    + done.
    + intros _. apply registrations_gone. intros r' t' Ht'.
      rewrite unscheduled_heap, list_lookup_fmap in Ht'.
      destruct (_ !! r') as [t0|]; simplify_eq/=.
      apply keeps_filter_gone.
  - eexists. split_and!; [done|done| | | |intros; lia].
    + simpl. by rewrite !list_lookup_alter_eq, Ht.
    + done.
    + done.
Qed.

(** ** Distinct objects *)

Lemma concat_shrinks (h h' : list Task) :
  Forall2 (λ t t', functionStack_ t' `sublist_of` functionStack_ t) h h' →
  concat (functionStack_ <$> h') `sublist_of` concat (functionStack_ <$> h).
Proof.
  induction 1 as [|t t' h h' Ht _ IH]; [done|].
  rewrite !fmap_cons. simpl. by apply sublist_app.
Qed.

Lemma distinct_shrinks (s s' : Scheduler) :
  taskStack_ s' = taskStack_ s →
  Forall2 (λ t t', functionStack_ t' `sublist_of` functionStack_ t)
    (heap s) (heap s') →
  distinct s → distinct s'.
Proof.
  intros Hst Hh [Hnd Hrefs]. split; [by rewrite Hst|].
  eapply sublist_NoDup; [exact Hrefs|].
  apply fmap_sublist. by apply concat_shrinks.
Qed.

Lemma distinct_frame (s s' : Scheduler) :
  heap s' = heap s → taskStack_ s' = taskStack_ s →
  distinct s → distinct s'.
Proof. unfold distinct, registrations. by intros -> ->. Qed.

Lemma concat_push (h : list Task) (r : ref) (e : entry) :
  r < length h →
  concat (functionStack_ <$> alter (push_entry e) r h)
  ≡ₚ e :: concat (functionStack_ <$> h).
Proof.
  revert r. induction h as [|t h IH]; intros r Hr; [simpl in Hr; lia|].
  destruct r as [|r].
  - change (alter (push_entry e) 0 (t :: h)) with (push_entry e t :: h).
    rewrite !fmap_cons. cbn [concat push_entry functionStack_
                              set_functionStack_].
    rewrite <- (assoc_L (++)). cbn [app].
    by rewrite <- Permutation_middle.
  - change (alter (push_entry e) (S r) (t :: h))
      with (t :: alter (push_entry e) r h).
    rewrite !fmap_cons. cbn [concat].
    rewrite IH by (simpl in Hr; lia).
    by rewrite <- Permutation_middle.
Qed.

Lemma distinct_scheduled now f c (r : ref) (s : Scheduler) :
  wf s → r < length (heap s) → distinct s →
  distinct (scheduled now f c r s).
Proof.
  intros Hwf Hr [Hnd Hrefs]. unfold distinct, registrations, scheduled.
  rewrite activated_taskStack_, activated_heap. simpl. split.
  - destruct (decide (TaskObj r ∈ taskStack_ s)).
    + by rewrite insert_present.
    + rewrite insert_absent by done. apply NoDup_app. split_and!; [done| |].
      * intros o Ho Ho'. apply list_elem_of_singleton in Ho'. by subst.
      * apply NoDup_singleton.
  - rewrite concat_push by done. rewrite fmap_cons. simpl.
    apply NoDup_cons. split; [|done].
    intros Hin. apply list_elem_of_fmap in Hin as (e & Heq & He).
    unfold registrations in He.
    assert (∃ r' t', heap s !! r' = Some t' ∧ e ∈ functionStack_ t')
      as (r' & t' & Ht' & He').
    { clear -He. induction (heap s) as [|t h IH]; [by apply elem_of_nil in He|].
      rewrite fmap_cons in He. simpl in He.
      apply elem_of_app in He as [He|He].
      - by exists 0, t.
      - destruct (IH He) as (r' & t' & ? & ?). by exists (S r'), t'. }
    pose proof (Forall_lookup_1 _ _ _ _ (wf_fresh s Hwf) Ht') as Hfr.
    simpl in Hfr. rewrite Forall_forall in Hfr. specialize (Hfr e He'). lia.
Qed.

Lemma distinct_delayed now f c delay opt_limit (s : Scheduler) :
  wf s → distinct s → distinct (delayed now f c delay opt_limit s).
Proof.
  intros Hwf Hd. unfold delayed.
  apply distinct_scheduled.
  - by apply wf_new_Task.
  - simpl. rewrite length_app. simpl. lia.
  - destruct Hd as [Hnd Hrefs]. split; [done|].
    unfold registrations. simpl.
    rewrite fmap_app, concat_app. simpl. by rewrite app_nil_r.
Qed.

Lemma distinct_stepped (r : ref) (dt : Z) (s : Scheduler) :
  distinct s → distinct (stepped r dt s).
Proof.
  apply distinct_shrinks; [apply stepped_taskStack_|].
  apply Forall2_same_length_lookup_2.
  - by rewrite stepped_heap_length.
  - intros i t t' Ht Ht'.
    destruct (stepped_sublist r i dt s t' Ht') as (t0 & Ht0 & Hsub).
    by simplify_eq.
Qed.

Lemma distinct_dispatched (dt : Z) (s : Scheduler) :
  distinct s → distinct (dispatched dt s).
Proof.
  intros Hd. unfold dispatched.
  induction (taskStack_ s) as [|o l IH]; [done|]. simpl.
  destruct o; [by apply distinct_stepped|done].
Qed.

Lemma perform_distinct now (a : action) (s s' : Scheduler) :
  wf s → distinct s →
  match a with Schedule _ _ (Some r) => r < length (heap s) | _ => True end →
  perform now a s = Normal tt s' → distinct s'.
Proof.
  intros Hwf Hd Hlive.
  destruct a as [f c o|f c|f c d l|f c d|d v|v|m l]; simpl.
  - assert (target o < length (heap s)) as Hr.
    { destruct o as [r|]; [done|]. simpl.
      destruct (wf_lookup_default s Hwf) as [t Ht].
      by eapply lookup_lt_Some. }
    rewrite schedule_spec by done. intros [= <-].
    by apply distinct_scheduled.
  - rewrite unschedule_spec by done. intros [= <-].
    eapply distinct_shrinks; [apply unscheduled_taskStack_| |done].
    rewrite unscheduled_heap. apply Forall2_fmap_r, Forall_Forall2_diag.
    apply Forall_forall. intros t _. apply sublist_filter.
  - rewrite (scheduleWithDelay_spec now f c d l s Hwf). intros [= <-].
    by apply distinct_delayed.
  - unfold callAfter.
    rewrite (scheduleWithDelay_spec now f c d (Some 1%Z) s Hwf).
    intros [= <-]. by apply distinct_delayed.
  - rewrite changeDirectorActivity_spec by done. intros [= <-].
    destruct Hd as [Hnd Hrefs]. split; [done|].
    rewrite registrations_toggled, <- list_fmap_compose.
    rewrite (list_fmap_ext (e_ref ∘ toggle d v) e_ref); [done|].
    intros i e _. apply toggle_ref.
  - rewrite setDisplayRate_spec. intros [= <-].
    apply (distinct_frame s); [| |done];
      unfold activated, disabled, armed;
      destruct (active_ s) eqn:Ha; simpl; rewrite ?Ha; simpl;
      try done; by destruct USE_ANIMATION_FRAME as [[]|].
  - intros [= <-]. destruct Hd as [Hnd Hrefs]. split; [done|].
    unfold registrations. simpl.
    rewrite fmap_app, concat_app. simpl. by rewrite app_nil_r.
Qed.

Lemma enter_distinct now (e : entry_point) (s s' : Scheduler) :
  inert → wf s → distinct s → served e →
  match e with
  | Interface (Schedule _ _ (Some r)) => r < length (heap s)
  | _ => True
  end →
  enter now e s = Normal tt s' → distinct s'.
Proof.
  intros Hin Hwf Hd Hserved Hlive.
  assert (match e with Interface _ => False | _ => True end →
          enter now e s = Normal tt s' → distinct s') as Htick.
  { intros Htick.
    destruct (enter_tick now e s Hserved Htick) as (dt & g & Hrun & Hg).
    rewrite (Hrun _ (dispatch__inert now dt s Hin Hwf)). intros [= <-].
    destruct (Hg (dispatched dt s)) as (? & ? & _).
    apply (distinct_frame (dispatched dt s)); [done..|].
    by apply distinct_dispatched. }
  destruct e as [a| | |]; [|by apply Htick..].
  by apply perform_distinct.
Qed.

(** X23. Pairs can be registered several times, objects cannot.  When no
    callback re-enters the scheduler, every state a run of calls and of
    ticks of the handlers the window serves reaches from a state with
    distinct objects lists no Task twice on [taskStack_]
    ([goog.array.insert] finds a Task that is there) and holds no array
    [[1, f, context]] twice, so that the [goog.array.remove] of
    [unschedule] removes the array it was given. *)
Theorem run_keeps_objects_distinct (l : list (Z * entry_point))
    (s : Scheduler) :
  inert → wf s → distinct s → served_run l →
  live_run (length (heap s)) l →
  ∃ s', run l s = Normal tt s' ∧ distinct s'.
Proof.
  intros Hin. revert s.
  induction l as [|[now e] l IH]; intros s Hwf Hd Hserved Hlive.
  - by exists s.
  - destruct Hlive as [He Hl]. apply Forall_cons in Hserved as [Hse Hserved].
    destruct (enter_ok now e s Hin Hwf Hse He)
      as (s1 & Hs1 & Hwf1 & _ & Hh1).
    pose proof (enter_distinct now e s s1 Hin Hwf Hd Hse He Hs1) as Hd1.
    rewrite <- Hh1 in Hl.
    destruct (IH s1 Hwf1 Hd1 Hserved Hl) as (s' & Hs' & Hd').
    exists s'. split; [|done].
    simpl. by rewrite (bind_Normal _ _ _ _ _ Hs1).
Qed.

End Properties.

(** * Concrete runs *)

(** ** Callbacks that leave the scheduler alone *)

Section quiet_runs.

#[local] Existing Instance quiet_host.

Lemma wf_scheduleManager : wf scheduleManager.
Proof. apply (bool_decide_unpack _). by vm_compute. Qed.

Lemma wf_one_registration : wf one_registration.
Proof. apply (bool_decide_unpack _). by vm_compute. Qed.

(** C1. [scheduleWithDelay(f1, ctx, 100)] followed by [unschedule(f1, ctx)]
    removes the last registration of the scheduler, and the scheduler stays
    active with its interval timer armed: the emptied task is still on
    [taskStack_], whose length is 2, so [disable_] is not reached. *)
Theorem unschedule_last_delayed_stays_active :
  ∃ s,
    (scheduleWithDelay 1000 f1 ctx 100 None ≫= λ _, unschedule f1 ctx)
      scheduleManager = Normal tt s
    ∧ registrations s = []
    ∧ active_ s = true
    ∧ host s = Some (Interval 1 (1000 # 30)).
Proof. eexists. split; [by vm_compute|]. by vm_compute. Qed.

(** C2. After [scheduleWithDelay(f1, ctx, 100)] and [unschedule(f1, ctx)]
    the delayed task, which is not the default one and holds no
    registration, is still in [taskStack_]. *)
Theorem unschedule_keeps_empty_task :
  ∃ s t,
    (scheduleWithDelay 1000 f1 ctx 100 None ≫= λ _, unschedule f1 ctx)
      scheduleManager = Normal tt s
    ∧ taskStack_ s = [TaskObj 0; TaskObj 1]
    ∧ heap s !! 1 = Some t
    ∧ functionStack_ t = [].
Proof. do 2 eexists. split; [by vm_compute|]. by vm_compute. Qed.

(** C3. Two consecutive [schedule(f1, ctx)] on the default task leave two
    registrations of the pair in it. *)
Theorem schedule_twice_registers_twice :
  ∃ s t,
    (schedule 1000 f1 ctx None ≫= λ _, schedule 1000 f1 ctx None)
      scheduleManager = Normal tt s
    ∧ heap s !! 0 = Some t
    ∧ functionStack_ t = [Entry 0 true f1 ctx; Entry 1 true f1 ctx].
Proof. do 2 eexists. split; [by vm_compute|]. by vm_compute. Qed.


(** The default task holding [(f1, ctx)], stepped with 16, and a
    dispatch of 16. *)
Lemma step__accumulates_witness :
  (∃ s',
     step_ 1016 0 16 one_registration = Normal tt s'
     ∧ log s' = [Call 0 f1 ctx 16]
     ∧ delta <$> heap s' !! 0 = Some 0%Z
     ∧ maxdelta <$> heap s' !! 0 = Some 0%Z)
  ∧ ∃ s' t' L,
      dispatch_ 1016 16 one_registration = Normal tt s'
      ∧ heap s' !! 0 = Some t'
      ∧ maxdelta t' = 0%Z ∧ delta t' = 0%Z
      ∧ log s' = log one_registration ++ L ++ calls_of (functionStack_ t') 16
      ∧ (unlimited one_registration →
         functionStack_ t' = functionStack_ default_task_one).
Proof.
  destruct (step__accumulates 1016 0 16 default_task_one one_registration)
    as (_ & _ & H & H');
    [reflexivity|discriminate|].
  split.
  - apply H; [reflexivity|reflexivity|lia|apply wf_one_registration|].
    intros e _ _. reflexivity.
  - apply H';
      [reflexivity|reflexivity|reflexivity|reflexivity|lia
      |apply wf_one_registration|].
    intros ? ? ?. reflexivity.
Defined.

(** The first [schedule], at time 1000. *)
Lemma activation_resets_lastRunTime_witness :
  ∃ s',
    schedule 1000 f1 ctx None scheduleManager = Normal tt s'
    ∧ active_ s' = true ∧ lastRunTime_ s' = 1000%Z
    ∧ (∀ curTime,
        stepTimer_ curTime s'
        = (dispatch_ curTime
             (if (curTime - 1000 <? 0)%Z then 1 else curTime - 1000)%Z
           ≫= λ _, modify (set_lastRunTime_ curTime)) s'
        ∧ ((1000 ≤ curTime)%Z →
           stepTimer_delta curTime s' = (curTime - 1000)%Z))
    ∧ (∀ n time,
        animationFrameHandler_ n time s'
        = (dispatch_ n (time - 1000)
           ≫= λ _, modify (set_lastRunTime_ time)
           ≫= λ _, webkitRequestAnimationFrame) s'
        ∧ beforePaintHandler_ n time s'
          = (dispatch_ n (time - 1000)
             ≫= λ _, modify (set_lastRunTime_ time)
             ≫= λ _, mozRequestAnimationFrame) s').
Proof.
  destruct (activation_resets_lastRunTime 1000 f1 ctx None 0 scheduleManager)
    as (H & _).
  apply H; [reflexivity|apply wf_scheduleManager|simpl; lia].
Defined.




(** A task of negative cadence: after [scheduleWithDelay(f1, ctx, -100)]
    two timer ticks 16 ms apart hand [f1] the times 16 and -84. *)
Example negative_cadence_hands_negative_time :
  ∃ s,
    (scheduleWithDelay 1000 f1 ctx (-100) None ≫= λ _,
     stepTimer_ 1016 ≫= λ _, stepTimer_ 1032)
      scheduleManager = Normal tt s
    ∧ log s = [Call 0 f1 ctx 16; Call 0 f1 ctx (-84)].
Proof. eexists. split; by vm_compute. Qed.

(** The scenario of the specification: [f1] on the default task, [f2]
    through [callAfter] with a delay of 1000, 70 ticks of 16 ms: [f1] is
    invoked 70 times, [f2] once (with 1008), and [f2] is then registered
    nowhere; its task is still on [taskStack_]. *)
Example seventy_ticks :
  ∃ s,
    (schedule 0 f1 ctx None ≫= λ _,
     callAfter 0 f2 ctx 1000 ≫= λ _,
     ticks 0 (replicate 70 16%Z))
      scheduleManager = Normal tt s
    ∧ length (filter (λ k, call_fn k = f1) (log s)) = 70
    ∧ filter (λ k, call_fn k = f2) (log s) = [Call 1 f2 ctx 1008]
    ∧ filter (λ e, e_fn e = f2) (registrations s) = []
    ∧ taskStack_ s = [TaskObj 0; TaskObj 1].
Proof. eexists. split_and!; by vm_compute. Qed.

(** *** The interface on concrete states *)

(** [schedule(f2, ctx)] beside [(f1, ctx)]. *)
Lemma schedule_appends_witness :
  ∃ s', schedule 1016 f2 ctx None one_registration = Normal tt s'
    ∧ heap s'
      = [push_entry (Entry 1 true f2 ctx) default_task_one]
    ∧ next_entry s' = 2
    ∧ taskStack_ s' = [TaskObj 0]
    ∧ active_ s' = true
    ∧ log s' = log one_registration
    ∧ wf s'.
Proof.
  exact (schedule_appends 1016 f2 ctx None default_task_one one_registration
           wf_one_registration eq_refl).
Defined.

(** [unschedule(f1, ctx)] of the only registration. *)
Lemma unschedule_filters_witness :
  ∃ s', unschedule f1 ctx one_registration = Normal tt s'
    ∧ Forall2 (λ t t',
         functionStack_ t' = filter (keeps f1 ctx) (functionStack_ t)
         ∧ maxdelta t' = maxdelta t ∧ delta t' = delta t
         ∧ limit t' = limit t)
        (heap one_registration) (heap s')
    ∧ taskStack_ s' = taskStack_ one_registration
    ∧ next_entry s' = next_entry one_registration
    ∧ log s' = log one_registration
    ∧ wf s'
    ∧ unschedule f1 ctx s' = Normal tt s'.
Proof.
  exact (unschedule_filters f1 ctx one_registration wf_one_registration).
Defined.

(** [unschedule(f2, ctx)] when only [(f1, ctx)] is registered. *)
Lemma unschedule_absent_witness :
  unschedule f2 ctx one_registration = Normal tt one_registration.
Proof.
  apply (unschedule_absent f2 ctx one_registration wf_one_registration).
  - repeat constructor.
  - intros _. left. discriminate.
Defined.

(** [schedule(f2, ctx)] then [unschedule(f2, ctx)] beside [(f1, ctx)]. *)
Lemma schedule_unschedule_restores_witness :
  ∃ s1 s2, schedule 1016 f2 ctx None one_registration = Normal tt s1
    ∧ unschedule f2 ctx s1 = Normal tt s2
    ∧ heap s2 = heap one_registration.
Proof.
  apply (schedule_unschedule_restores 1016 f2 ctx None default_task_one
           one_registration wf_one_registration eq_refl).
  repeat constructor.
Defined.

(** [scheduleWithDelay(f2, ctx, 100, 3)] beside [(f1, ctx)]. *)
Lemma scheduleWithDelay_new_task_witness :
  ∃ s', scheduleWithDelay 1016 f2 ctx 100 (Some 3%Z) one_registration
        = Normal tt s'
    ∧ heap s'
      = heap one_registration ++ [mkTask 100 100 3 [Entry 1 true f2 ctx]]
    ∧ taskStack_ s' = [TaskObj 0; TaskObj 1]
    ∧ active_ s' = true
    ∧ log s' = log one_registration
    ∧ wf s'.
Proof.
  exact (scheduleWithDelay_new_task 1016 f2 ctx 100 (Some 3%Z)
           one_registration wf_one_registration).
Defined.

(** [schedule(f2, ctx)] at 1016 on the scheduler started at 1000. *)
Lemma schedule_keeps_clock_witness :
  ∃ s', schedule 1016 f2 ctx None one_registration = Normal tt s'
    ∧ lastRunTime_ s' = 1000%Z
    ∧ host s' = Some (Interval 1 (1000 # 30))
    ∧ intervalID_ s' = 1
    ∧ displayRate_ s' = (1000 # 30)%Q
    ∧ ∀ curTime,
        stepTimer_delta curTime s' = stepTimer_delta curTime one_registration.
Proof.
  exact (schedule_keeps_clock 1016 f2 ctx None default_task_one
           one_registration wf_one_registration eq_refl eq_refl).
Defined.

(** A run of calls and ticks from the initial state. *)
Lemma run_never_throws_witness :
  ∃ s',
    run [(1000%Z, Interface (Schedule f1 ctx None));
         (1000%Z, Interface (NewTask 50%Z None));
         (1001%Z, Interface (Schedule f2 ctx (Some 1)));
         (1002%Z, Interface (CallAfter f3 ctx 40%Z));
         (1016%Z, TimerTick);
         (1020%Z, Interface (Unschedule f2 ctx));
         (1032%Z, TimerTick);
         (1048%Z, TimerTick);
         (1050%Z, Interface (SetDisplayRate (1000 # 60)))]
      scheduleManager = Normal tt s'
    ∧ wf s'
    ∧ taskStack_ scheduleManager `prefix_of` taskStack_ s'
    ∧ taskStack_ s' !! 0 = Some (TaskObj 0).
Proof.
  apply run_never_throws.
  - intros ? ? ?. reflexivity.
  - apply wf_scheduleManager.
  - repeat constructor.
  - simpl. repeat split; lia.
Defined.

(** A run on the default task from the initial state. *)
Lemma default_runs_active_iff_registered_witness :
  ∃ s',
    run [(1000%Z, Interface (Schedule f1 ctx None));
         (1016%Z, TimerTick);
         (1020%Z, Interface (Schedule f2 ctx None));
         (1032%Z, TimerTick);
         (1040%Z, Interface (Unschedule f1 ctx));
         (1041%Z, Interface (Unschedule f2 ctx))]
      scheduleManager = Normal tt s'
    ∧ (active_ s' = true ↔ registrations s' ≠ [])
    ∧ taskStack_ s' = [TaskObj 0].
Proof.
  apply default_runs_active_iff_registered.
  - intros ? ? ?. constructor.
  - repeat constructor.
  - repeat constructor.
Defined.

(** *** Ticks on concrete states *)

Lemma steady_with_repeating : steady with_repeating.
Proof. apply (bool_decide_unpack _). by vm_compute. Qed.

Lemma wf_with_limited : wf with_limited.
Proof. apply (bool_decide_unpack _). by vm_compute. Qed.

(** Two ticks of 16 on [(f1, ctx)] and the repeating [(f2, ctx)]. *)
Lemma ticks_keep_unlimited_registrations_witness :
  ∃ s', ticks 1016 [16; 16]%Z with_repeating = Normal tt s'
    ∧ Forall2 same_setup (heap with_repeating) (heap s')
    ∧ taskStack_ s' = taskStack_ with_repeating
    ∧ active_ s' = active_ with_repeating
    ∧ host s' = host with_repeating.
Proof.
  apply ticks_keep_unlimited_registrations.
  - intros ? ? ?. reflexivity.
  - apply steady_with_repeating.
  - apply steady_with_repeating.
Defined.

(** The timer firing at 1016, 1033 and 1049 after a start at 1000: [f1] is
    given 16, 17 and 16. *)
Lemma timer_ticks_per_frame_witness :
  ∃ s', run (timer_ticks [1016; 1033; 1049]%Z) with_repeating = Normal tt s'
    ∧ calls_to 0 (since with_repeating s')
      = [Call 0 f1 ctx 16; Call 0 f1 ctx 17; Call 0 f1 ctx 16]
    ∧ elapsed (call_arg <$> calls_to 0 (since with_repeating s'))
      = (lastRunTime_ s' - 1000)%Z.
Proof.
  apply (timer_ticks_per_frame [1016; 1033; 1049]%Z (Entry 0 true f1 ctx)
           default_task_one with_repeating).
  - intros ? ? ?. reflexivity.
  - apply steady_with_repeating.
  - reflexivity.
  - reflexivity.
  - reflexivity.
  - left.
  - reflexivity.
  - simpl. lia.
Defined.

(** Seven ticks of 30 on a task of cadence 100: 210 ms, two invocations,
    90 ms to the next one. *)
Lemma cadence_is_kept_witness :
  ∃ s' t', ticks 1000 (replicate 7 30%Z) with_repeating = Normal tt s'
    ∧ heap s' !! 1 = Some t'
    ∧ Z.of_nat (length (calls_to 1 (since with_repeating s')))
      = (elapsed (replicate 7 30) / 100)%Z
    ∧ delta t' = (100 - elapsed (replicate 7 30) `mod` 100)%Z.
Proof.
  apply (cadence_is_kept 1000 (replicate 7 30%Z) 1 repeating_task
           (Entry 1 true f2 ctx) with_repeating).
  - intros ? ? ?. reflexivity.
  - apply steady_with_repeating.
  - reflexivity.
  - left.
  - reflexivity.
  - reflexivity.
  - reflexivity.
  - repeat constructor; simpl; lia.
Defined.

(** [scheduleWithDelay(f2, ctx, 40, 2)] beside [(f1, ctx)] and five ticks
    of 16. *)
Lemma fire_limit_bounds_invocations_witness :
  ∃ s1 s',
    scheduleWithDelay 1000 f2 ctx 40 (Some (Z.of_nat 2)) one_registration
    = Normal tt s1
    ∧ ticks 1000 (replicate 5 16%Z) s1 = Normal tt s'
    ∧ length (calls_to 1 (since s1 s')) ≤ 2
    ∧ (length (calls_to 1 (since s1 s')) < 2 →
       Entry 1 true f2 ctx ∈ registrations s')
    ∧ (length (calls_to 1 (since s1 s')) = 2 →
       Forall (keeps f2 ctx) (registrations s')).
Proof.
  apply (fire_limit_bounds_invocations 1000 f2 ctx 40 2 (replicate 5 16%Z)
           one_registration).
  - intros ? ? ?. reflexivity.
  - apply wf_one_registration.
  - reflexivity.
  - lia.
  - intros t Ht Hl. vm_compute in Ht.
    apply list_elem_of_singleton in Ht. subst t. vm_compute in Hl. done.
Defined.

(** [scheduleWithDelay(f2, ctx, 40, 0)] beside [(f1, ctx)] and five ticks
    of 16. *)
Lemma nonpositive_limit_never_ends_witness :
  ∃ s1 s',
    scheduleWithDelay 1000 f2 ctx 40 (Some 0%Z) one_registration
    = Normal tt s1
    ∧ ticks 1000 (replicate 5 16%Z) s1 = Normal tt s'
    ∧ Entry 1 true f2 ctx ∈ registrations s'.
Proof.
  apply (nonpositive_limit_never_ends 1000 f2 ctx 40 (Some 0%Z)
           (replicate 5 16%Z) one_registration).
  - intros ? ? ?. reflexivity.
  - apply wf_one_registration.
  - reflexivity.
  - intros l Hl. injection Hl as <-. lia.
  - intros t Ht Hl. vm_compute in Ht.
    apply list_elem_of_singleton in Ht. subst t. vm_compute in Hl. done.
Defined.

(** The task of fire limit 3 holding [(f2, ctx)], stepped with its
    cadence. *)
Lemma step__counts_down_witness :
  ∃ s' t', step_ 1040 1 40 with_limited = Normal tt s'
    ∧ heap s' !! 1 = Some t'
    ∧ limit t' = 2%Z
    ∧ functionStack_ t' = [Entry 1 true f2 ctx].
Proof.
  destruct (step__counts_down 1040 1 40 limited_task (Entry 1 true f2 ctx)
              with_limited) as (s' & t' & Hs & Ht & Hl & Hfs & _).
  - apply wf_with_limited.
  - reflexivity.
  - reflexivity.
  - simpl. lia.
  - simpl. lia.
  - intros e _ _. reflexivity.
  - exists s', t'. split_and!; [exact Hs|exact Ht|exact Hl|exact Hfs].
Defined.

(** One dispatch of 100 on [(f1, ctx)] and the repeating [(f2, ctx)]: the
    repeating task, last on the stack, is invoked first. *)
Lemma dispatch_steps_tasks_last_first_witness :
  ∃ s', dispatch_ 1100 100 with_repeating = Normal tt s'
    ∧ since with_repeating s' = [Call 1 f2 ctx 100; Call 0 f1 ctx 100]
    ∧ heap s' = advance 100 <$> heap with_repeating.
Proof.
  apply (dispatch_steps_tasks_last_first 1100 100 with_repeating).
  - intros ? ? ?. reflexivity.
  - apply steady_with_repeating.
Defined.

(** A run of calls and ticks from the initial state. *)
Lemma run_keeps_objects_distinct_witness :
  ∃ s',
    run [(1000%Z, Interface (Schedule f1 ctx None));
         (1000%Z, Interface (Schedule f1 ctx None));
         (1000%Z, Interface (NewTask 50%Z None));
         (1001%Z, Interface (Schedule f2 ctx (Some 1)));
         (1001%Z, Interface (Schedule f3 ctx (Some 1)));
         (1002%Z, Interface (CallAfter f3 ctx 40%Z));
         (1016%Z, TimerTick);
         (1020%Z, Interface (Unschedule f2 ctx));
         (1048%Z, TimerTick)]
      scheduleManager = Normal tt s'
    ∧ distinct s'.
Proof.
  apply run_keeps_objects_distinct.
  - intros ? ? ?. reflexivity.
  - apply wf_scheduleManager.
  - apply (bool_decide_unpack _). by vm_compute.
  - repeat constructor.
  - simpl. repeat split; lia.
Defined.

End quiet_runs.

(** ** A callback that empties its task *)

Section clearing_runs.

#[local] Existing Instance clearing_host.

(** C6. A task of limit 1 holding [(f1, ctx)] and [(f2, ctx)], where [f2]
    unschedules both when invoked: on the firing tick [f2] runs, the loop
    then reads [undefined] at index 0, the limit reaches 0 and
    [unschedule(f[1], f[2])] raises a TypeError. *)
Theorem limit_teardown_on_emptied_task_throws :
  ∃ s t,
    (new_Task 100 (Some 1%Z) ≫= λ r,
       schedule 1000 f1 ctx (Some r) ≫= λ _,
       schedule 1000 f2 ctx (Some r) ≫= λ _,
       dispatch_ 1100 100)
      scheduleManager = TypeError s
    ∧ heap s !! 1 = Some t
    ∧ functionStack_ t = []
    ∧ limit t = 0%Z
    ∧ log s = [Call 1 f2 ctx 100].
Proof. do 2 eexists. split; [by vm_compute|]. by vm_compute. Qed.

End clearing_runs.

(** ** A callback that unschedules itself *)

Section leaving_runs.

#[local] Existing Instance leaving_host.

(** C9. The default task holds, in order of registration, [(f1, ctx)],
    [(f2, ctx)], [(f1, ctx)] again and [(f3, ctx)]; [f1] unschedules itself
    when invoked.  In one tick [f3] is invoked twice. *)
Theorem self_unschedule_repeats_other :
  ∃ s,
    (schedule 1000 f1 ctx None ≫= λ _,
     schedule 1000 f2 ctx None ≫= λ _,
     schedule 1000 f1 ctx None ≫= λ _,
     schedule 1000 f3 ctx None ≫= λ _,
     dispatch_ 1016 16)
      scheduleManager = Normal tt s
    ∧ log s = [Call 3 f3 ctx 16; Call 2 f1 ctx 16;
               Call 3 f3 ctx 16; Call 1 f2 ctx 16].
Proof. eexists. split; by vm_compute. Qed.

(** A task of limit 1 with a single callback that unschedules itself: the
    teardown finds nothing left to remove and the tick ends normally. *)
Example limit_teardown_after_self_unschedule :
  ∃ s,
    (new_Task 100 (Some 1%Z) ≫= λ r,
       schedule 1000 f1 ctx (Some r) ≫= λ _,
       dispatch_ 1100 100)
      scheduleManager = Normal tt s
    ∧ registrations s = []
    ∧ log s = [Call 0 f1 ctx 100].
Proof. eexists. split_and!; by vm_compute. Qed.

Lemma wf_two_leaving : wf two_leaving.
Proof. apply (bool_decide_unpack _). by vm_compute. Qed.

(** [(f1, ctx)], which unschedules itself, and [(f2, ctx)] on the default
    task: both are invoked, [f2] first. *)
Lemma step__self_unschedule_witness :
  ∃ s', step_ 1016 0 16 two_leaving = Normal tt s'
    ∧ log s' = [Call 1 f2 ctx 16; Call 0 f1 ctx 16].
Proof.
  apply (step__self_unschedule 1016 0 16 two_leaving_task two_leaving).
  - apply wf_two_leaving.
  - reflexivity.
  - discriminate.
  - simpl. lia.
  - apply (bool_decide_unpack _). by vm_compute.
  - intros e He _.
    apply elem_of_cons in He as [->|He]; [by right|].
    apply list_elem_of_singleton in He as ->. by left.
Defined.

End leaving_runs.

(** ** Contexts with a director *)

Section directed_runs.

#[local] Existing Instance directed_host.

Lemma wf_two_groups : wf two_groups.
Proof. apply (bool_decide_unpack _). by vm_compute. Qed.

Lemma steady_two_groups : steady two_groups.
Proof. apply (bool_decide_unpack _). by vm_compute. Qed.


(** The pause at work: of [f1] (director 100) and [f2], only [f2] is
    invoked on the tick after [changeDirectorActivity(100, false)], and both
    on the tick after [changeDirectorActivity(100, true)]. *)
Example pause_then_resume :
  ∃ s1 s2,
    (changeDirectorActivity 100 false ≫= λ _, dispatch_ 1016 16) two_groups
    = Normal tt s1
    ∧ log s1 = [Call 1 f2 8 16]
    ∧ (changeDirectorActivity 100 true ≫= λ _, dispatch_ 1032 16) s1
      = Normal tt s2
    ∧ log s2 = [Call 1 f2 8 16; Call 1 f2 8 16; Call 0 f1 7 16].
Proof. do 2 eexists. split_and!; by vm_compute. Qed.


(** Directors 100 and 200 on [(f1, 7)] and [(f2, 8)]. *)
Lemma changeDirectorActivity_composes_witness :
  (changeDirectorActivity 100 false ≫= λ _, changeDirectorActivity 100 true)
    two_groups
  = changeDirectorActivity 100 true two_groups
  ∧ (changeDirectorActivity 100 false ≫= λ _,
     changeDirectorActivity 200 true) two_groups
    = (changeDirectorActivity 200 true ≫= λ _,
       changeDirectorActivity 100 false) two_groups.
Proof.
  destruct (changeDirectorActivity_composes 100 200 false true two_groups
              wf_two_groups) as (H1 & H2 & _).
  split; [exact H1|]. apply H2. discriminate.
Defined.

Lemma wf_paused_one_shot : wf paused_one_shot.
Proof. apply (bool_decide_unpack _). by vm_compute. Qed.

(** The paused one-shot [(f1, 7)] when its delay of 40 is reached: it is
    not invoked, and it is gone. *)
Lemma paused_step_uses_fire_limit_witness :
  ∃ s' t', step_ 1040 1 40 paused_one_shot = Normal tt s'
    ∧ log s' = []
    ∧ heap s' !! 1 = Some t'
    ∧ limit t' = 0%Z
    ∧ Forall (keeps f1 7) (registrations s').
Proof.
  destruct (paused_step_uses_fire_limit 1040 1 40 paused_task
              (Entry 0 false f1 7) paused_one_shot)
    as (s' & t' & Hs & Hlog & Ht & Hl & _ & Hg).
  - apply wf_paused_one_shot.
  - reflexivity.
  - reflexivity.
  - repeat constructor.
  - simpl. lia.
  - simpl. lia.
  - exists s', t'. split_and!; [exact Hs|exact Hlog|exact Ht|exact Hl|].
    by apply Hg.
Defined.

End directed_runs.

(** ** WebKit animation frames *)

Section webkit_runs.

#[local] Existing Instance webkit_leaving_host.

Lemma default_only_one_leaving : default_only one_leaving.
Proof.
  split_and!.
  - apply (bool_decide_unpack _). by vm_compute.
  - reflexivity.
  - exists one_leaving_task. by split_and!.
Qed.


End webkit_runs.

(** A callback that restarts the clock source during a frame. *)

Section restarting_runs.

#[local] Existing Instance restarting_host.

(** C10 fails for a restart made by a callback during a tick: [f1] calls
    [setDisplayRate] when invoked, at time 1020, by the frame stamped 1016;
    the restart stores 1020 in [lastRunTime_], and the handler then
    overwrites it with the stamp of the frame.  The next frame, stamped
    1036, hands [f1] 20 ms, 4 ms more than the time since the restart. *)
Lemma restart_in_frame_is_overwritten :
  ∃ s0 s1 s2,
    dispatch_ 1020 16 one_restarting = Normal tt s0
    ∧ log s0 = [Call 0 f1 ctx 16]
    ∧ active_ s0 = true ∧ lastRunTime_ s0 = 1020%Z
    ∧ animationFrameHandler_ 1020 1016 one_restarting = Normal tt s1
    ∧ active_ s1 = true ∧ lastRunTime_ s1 = 1016%Z
    ∧ animationFrameHandler_ 1040 1036 s1 = Normal tt s2
    ∧ since s1 s2 = [Call 0 f1 ctx 20].
Proof.
  do 3 eexists.
  repeat (split; [vm_compute; reflexivity|]); vm_compute; reflexivity.
Qed.

End restarting_runs.

(** ** Mozilla animation frames *)

Section moz_runs.

#[local] Existing Instance moz_host.

Lemma wf_moz_one_registration : wf moz_one_registration.
Proof. apply (bool_decide_unpack _). by vm_compute. Qed.

(** The initial state, with nothing registered: the Mozilla handler
    requests a frame, the WebKit one raises. *)
Lemma idle_tick_records_time_witness :
  stepTimer_ 1016 scheduleManager
  = Normal tt (set_lastRunTime_ 1016 scheduleManager)
  ∧ beforePaintHandler_ 1016 1016 scheduleManager
    = Normal tt
        (moz_frame_requested (set_lastRunTime_ 1016 scheduleManager))
  ∧ animationFrameHandler_ 1016 1016 scheduleManager
    = TypeError (set_lastRunTime_ 1016 scheduleManager).
Proof.
  assert (wf scheduleManager) as Hwf
    by (apply (bool_decide_unpack _); by vm_compute).
  exact (idle_tick_records_time 1016 1016 scheduleManager Hwf eq_refl).
Defined.

(** A frame stamped 990 on the scheduler started at 1000. *)
Lemma backwards_frame_invokes_nothing_witness :
  ∃ h,
    Forall2 (λ t t', same_setup t t' ∧ (delta t ≤ delta t')%Z)
      (heap moz_one_registration) h
    ∧ beforePaintHandler_ 1016 990 moz_one_registration
      = Normal tt
          (moz_frame_requested
             (set_lastRunTime_ 990 (set_heap h moz_one_registration))).
Proof.
  destruct (backwards_frame_invokes_nothing 1016 990 moz_one_registration)
    as (h & Hh & Hm & _).
  - apply wf_moz_one_registration.
  - repeat constructor. simpl. lia.
  - simpl. lia.
  - exists h. split; [exact Hh|]. apply Hm. reflexivity.
Defined.

(** C4 fails on a frame stamped before [lastRunTime_], and when a callback
    unschedules another.  On the scheduler started at 1000, the frames
    stamped 990, 995 and 999 dispatch -10, 5 and 4: the default task, of
    cadence 0 and accumulator 0, invokes nothing on any of them, and its
    accumulator ends at 1.  With [(f1, ctx)], [(f2, ctx)] and [(f3, ctx)]
    on the default task, where [f3] unschedules [f1], one dispatch invokes
    [f3] twice and [f1] not at all. *)
Lemma default_task_misses_and_repeats :
  (heap moz_one_registration !! 0
   = Some (mkTask 0 0 (-1) [Entry 0 true f1 ctx])
   ∧ lastRunTime_ moz_one_registration = 1000%Z
   ∧ ∃ s,
       (beforePaintHandler_ 1016 990 ≫= λ _,
        beforePaintHandler_ 1032 995 ≫= λ _,
        beforePaintHandler_ 1048 999) moz_one_registration = Normal tt s
       ∧ log s = []
       ∧ delta <$> heap s !! 0 = Some 1%Z)
  ∧ (heap three_registered !! 0
     = Some (mkTask 0 0 (-1)
               [Entry 0 true f1 ctx; Entry 1 true f2 ctx;
                Entry 2 true f3 ctx])
     ∧ ∃ s,
         dispatch_ (host_env := dropping_host) 1016 16 three_registered
         = Normal tt s
         ∧ log s = [Call 2 f3 ctx 16; Call 2 f3 ctx 16; Call 1 f2 ctx 16]).
Proof.
  split.
  - split; [reflexivity|]. split; [reflexivity|]. eexists.
    repeat (split; [vm_compute; reflexivity|]); vm_compute; reflexivity.
  - split; [reflexivity|]. eexists.
    repeat (split; [vm_compute; reflexivity|]); vm_compute; reflexivity.
Qed.

End moz_runs.
